(** * SRT to ASS converter: the conversion pipeline of
      [src/app/api/convert/route.ts] (class [SRTtoASSConverter]).

    Strings are JavaScript strings: sequences of UTF-16 code units, here
    [list N].  Regular expressions are run by a backtracking matcher for the
    fragment the source uses.  [Number.parseInt] results are integers or NaN
    ([option Z], exact for the safe integers below 2^53 that a double holds
    exactly).  The seconds arithmetic of [validateSubtitleTiming] is done on
    rationals ([Q]): on the timestamps [parseSRTTime] returns, every quantity
    is a multiple of 1/100 below 2^19, where the rounding error of IEEE
    doubles (below 2^-33) stays far from the boundaries of the comparison, of
    [Math.floor] and of [toFixed(2)] (multiples of 1/200).

    A [try] block whose steps cannot throw is written without its [catch]
    clause; where a [throw] is in the block, the block returns a [thrown]
    value and the function handles it as its [catch] clause does.

    The object literal [encodingFixes] of [fixEncodingArtifacts] is damaged
    in the source text (stray backslashes, keys written more than once), so
    the functions take the table as an argument and the properties are
    proved for every table; [encodingFixes_source] is the table as it can be
    read. *)

From Stdlib Require Import Ascii String.
From Stdlib Require Import List NArith ZArith QArith Qround Bool Arith Lia.
From Stdlib Require Import Permutation Sorted.
Import ListNotations.
Close Scope Q_scope.

Set Implicit Arguments.

(** ** JavaScript strings *)

Definition jsstring := list N.

(** An ASCII literal as a JavaScript string. *)
Definition str (s : string) : jsstring :=
  map N_of_ascii (list_ascii_of_string s).

Definition LF : N := 10%N.
Definition CR : N := 13%N.

Definition is_empty (s : jsstring) : bool :=
  match s with [] => true | _ => false end.

(** WhiteSpace and LineTerminator code units of ECMAScript: what [trim]
    strips and what [\s] matches. *)
Definition is_ws (c : N) : bool :=
  ((9 <=? c) && (c <=? 13) || (c =? 32) || (c =? 160) || (c =? 5760)
   || (8192 <=? c) && (c <=? 8202) || (c =? 8232) || (c =? 8233)
   || (c =? 8239) || (c =? 8287) || (c =? 12288) || (c =? 65279))%N.

Definition is_digit (c : N) : bool := ((48 <=? c) && (c <=? 57))%N.

(** LineTerminator: what [.] does not match. *)
Definition is_line_terminator (c : N) : bool :=
  ((c =? 10) || (c =? 13) || (c =? 8232) || (c =? 8233))%N.

Fixpoint trimStart (s : jsstring) : jsstring :=
  match s with
  | c :: s' => if is_ws c then trimStart s' else s
  | [] => []
  end.

Definition trimEnd (s : jsstring) : jsstring := rev (trimStart (rev s)).

(** [String.prototype.trim] *)
Definition trim (s : jsstring) : jsstring := trimEnd (trimStart s).

Fixpoint starts_with (p s : jsstring) : bool :=
  match p, s with
  | [], _ => true
  | a :: p', b :: s' => (a =? b)%N && starts_with p' s'
  | _ :: _, [] => false
  end.

(** [s.replace(pat, repl)] with a string pattern: the first occurrence only. *)
Fixpoint replace_first (pat repl s : jsstring) : jsstring :=
  if starts_with pat s then repl ++ skipn (length pat) s
  else match s with
       | [] => []
       | c :: s' => c :: replace_first pat repl s'
       end.

Definition cons_head (c : N) (l : list jsstring) : list jsstring :=
  match l with
  | p :: ps => (c :: p) :: ps
  | [] => [[c]]
  end.

(** [s.split(sep)] with a non-empty string separator. *)
Fixpoint split_str_f (fuel : nat) (sep s : jsstring) : list jsstring :=
  match fuel with
  | O => [s]
  | S f =>
      match s with
      | [] => [[]]
      | c :: s' =>
          if starts_with sep s then [] :: split_str_f f sep (skipn (length sep) s)
          else cons_head c (split_str_f f sep s')
      end
  end.

Definition split_str (sep s : jsstring) : list jsstring :=
  split_str_f (S (length s)) sep s.

(** [arr.join(sep)] *)
Fixpoint join (sep : jsstring) (l : list jsstring) : jsstring :=
  match l with
  | [] => []
  | [x] => x
  | x :: l' => x ++ sep ++ join sep l'
  end.

(** [s.padStart(n, "0")] and [s.padEnd(n, "0")] *)
Definition padStart0 (n : nat) (s : jsstring) : jsstring :=
  repeat 48%N (n - length s) ++ s.

Definition padEnd0 (n : nat) (s : jsstring) : jsstring :=
  s ++ repeat 48%N (n - length s).

(** ** Numbers *)

(** Decimal digits of a natural number, most significant first. *)
Fixpoint dec_digits (fuel : nat) (n : N) (acc : jsstring) : jsstring :=
  match fuel with
  | O => acc
  | S f =>
      let acc' := (48 + n mod 10)%N :: acc in
      if (n <? 10)%N then acc' else dec_digits f (n / 10)%N acc'
  end.

Definition N_toString (n : N) : jsstring :=
  dec_digits (S (N.to_nat (N.log2 n))) n [].

Definition Z_toString (z : Z) : jsstring :=
  if (z <? 0)%Z then 45%N :: N_toString (Z.to_N (- z)) else N_toString (Z.to_N z).

(** A number that is an integer or NaN ([None]), and its [toString]. *)
Definition jsint := option Z.

Definition jsint_toString (n : jsint) : jsstring :=
  match n with
  | Some z => Z_toString z
  | None => str "NaN"
  end.

(** [n >= k]: false on NaN. *)
Definition jsint_ge (n : jsint) (k : Z) : bool :=
  match n with
  | Some z => (k <=? z)%Z
  | None => false
  end.

(** [Math.floor(n / k)] for an integer [n] and [k > 0]. *)
Definition jsint_floor_div (n : jsint) (k : Z) : jsint :=
  option_map (fun z => (z / k)%Z) n.

Definition digit_val (c : N) : option Z :=
  if is_digit c then Some (Z.of_N (c - 48))
  else if ((97 <=? c) && (c <=? 102))%N then Some (Z.of_N (c - 87))
  else if ((65 <=? c) && (c <=? 70))%N then Some (Z.of_N (c - 55))
  else None.

(** The longest prefix of digits of the radix, read as a number. *)
Fixpoint read_digits (radix : Z) (acc : jsint) (s : jsstring) : jsint :=
  match s with
  | [] => acc
  | c :: s' =>
      match digit_val c with
      | Some d =>
          if (d <? radix)%Z then
            read_digits radix
              (Some (match acc with Some a => a * radix + d | None => d end)%Z) s'
          else acc
      | None => acc
      end
  end.

(** [Number.parseInt(s)] with no radix: leading white space is skipped, a
    sign is read, a [0x] or [0X] prefix selects radix 16, the longest prefix
    of digits is the value, and NaN is returned when there is none.  It never
    throws. *)
Definition parseInt (s : jsstring) : jsint :=
  let s1 := trimStart s in
  let '(neg, s2) :=
    match s1 with
    | c :: r =>
        if (c =? 45)%N then (true, r)
        else if (c =? 43)%N then (false, r)
        else (false, s1)
    | [] => (false, s1)
    end in
  let '(radix, s3) :=
    match s2 with
    | a :: b :: r =>
        if ((a =? 48) && ((b =? 120) || (b =? 88)))%N then (16%Z, r)
        else (10%Z, s2)
    | _ => (10%Z, s2)
    end in
  option_map (fun z => if neg then (- z)%Z else z) (read_digits radix None s3).

(** ** Regular expressions *)

(** One-character atoms. *)
Inductive cls :=
| CChar (c : N)            (* a literal character *)
| CDigit                   (* \d *)
| CSpace                   (* \s *)
| CDot                     (* .  *)
| COneOf (l : list N)      (* [...]  *)
| CNoneOf (l : list N).    (* [^...] *)

(** The fragment of the source's patterns: sequences of one-character atoms,
    greedy quantifiers on one-character atoms, and capture groups. *)
Inductive regex :=
| REps
| RAtom (k : cls)
| RRep (k : cls) (lo : nat) (hi : option nat)
| RSeq (r1 r2 : regex)
| RGroup (i : nat) (r : regex).

(** Canonicalize of the [i] flag; the patterns that carry the flag are ASCII,
    and a code unit of 128 or more never canonicalizes to an ASCII one. *)
Definition canon (c : N) : N :=
  if ((97 <=? c) && (c <=? 122))%N then (c - 32)%N else c.

Definition char_eq (ci : bool) (p c : N) : bool :=
  if ci then (canon p =? canon c)%N else (p =? c)%N.

Definition cls_match (ci : bool) (k : cls) (c : N) : bool :=
  match k with
  | CChar p => char_eq ci p c
  | CDigit => is_digit c
  | CSpace => is_ws c
  | CDot => negb (is_line_terminator c)
  | COneOf l => existsb (fun p => char_eq ci p c) l
  | CNoneOf l => negb (existsb (fun p => char_eq ci p c) l)
  end.

Definition caps := list (nat * jsstring).

Fixpoint cap (i : nat) (cs : caps) : jsstring :=
  match cs with
  | [] => []
  | (j, s) :: cs' => if Nat.eqb i j then s else cap i cs'
  end.

Section Matcher.
Variable ci : bool.
Variable A : Type.

(** Greedy [k{lo,hi}]: take one more character when possible, and give it
    back when the rest of the pattern then fails. *)
Fixpoint rep (k : cls) (lo : nat) (hi : option nat) (s : jsstring)
         (cont : jsstring -> option A) : option A :=
  let stop := match lo with O => cont s | S _ => None end in
  match hi with
  | Some O => stop
  | _ =>
      match s with
      | [] => stop
      | c :: s' =>
          if cls_match ci k c then
            match rep k (pred lo) (option_map pred hi) s' cont with
            | Some a => Some a
            | None => stop
            end
          else stop
      end
  end.

(** Backtracking matcher in continuation-passing style: [cont] is the rest
    of the pattern. *)
Fixpoint mtch (r : regex) (s : jsstring) (cs : caps)
         (cont : jsstring -> caps -> option A) : option A :=
  match r with
  | REps => cont s cs
  | RAtom k =>
      match s with
      | c :: s' => if cls_match ci k c then cont s' cs else None
      | [] => None
      end
  | RRep k lo hi => rep k lo hi s (fun s' => cont s' cs)
  | RSeq r1 r2 => mtch r1 s cs (fun s1 cs1 => mtch r2 s1 cs1 cont)
  | RGroup i r1 =>
      mtch r1 s cs
        (fun s1 cs1 => cont s1 ((i, firstn (length s - length s1) s) :: cs1))
  end.
End Matcher.

(** A match at the start of [s]: what follows the match, and the captures. *)
Definition match_here (ci : bool) (r : regex) (s : jsstring)
  : option (jsstring * caps) :=
  mtch ci r s [] (fun s' cs => Some (s', cs)).

(** [s.match(r)] for a pattern without the [g] flag: the captures of the
    leftmost match. *)
Fixpoint exec (ci : bool) (r : regex) (s : jsstring) : option caps :=
  match match_here ci r s with
  | Some (_, cs) => Some cs
  | None =>
      match s with
      | [] => None
      | _ :: s' => exec ci r s'
      end
  end.

(** [r.test(s)] *)
Definition test (ci : bool) (r : regex) (s : jsstring) : bool :=
  match exec ci r s with Some _ => true | None => false end.

(** [s.replace(r, repl)] for a pattern with the [g] flag and a replacement
    without [$]: every match, left to right, an empty match advancing by one
    code unit. *)
Fixpoint replace_all_f (fuel : nat) (ci : bool) (r : regex) (repl s : jsstring)
  : jsstring :=
  match fuel with
  | O => s
  | S f =>
      let skip :=
        match s with
        | [] => []
        | c :: s' => c :: replace_all_f f ci r repl s'
        end in
      match match_here ci r s with
      | Some (rest, _) =>
          if (length rest <? length s)%nat
          then repl ++ replace_all_f f ci r repl rest
          else repl ++ skip
      | None => skip
      end
  end.

Definition replace_all (ci : bool) (r : regex) (repl s : jsstring) : jsstring :=
  replace_all_f (S (length s)) ci r repl s.

(** [s.split(r)] for a pattern without capture groups. *)
Fixpoint split_re_f (fuel : nat) (ci : bool) (r : regex) (at_p : bool)
         (s : jsstring) : list jsstring :=
  match fuel with
  | O => [s]
  | S f =>
      match s with
      | [] => [[]]
      | c :: s' =>
          match match_here ci r s with
          | Some (rest, _) =>
              if (length rest <? length s)%nat || negb at_p
              then [] :: split_re_f f ci r true rest
              else cons_head c (split_re_f f ci r false s')
          | None => cons_head c (split_re_f f ci r false s')
          end
      end
  end.

Definition split_re (ci : bool) (r : regex) (s : jsstring) : list jsstring :=
  match s with
  | [] => match match_here ci r [] with Some _ => [] | None => [[]] end
  | _ => split_re_f (S (2 * length s)) ci r true s
  end.

(** The pattern that matches a string literally: [new RegExp(p)] for a [p]
    without pattern syntax characters. *)
Fixpoint lit (p : jsstring) : regex :=
  match p with
  | [] => REps
  | c :: p' => RSeq (RAtom (CChar c)) (lit p')
  end.

Fixpoint rseq (l : list regex) : regex :=
  match l with
  | [] => REps
  | [r] => r
  | r :: l' => RSeq r (rseq l')
  end.

Definition rchar (a : ascii) : regex := RAtom (CChar (N_of_ascii a)).
Definition rstar (k : cls) : regex := RRep k 0 None.
Definition rplus (k : cls) : regex := RRep k 1 None.
Definition ropt (k : cls) : regex := RRep k 0 (Some 1).
Definition rrange (k : cls) (lo hi : nat) : regex := RRep k lo (Some hi).

(** ** parseSRTTime *)

Inductive thrown (A : Type) :=
| Returned (a : A)
| Thrown (msg : jsstring).
Arguments Thrown {A} msg.

(** [/(\d{1,2}):(\d{2}):(\d{2})[.,](\d{1,3})/] *)
Definition timePattern : regex :=
  rseq [ RGroup 1 (rrange CDigit 1 2); rchar ":";
        RGroup 2 (rrange CDigit 2 2); rchar ":";
        RGroup 3 (rrange CDigit 2 2); RAtom (COneOf [46; 44]%N);
        RGroup 4 (rrange CDigit 1 3) ].

Definition sentinel : jsstring := str "0:00:00.00".

(** The [try] block of [parseSRTTime]. *)
Definition parseSRTTime_try (timeStr : jsstring) : thrown jsstring :=
  let timeStr := trim timeStr in
  let timeStr := replace_first (str ",") (str ".") timeStr in
  match exec false timePattern timeStr with
  | None => Thrown (str "Invalid time format: " ++ timeStr)
  | Some m =>
      let hours := parseInt (cap 1 m) in
      let minutes := parseInt (cap 2 m) in
      let seconds := parseInt (cap 3 m) in
      let milliseconds := parseInt (firstn 3 (padEnd0 3 (cap 4 m))) in
      if jsint_ge minutes 60 || jsint_ge seconds 60 || jsint_ge milliseconds 1000
      then Thrown (str "Invalid time values: " ++ timeStr)
      else
        let centiseconds := jsint_floor_div milliseconds 10 in
        Returned
          (jsint_toString hours ++ str ":"
           ++ padStart0 2 (jsint_toString minutes) ++ str ":"
           ++ padStart0 2 (jsint_toString seconds) ++ str "."
           ++ padStart0 2 (jsint_toString centiseconds))
  end.

(** [parseSRTTime]: the [catch] clause turns every throw into the sentinel. *)
Definition parseSRTTime (timeStr : jsstring) : jsstring :=
  match parseSRTTime_try timeStr with
  | Returned s => s
  | Thrown _ => sentinel
  end.

(** ** Tables *)

(** The rows of [encodingFixes], in the order [Object.entries] lists them.
    Transcribed from the object literal as code units; the source text has
    stray backslashes before some of the quotes, which are not part of the
    keys, and several rows share a key: a repeated key keeps its first
    position and its last value. *)
Definition encodingFixes_source : list (jsstring * jsstring) :=
  [
    ([258; 161], [225]); ([258; 32], [224]); ([225; 186; 163], [7843]);
    ([258; 163], [227]); ([225; 186; 161], [7841]); ([258; 162], [226]);
    ([225; 186; 165], [7845]); ([225; 186; 167], [7847]);
    ([225; 186; 169], [7849]); ([225; 186; 171], [7851]);
    ([225; 186; 173], [7853]); ([196], [273]); ([196; 39], [273]);
    ([258; 169], [233]); ([258; 168], [232]); ([225; 186; 187], [7867]);
    ([225; 186; 189], [7869]); ([225; 186; 185], [7865]);
    ([258; 170], [234]); ([225; 186; 191], [7871]); ([225; 187], [7888]);
    ([225; 187; 402], [7875]); ([225; 187; 8230], [7877]);
    ([225; 187; 8225], [7879]); ([258; 173], [237]); ([258; 172], [236]);
    ([225; 187; 8240], [7881]); ([196; 169], [297]);
    ([225; 187; 8249], [7883]); ([258; 179], [243]); ([258; 178], [242]);
    ([258; 181], [245]); ([258; 180], [244]); ([225; 187; 39], [7890]);
    ([225; 187; 34], [7892]); ([225; 187; 8226], [7893]);
    ([225; 187; 8212], [7895]); ([225; 187; 8482], [7897]);
    ([198; 161], [417]); ([225; 187; 8250], [7899]);
    ([225; 187; 376], [7903]); ([225; 187; 161], [7905]);
    ([225; 187; 163], [7907]); ([258; 186], [250]); ([258; 185], [249]);
    ([225; 187; 167], [7911]); ([197; 169], [361]);
    ([225; 187; 165], [7909]); ([198; 176], [432]);
    ([225; 187; 169], [7913]); ([225; 187; 171], [7915]);
    ([225; 187; 173], [7917]); ([225; 187; 175], [7919]);
    ([225; 187; 177], [7921]); ([258; 189], [253]);
    ([225; 187; 179], [7923]); ([225; 187; 183], [7927]);
    ([225; 187; 185], [7929]); ([225; 187; 181], [7925]); ([258], [221]);
    ([258; 8364], [192]); ([225; 186; 162], [7842]); ([258; 402], [195]);
    ([225; 186; 32], [7840]); ([258; 8218], [194]);
    ([225; 186; 164], [7844]); ([225; 186; 166], [7846]);
    ([225; 186; 168], [7848]); ([225; 186; 170], [7850]);
    ([225; 186; 172], [7852]); ([196; 8218], [272]); ([258; 8240], [201]);
    ([258; 710], [200]); ([225; 186; 186], [7866]);
    ([225; 186; 188], [7868]); ([225; 186; 184], [7864]);
    ([258; 352], [202]); ([225; 186; 190], [7870]);
    ([225; 187; 8364], [7872]); ([225; 187; 8218], [7874]);
    ([225; 187; 8222], [7876]); ([225; 187; 8224], [7878]);
    ([258; 338], [204]); ([225; 187; 710], [7880]); ([196; 168], [296]);
    ([225; 187; 352], [7882]); ([258; 34], [212]); ([258; 39], [210]);
    ([225; 187; 381], [7886]); ([258; 8226], [213]);
    ([225; 187; 338], [7884]); ([225; 187; 8211], [7894]);
    ([225; 187; 732], [7896]); ([198; 32], [416]); ([225; 187; 353], [7898]);
    ([225; 187; 339], [7900]); ([225; 187; 382], [7902]);
    ([225; 187; 32], [7904]); ([225; 187; 162], [7906]); ([258; 353], [218]);
    ([258; 8482], [217]); ([225; 187; 166], [7910]); ([197; 168], [360]);
    ([225; 187; 164], [7908]); ([198; 175], [431]);
    ([225; 187; 168], [7912]); ([225; 187; 170], [7914]);
    ([225; 187; 172], [7916]); ([225; 187; 174], [7918]);
    ([225; 187; 176], [7920]); ([225; 187; 178], [7922]);
    ([225; 187; 182], [7926]); ([225; 187; 184], [7928]);
    ([225; 187; 180], [7924])
  ]%N.

(** The rows of [htmlEntities]. *)
Definition htmlEntities : list (jsstring * jsstring) :=
  [
    (str "&amp;", [38]); (str "&lt;", [60]); (str "&gt;", [62]);
    (str "&quot;", [34]); (str "&apos;", [39]); (str "&#39;", [39]);
    (str "&nbsp;", [32]); (str "&mdash;", [8212]); (str "&ndash;", [8211]);
    (str "&hellip;", [8230]); (str "&#225;", [225]); (str "&#224;", [224]);
    (str "&#7843;", [7843]); (str "&#227;", [227]); (str "&#7841;", [7841]);
    (str "&#226;", [226]); (str "&#7845;", [7845]); (str "&#7847;", [7847]);
    (str "&#7849;", [7849]); (str "&#7851;", [7851]);
    (str "&#7853;", [7853]); (str "&#273;", [273]); (str "&#233;", [233]);
    (str "&#232;", [232]); (str "&#7867;", [7867]); (str "&#7869;", [7869]);
    (str "&#7865;", [7865]); (str "&#234;", [234]); (str "&#7871;", [7871]);
    (str "&#7873;", [7873]); (str "&#7875;", [7875]);
    (str "&#7877;", [7877]); (str "&#7879;", [7879]); (str "&#237;", [237]);
    (str "&#236;", [236]); (str "&#7881;", [7881]); (str "&#297;", [297]);
    (str "&#7883;", [7883]); (str "&#243;", [243]); (str "&#242;", [242]);
    (str "&#7887;", [7887]); (str "&#245;", [245]); (str "&#7885;", [7885]);
    (str "&#244;", [244]); (str "&#7889;", [7889]); (str "&#7891;", [7891]);
    (str "&#7893;", [7893]); (str "&#7895;", [7895]);
    (str "&#7897;", [7897]); (str "&#417;", [417]); (str "&#7899;", [7899]);
    (str "&#7901;", [7901]); (str "&#7903;", [7903]);
    (str "&#7905;", [7905]); (str "&#7907;", [7907]); (str "&#250;", [250]);
    (str "&#249;", [249]); (str "&#7911;", [7911]); (str "&#361;", [361]);
    (str "&#7909;", [7909]); (str "&#432;", [432]); (str "&#7913;", [7913]);
    (str "&#7915;", [7915]); (str "&#7917;", [7917]);
    (str "&#7919;", [7919]); (str "&#7921;", [7921]); (str "&#253;", [253]);
    (str "&#7923;", [7923]); (str "&#7927;", [7927]);
    (str "&#7929;", [7929]); (str "&#7925;", [7925])
  ]%N.

(** ** The converter *)

Record SubtitleEntry := {
  number : jsint;
  start : jsstring;
  end_ : jsstring;
  text : jsstring;
  style : jsstring;
  originalText : jsstring
}.

Record ConversionResult := {
  success : bool;
  content : option jsstring;
  error : option jsstring;
  subtitleCount : option nat
}.

Definition assHeader : jsstring :=
  str "[Script Info]" ++ [LF]
  ++ str "Title: Converted from SRT" ++ [LF]
  ++ str "ScriptType: v4.00+" ++ [LF]
  ++ str "WrapStyle: 0" ++ [LF]
  ++ str "ScaledBorderAndShadow: yes" ++ [LF]
  ++ str "YCbCr Matrix: TV.601" ++ [LF]
  ++ str "PlayResX: 1920" ++ [LF]
  ++ str "PlayResY: 1080" ++ [LF]
  ++ [LF]
  ++ str "[V4+ Styles]" ++ [LF]
  ++ str "Format: Name, Fontname, Fontsize, PrimaryColour, SecondaryColour, OutlineColour, BackColour, Bold, Italic, Underline, StrikeOut, ScaleX, ScaleY, Spacing, Angle, BorderStyle, Outline, Shadow, Alignment, MarginL, MarginR, MarginV, Encoding" ++ [LF]
  ++ str "Style: Default,Arial,20,&H00FFFFFF,&H000000FF,&H00000000,&H80000000,0,0,0,0,100,100,0,0,1,2,2,2,10,10,10,1" ++ [LF]
  ++ str "Style: Title,Arial,24,&H00FFFFFF,&H000000FF,&H00000000,&H80000000,-1,0,0,0,100,100,0,0,1,2,2,8,10,10,10,1" ++ [LF]
  ++ str "Style: Italic,Arial,20,&H00FFFFFF,&H000000FF,&H00000000,&H80000000,0,-1,0,0,100,100,0,0,1,2,2,2,10,10,10,1" ++ [LF]
  ++ [LF]
  ++ str "[Events]" ++ [LF]
  ++ str "Format: Layer, Start, End, Style, Name, MarginL, MarginR, MarginV, Effect, Text" ++ [LF].

(** The ASS line break, backslash and N. *)
Definition assBreak : jsstring := str "\N".

(** [/<i>.*<\/i>/i] *)
Definition italicPattern : regex :=
  rseq [ lit (str "<i>"); rstar CDot; lit (str "</i>") ].

(** [/<\/?i>/gi] *)
Definition italicTag : regex :=
  rseq [ rchar "<"; ropt (CChar 47); rchar "i"; rchar ">" ].

(** [/<\/?NAME[^>]*>/gi] *)
Definition tagPattern (name : string) : regex :=
  rseq [ rchar "<"; ropt (CChar 47); lit (str name); rstar (CNoneOf [62%N]);
        rchar ">" ].

Definition htmlTags : list regex :=
  map tagPattern
    [ "b"; "u"; "s"; "em"; "strong"; "font"; "span"; "div"; "p" ]%string.

(** [/<br\s*\/?>/gi] *)
Definition brPattern : regex :=
  rseq [ lit (str "<br"); rstar CSpace; ropt (CChar 47); rchar ">" ].

(** One timestamp inside the time-range patterns:
    [\d{1,2}:\d{2}:\d{2}[.,]\d{1,3}] *)
Definition stamp : regex :=
  rseq [ rrange CDigit 1 2; rchar ":"; rrange CDigit 2 2; rchar ":";
        rrange CDigit 2 2; RAtom (COneOf [46; 44]%N); rrange CDigit 1 3 ].

Definition rangePattern (arrow : regex) : regex :=
  rseq [ RGroup 1 stamp; rstar CSpace; arrow; rstar CSpace; RGroup 2 stamp ].

(** The three separators: [-->], the arrow U+2192, and a hyphen. *)
Definition timePatterns : list regex :=
  [ rangePattern (lit (str "-->"));
    rangePattern (RAtom (CChar 8594%N));
    rangePattern (rchar "-") ].

(** [for (const pattern of timePatterns) { timeMatch = timeLine.match(pattern);
    if (timeMatch) break }] *)
Fixpoint first_match (ps : list regex) (s : jsstring) : option caps :=
  match ps with
  | [] => None
  | p :: ps' =>
      match exec false p s with
      | Some m => Some m
      | None => first_match ps' s
      end
  end.

(** [/\n\s*\n/] *)
Definition blankLine : regex :=
  rseq [ RAtom (CChar LF); rstar CSpace; RAtom (CChar LF) ].

(** [/\d+/], the whole match kept as capture 0. *)
Definition digitRun : regex := RGroup 0 (rplus CDigit).

(** The call [Number.parseInt(s)] as the [try] block sees it: it returns. *)
Definition Number_parseInt (s : jsstring) : thrown jsint :=
  Returned (parseInt s).

(** [s[i]] on an array of strings, [undefined] when out of range. *)
Definition at_index (l : list jsstring) (i : nat) : option jsstring :=
  nth_error l i.

(** [Number.parseInt] of an array element; [undefined] reads as NaN. *)
Definition parseInt_at (l : list jsstring) (i : nat) : jsint :=
  match at_index l i with
  | Some s => parseInt s
  | None => None
  end.

(** *** Seconds as rationals *)

(** A number that is a rational or NaN. *)
Definition jsnum := option Q.

Fixpoint read_dec (acc : N) (n : nat) (s : jsstring) : N * nat * jsstring :=
  match s with
  | c :: s' =>
      if is_digit c then read_dec (acc * 10 + (c - 48))%N (S n) s'
      else (acc, n, s)
  | [] => (acc, n, [])
  end.

(** [Number.parseFloat(s)] on decimal literals: white space, a sign, digits
    and a fraction; NaN when no digit is found.  (The exponent and
    [Infinity] forms of the full grammar are left out: the strings read here
    hold digits, colons and a dot.) *)
Definition parseFloat (s : jsstring) : jsnum :=
  let s1 := trimStart s in
  let '(neg, s2) :=
    match s1 with
    | c :: r =>
        if (c =? 45)%N then (true, r)
        else if (c =? 43)%N then (false, r)
        else (false, s1)
    | [] => (false, s1)
    end in
  let '(i, ni, r1) := read_dec 0 0 s2 in
  let '(f, nf, _) :=
    match r1 with
    | c :: r2 => if (c =? 46)%N then read_dec 0 0 r2 else (0%N, 0%nat, r1)
    | [] => (0%N, 0%nat, r1)
    end in
  if Nat.eqb (ni + nf) 0 then None
  else
    let q := (inject_Z (Z.of_N i)
              + inject_Z (Z.of_N f) / inject_Z (10 ^ Z.of_nat nf))%Q in
    Some (if neg then (- q)%Q else q).

Definition parseFloat_at (l : list jsstring) (i : nat) : jsnum :=
  match at_index l i with
  | Some s => parseFloat s
  | None => None
  end.

Definition jsnum_of_int (n : jsint) : jsnum := option_map inject_Z n.

Definition jsnum_add (a b : jsnum) : jsnum :=
  match a, b with
  | Some x, Some y => Some (x + y)%Q
  | _, _ => None
  end.

Definition jsnum_mul (a b : jsnum) : jsnum :=
  match a, b with
  | Some x, Some y => Some (x * y)%Q
  | _, _ => None
  end.

(** [a <= b]: false when either is NaN. *)
Definition jsnum_le (a b : jsnum) : bool :=
  match a, b with
  | Some x, Some y => Qle_bool x y
  | _, _ => false
  end.

(** Truncation toward zero. *)
Definition Qtrunc (x : Q) : Z :=
  if Qle_bool 0 x then Qfloor x else Qceiling x.

(** [x % y]: the remainder has the sign of the dividend. *)
Definition Qrem (x y : Q) : Q := (x - y * inject_Z (Qtrunc (x / y)))%Q.

(** [x.toFixed(2)] for [x] below 10^21: the nearest multiple of 1/100, the
    larger one on a tie, written with two decimals. *)
Definition toFixed2 (x : Q) : jsstring :=
  let neg := negb (Qle_bool 0 x) in
  let a := if neg then (- x)%Q else x in
  let n := Z.to_N (Qfloor (a * 100 + (1 # 2))%Q) in
  let m := padStart0 3 (N_toString n) in
  let k := (length m - 2)%nat in
  (if neg then [45%N] else []) ++ firstn k m ++ str "." ++ skipn k m.

(** [H * 3600 + M * 60 + S.cc] from ["H:MM:SS.cc"] *)
Definition toSeconds (t : jsstring) : jsnum :=
  let parts := split_str (str ":") t in
  jsnum_add
    (jsnum_add (jsnum_mul (jsnum_of_int (parseInt_at parts 0)) (Some 3600%Q))
               (jsnum_mul (jsnum_of_int (parseInt_at parts 1)) (Some 60%Q)))
    (parseFloat_at parts 2).

(** The re-serialization of [endSeconds] in [validateSubtitleTiming]. *)
Definition formatSeconds (endSeconds : Q) : jsstring :=
  let hours := Qfloor (endSeconds / 3600) in
  let minutes := Qfloor (Qrem endSeconds 3600 / 60) in
  let seconds := Qrem endSeconds 60 in
  Z_toString hours ++ str ":" ++ padStart0 2 (Z_toString minutes) ++ str ":"
  ++ padStart0 5 (toFixed2 seconds).

Definition set_end (sub : SubtitleEntry) (e : jsstring) : SubtitleEntry :=
  {| number := number sub; start := start sub; end_ := e; text := text sub;
     style := style sub; originalText := originalText sub |}.

(** The body of the loop of [validateSubtitleTiming]; nothing in it throws.
    ([startSeconds] is a number when the comparison holds.) *)
Definition validateOne (sub : SubtitleEntry) : SubtitleEntry :=
  let startSeconds := toSeconds (start sub) in
  let endSeconds := toSeconds (end_ sub) in
  if jsnum_le endSeconds startSeconds then
    match startSeconds with
    | Some s => set_end sub (formatSeconds (s + 1)%Q)
    | None => sub
    end
  else sub.

(** [sub.end] is assigned in place and [sub] is pushed: the result holds the
    records of the argument, in order. *)
Definition validateSubtitleTiming (subtitles : list SubtitleEntry)
  : list SubtitleEntry :=
  map validateOne subtitles.

(** [(a, b) => a.number - b.number > 0]; a NaN difference counts as zero. *)
Definition after (a b : SubtitleEntry) : bool :=
  match number a, number b with
  | Some x, Some y => (0 <? x - y)%Z
  | _, _ => false
  end.

Fixpoint insert_sub (x : SubtitleEntry) (l : list SubtitleEntry)
  : list SubtitleEntry :=
  match l with
  | [] => [x]
  | y :: l' => if after x y then y :: insert_sub x l' else x :: y :: l'
  end.

(** [subtitles.sort((a, b) => a.number - b.number)]: [Array.prototype.sort]
    is stable, so on a consistent comparator its result is the one of any
    stable sort; here insertion from the right.  The comparator is
    consistent when every index is a safe integer (below 2^53 in absolute
    value, where the differences are exact).  With an index that is NaN or
    not safe the order of the source is left to the implementation, and
    this definition does not give it: the properties that depend on the
    order take safe indexes. *)
Fixpoint sort_subs (l : list SubtitleEntry) : list SubtitleEntry :=
  match l with
  | [] => []
  | x :: l' => insert_sub x (sort_subs l')
  end.

(** [`Dialogue: 0,${sub.start},${sub.end},${sub.style},,0,0,0,,${sub.text}\n`] *)
Definition dialogueLine (sub : SubtitleEntry) : jsstring :=
  str "Dialogue: 0," ++ start sub ++ str "," ++ end_ sub ++ str ","
  ++ style sub ++ str ",,0,0,0,," ++ text sub ++ [LF].

Definition writeASSFile (subtitles : list SubtitleEntry) : jsstring :=
  assHeader ++ flat_map dialogueLine subtitles.

Section Converter.

(** The rows of the [encodingFixes] table of [fixEncodingArtifacts]:
    keys without pattern syntax characters, values without [$]. *)
Variable encodingFixes : list (jsstring * jsstring).

(** [for (const [wrong, correct] of Object.entries(encodingFixes))
      fixedText = fixedText.replace(new RegExp(wrong, "g"), correct)] *)
Definition fixEncodingArtifacts (text : jsstring) : jsstring :=
  fold_left
    (fun fixedText row => replace_all false (lit (fst row)) (snd row) fixedText)
    encodingFixes text.

(** The fallback of [cleanAndFormatText] for an empty result. *)
Definition emptyFallback (originalText : jsstring) : jsstring :=
  let t := trim originalText in
  let t := replace_all false (rplus CSpace) (str " ") t in
  if is_empty t then str "[Empty subtitle]" else t.

(** The line-break steps of [cleanAndFormatText]: line feeds become ASS
    breaks, every line is trimmed, empty lines go, and the whole is
    trimmed. *)
Definition breakLines (text : jsstring) : jsstring :=
  let text := replace_all false (RAtom (CChar LF)) assBreak text in
  let lines := split_str assBreak text in
  let cleanedLines :=
    filter (fun line => negb (is_empty line)) (map trim lines) in
  let text := join assBreak cleanedLines in
  trim text.

(** The steps of [cleanAndFormatText] up to the test for an empty result. *)
Definition cleanSteps (text : jsstring) : jsstring * jsstring :=
  let text := replace_all false (RAtom (CChar 65279%N)) [] text in
  let text := fixEncodingArtifacts text in
  let text := replace_all false (lit [CR; LF]) [LF] text in
  let text := replace_all false (lit [CR]) [LF] text in
  let '(style, text) :=
    if test true italicPattern text
    then (str "Italic", replace_all true italicTag [] text)
    else (str "Default", text) in
  let text := fold_left (fun t p => replace_all true p [] t) htmlTags text in
  let text := replace_all true brPattern assBreak text in
  let text :=
    fold_left (fun t row => replace_all false (lit (fst row)) (snd row) t)
      htmlEntities text in
  (breakLines text, style).

(** [cleanAndFormatText]; no step of its [try] block throws, so the
    [catch] clause is not entered. *)
Definition cleanAndFormatText (text : jsstring) : jsstring * jsstring :=
  if is_empty text then ([], str "Default")
  else
    let originalText := text in
    let '(text, style) := cleanSteps text in
    let text := if is_empty text then emptyFallback originalText else text in
    (text, style).

(** [parseSRTBlock]; [None] is [null].  The inner [try] holds the call of
    [Number.parseInt], its [catch] clause the search for a run of digits. *)
Definition parseSRTBlock (block : jsstring) : option SubtitleEntry :=
  let lines :=
    filter (fun line => negb (is_empty line))
      (map trim (split_str [LF] (trim block))) in
  if (length lines <? 3)%nat then None
  else
    let line0 := nth 0 lines [] in
    let number_or_null :=
      match Number_parseInt line0 with
      | Returned n => Some n
      | Thrown _ =>
          match exec false digitRun line0 with
          | Some numberMatch => Some (parseInt (cap 0 numberMatch))
          | None => None
          end
      end in
    match number_or_null with
    | None => None
    | Some number =>
        let timeLine := nth 1 lines [] in
        match first_match timePatterns timeLine with
        | None => None
        | Some timeMatch =>
            let startTime := cap 1 timeMatch in
            let endTime := cap 2 timeMatch in
            let textLines := skipn 2 lines in
            let text := join [LF] textLines in
            let '(cleanedText, style) := cleanAndFormatText text in
            Some {| number := number;
                    start := parseSRTTime startTime;
                    end_ := parseSRTTime endTime;
                    text := cleanedText;
                    style := style;
                    originalText := text |}
        end
    end.

(** One turn of the loop over the blocks: what it pushes. *)
Definition parsedBlocks (block : jsstring) : list SubtitleEntry :=
  if is_empty (trim block) then []
  else match parseSRTBlock block with
       | Some parsedBlock => [parsedBlock]
       | None => []
       end.

(** The [try] block of [parseSRTFile]. *)
Definition parseSRTFile_try (content : jsstring)
  : thrown (list SubtitleEntry) :=
  if is_empty (trim content)
  then Thrown (str "File is empty or contains no readable content")
  else
    let content := replace_all false (lit [CR; LF]) [LF] content in
    let content := replace_all false (lit [CR]) [LF] content in
    let blocks := split_re false blankLine (trim content) in
    let subtitles := flat_map parsedBlocks blocks in
    Returned (sort_subs subtitles).

(** [parseSRTFile]: its [catch] clause returns the empty array. *)
Definition parseSRTFile (content : jsstring) : list SubtitleEntry :=
  match parseSRTFile_try content with
  | Returned subtitles => subtitles
  | Thrown _ => []
  end.

(** [convertToASS]; nothing in its [try] block throws. *)
Definition convertToASS (srtContent : jsstring) : ConversionResult :=
  let subtitles := parseSRTFile srtContent in
  if (length subtitles =? 0)%nat then
    {| success := false; content := None;
       error := Some (str "No valid subtitles found in the SRT file");
       subtitleCount := None |}
  else
    let validatedSubtitles := validateSubtitleTiming subtitles in
    let assContent := writeASSFile validatedSubtitles in
    {| success := true; content := Some assContent; error := None;
       subtitleCount := Some (length validatedSubtitles) |}.

End Converter.

(** * Specification side *)

(** [p] occurs in [s] as a substring. *)
Definition occurs (p s : jsstring) : Prop :=
  exists pre post, s = pre ++ p ++ post.

(** A text is already correct for a table when no key of the table occurs
    in it. *)
Definition already_correct (table : list (jsstring * jsstring))
           (s : jsstring) : Prop :=
  forall row, In row table -> ~ occurs (fst row) s.

Fixpoint occursb (p s : jsstring) : bool :=
  starts_with p s
  || match s with
     | [] => false
     | _ :: s' => occursb p s'
     end.

Definition already_correctb (table : list (jsstring * jsstring))
           (s : jsstring) : bool :=
  forallb (fun row => negb (occursb (fst row) s)) table.

(** The failure result of [convertToASS]. *)
Definition noValidSubtitles : ConversionResult :=
  {| success := false; content := None;
     error := Some (str "No valid subtitles found in the SRT file");
     subtitleCount := None |}.

(** The lines of a block as [parseSRTBlock] reads them. *)
Definition blockLines (block : jsstring) : list jsstring :=
  filter (fun line => negb (is_empty line))
    (map trim (split_str [LF] (trim block))).

(** *** What a pattern matches *)

Definition within (hi : option nat) (n : nat) : Prop :=
  match hi with
  | Some h => n <= h
  | None => True
  end.

(** [matches ci r w cs cs']: the pattern [r] can match the string [w],
    turning the captures [cs] into [cs']. *)
Inductive matches (ci : bool) : regex -> jsstring -> caps -> caps -> Prop :=
| M_eps cs : matches ci REps [] cs cs
| M_atom k c cs :
    cls_match ci k c = true -> matches ci (RAtom k) [c] cs cs
| M_rep k lo hi w cs :
    Forall (fun c => cls_match ci k c = true) w ->
    lo <= length w -> within hi (length w) ->
    matches ci (RRep k lo hi) w cs cs
| M_seq r1 r2 w1 w2 cs cs1 cs2 :
    matches ci r1 w1 cs cs1 -> matches ci r2 w2 cs1 cs2 ->
    matches ci (RSeq r1 r2) (w1 ++ w2) cs cs2
| M_group i r w cs cs1 :
    matches ci r w cs cs1 -> matches ci (RGroup i r) w cs ((i, w) :: cs1).

(** A repetition that has taken [n] characters cannot take one more from
    [s]. *)
Definition stops (ci : bool) (k : cls) (hi : option nat) (n : nat)
           (s : jsstring) : Prop :=
  hi = Some n
  \/ match s with
     | [] => True
     | c :: _ => cls_match ci k c = false
     end.

(** [first_path ci r w s cs cs']: [r] matches [w] in front of [s] with every
    repetition taking all it can; this is the path the matcher tries
    first. *)
Inductive first_path (ci : bool)
  : regex -> jsstring -> jsstring -> caps -> caps -> Prop :=
| F_eps s cs : first_path ci REps [] s cs cs
| F_atom k c s cs :
    cls_match ci k c = true -> first_path ci (RAtom k) [c] s cs cs
| F_rep k lo hi w s cs :
    Forall (fun c => cls_match ci k c = true) w ->
    lo <= length w -> within hi (length w) -> stops ci k hi (length w) s ->
    first_path ci (RRep k lo hi) w s cs cs
| F_seq r1 r2 w1 w2 s cs cs1 cs2 :
    first_path ci r1 w1 (w2 ++ s) cs cs1 -> first_path ci r2 w2 s cs1 cs2 ->
    first_path ci (RSeq r1 r2) (w1 ++ w2) s cs cs2
| F_group i r w s cs cs1 :
    first_path ci r w s cs cs1 ->
    first_path ci (RGroup i r) w s cs ((i, w) :: cs1).

(** *** Timestamps as text *)

(** The number a string of decimal digits denotes. *)
Definition digits_value (d : jsstring) : N :=
  fold_left (fun a c => a * 10 + (c - 48))%N d 0%N.

Definition all_digits (s : jsstring) : Prop :=
  Forall (fun c => is_digit c = true) s.

Definition is_sep (c : N) : Prop := c = 46%N \/ c = 44%N.

(** Hours, minutes, seconds, separator and fraction put together. *)
Definition stamp_of (h m s : jsstring) (sep : N) (f : jsstring) : jsstring :=
  h ++ 58%N :: m ++ 58%N :: s ++ sep :: f.

(** One or two digits, two digits, two digits, a comma or a period, one to
    three digits. *)
Definition stamp_shape (h m s : jsstring) (sep : N) (f : jsstring) : Prop :=
  all_digits h /\ 1 <= length h <= 2
  /\ all_digits m /\ length m = 2
  /\ all_digits s /\ length s = 2
  /\ is_sep sep
  /\ all_digits f /\ 1 <= length f <= 3.

(** [t] starts with a timestamp. *)
Definition stamp_prefix (t : jsstring) : Prop :=
  exists h m s sep f rest,
    stamp_shape h m s sep f /\ t = stamp_of h m s sep f ++ rest.

(** A timestamp occurs somewhere in [t]. *)
Definition has_timestamp (t : jsstring) : Prop :=
  exists pre rest, t = pre ++ rest /\ stamp_prefix rest.


(** The fraction [f] in front of [post] cannot be extended. *)
Definition frac_maximal (f post : jsstring) : Prop :=
  length f = 3
  \/ match post with
     | [] => True
     | c :: _ => is_digit c = false
     end.

(** No timestamp starts inside [pre] when [pre] is followed by [rest]. *)
Definition none_before (pre rest : jsstring) : Prop :=
  forall p1 p2, pre = p1 ++ p2 -> p2 <> [] -> ~ stamp_prefix (p2 ++ rest).

(** Comma read as period. *)
Definition dot (c : N) : N := if (c =? 44)%N then 46%N else c.

(** What [parseSRTTime] makes of the four captured fields. *)
Definition stamp_value (h m s f : jsstring) : jsstring :=
  let hours := parseInt h in
  let minutes := parseInt m in
  let seconds := parseInt s in
  let milliseconds := parseInt (firstn 3 (padEnd0 3 f)) in
  if jsint_ge minutes 60 || jsint_ge seconds 60 || jsint_ge milliseconds 1000
  then sentinel
  else
    jsint_toString hours ++ str ":"
    ++ padStart0 2 (jsint_toString minutes) ++ str ":"
    ++ padStart0 2 (jsint_toString seconds) ++ str "."
    ++ padStart0 2 (jsint_toString (jsint_floor_div milliseconds 10)).

(** *** Numbers as text *)

(** A number on two and on three digits. *)
Definition pad2 (n : N) : jsstring := padStart0 2 (N_toString n).
Definition pad3 (n : N) : jsstring := padStart0 3 (N_toString n).

Definition jsint_eqb (a b : jsint) : bool :=
  match a, b with
  | Some x, Some y => (x =? y)%Z
  | None, None => true
  | _, _ => false
  end.

Definition N_below (n : N) : list N := map N.of_nat (seq 0 (N.to_nat n)).

(** What the proofs need of a number written on two digits, of one written
    on three digits and read as a fraction, and of the hours. *)
Definition pad2_ok (n : N) : bool :=
  forallb is_digit (pad2 n) && Nat.eqb (length (pad2 n)) 2
  && jsint_eqb (parseInt (pad2 n)) (Some (Z.of_N n)).

Definition pad3_ok (n : N) : bool :=
  forallb is_digit (pad3 n) && Nat.eqb (length (pad3 n)) 3
  && jsint_eqb (parseInt (firstn 3 (padEnd0 3 (pad3 n)))) (Some (Z.of_N n)).

Definition hours_ok (n : N) : bool :=
  let t := N_toString n in
  forallb is_digit t && Nat.leb 1 (length t) && Nat.leb (length t) 2
  && jsint_eqb (parseInt t) (Some (Z.of_N n)).

(** [none_before], decided by running the pattern at every position. *)
Fixpoint none_beforeb (pre rest : jsstring) : bool :=
  match pre with
  | [] => true
  | _ :: pre' =>
      match match_here false timePattern (pre ++ rest) with
      | None => none_beforeb pre' rest
      | Some _ => false
      end
  end.

(** *** Normalized timestamps *)

(** [H:MM:SS.cc], the form of the timestamps [parseSRTTime] returns. *)
Definition stamp_text (h m s c : N) : jsstring :=
  N_toString h ++ str ":" ++ pad2 m ++ str ":" ++ pad2 s ++ str "."
  ++ pad2 c.

(** A timestamp in hundredths of a second, and back. *)
Definition centis (h m s c : N) : N := (((h * 60 + m) * 60 + s) * 100 + c)%N.

Definition stamp_of_centis (t : N) : jsstring :=
  stamp_text (t / 360000) (t / 6000 mod 60) (t / 100 mod 60) (t mod 100)%N.

(** Splitting at one character, by recursion on the string. *)
Fixpoint split_char (c : N) (s : jsstring) : list jsstring :=
  match s with
  | [] => [[]]
  | x :: s' =>
      if (c =? x)%N then [] :: split_char c s'
      else cons_head x (split_char c s')
  end.

Definition Q_eqb (a b : Q) : bool :=
  (Qnum a =? Qnum b)%Z && (Qden a =? Qden b)%positive.

Definition jsnum_eqb (a b : jsnum) : bool :=
  match a, b with
  | Some x, Some y => Q_eqb x y
  | None, None => true
  | _, _ => false
  end.

(** Seconds and hundredths written [SS.cc] are read back by [parseFloat];
    [k] stands for [SS * 100 + cc]. *)
Definition seconds_ok (k : N) : bool :=
  jsnum_eqb (parseFloat (pad2 (k / 100) ++ str "." ++ pad2 (k mod 100)))
            (Some (Z.of_N k # 100)%Q).

Fixpoint string_eqb (a b : jsstring) : bool :=
  match a, b with
  | [], [] => true
  | x :: a', y :: b' => (x =? y)%N && string_eqb a' b'
  | _, _ => false
  end.

(** [toFixed(2)] of [k] hundredths, padded to five characters. *)
Definition fixed_ok (k : N) : bool :=
  string_eqb (padStart0 5 (toFixed2 (Z.of_N k # 100)%Q))
             (pad2 (k / 100) ++ str "." ++ pad2 (k mod 100)).

(** *** Well-formed documents *)

(** The first character is not white space; the last one is not. *)
Definition starts_solid (s : jsstring) : Prop :=
  match s with
  | c :: _ => is_ws c = false
  | [] => False
  end.

Definition ends_solid (s : jsstring) : Prop := starts_solid (rev s).

(** A line of a cue block: not empty, no white space at either end, no line
    break inside. *)
Definition text_line (l : jsstring) : Prop :=
  starts_solid l /\ ends_solid l /\ ~ In LF l /\ ~ In CR l.

(** A timestamp and nothing else. *)
Definition is_stamp (t : jsstring) : Prop :=
  exists h m s sep f, stamp_shape h m s sep f /\ t = stamp_of h m s sep f.

(** A cue as the document has it: the digits of its index, its two
    timestamps, its lines of text. *)
Record cue := {
  cue_index : jsstring;
  cue_from : jsstring;
  cue_to : jsstring;
  cue_lines : list jsstring
}.

Definition cue_number (c : cue) : N := digits_value (cue_index c).

(** The index is a safe integer, one that a JavaScript number holds
    exactly. *)
Definition well_formed_cue (c : cue) : Prop :=
  all_digits (cue_index c) /\ cue_index c <> []
  /\ (cue_number c < 2 ^ 53)%N
  /\ is_stamp (cue_from c) /\ is_stamp (cue_to c)
  /\ cue_lines c <> [] /\ Forall text_line (cue_lines c).

Definition time_row (c : cue) : jsstring :=
  cue_from c ++ str " --> " ++ cue_to c.

(** The lines of a cue block: index, time range, text. *)
Definition cue_rows (c : cue) : list jsstring :=
  cue_index c :: time_row c :: cue_lines c.

Definition cue_block (c : cue) : jsstring := join [LF] (cue_rows c).

(** Blocks separated by one empty line. *)
Definition document (cues : list cue) : jsstring :=
  join [LF; LF] (map cue_block cues).

(** The line ends of a document: line feeds, or carriage return and line
    feed. *)
Definition line_ends (crlf : bool) (s : jsstring) : jsstring :=
  if crlf then flat_map (fun c => if (c =? LF)%N then [CR; LF] else [c]) s
  else s.

(** White space without carriage return, as may stand before and after the
    blocks. *)
Definition blank (s : jsstring) : Prop :=
  Forall (fun c => is_ws c = true) s /\ ~ In CR s.

(** The record [parseSRTBlock] builds for a cue. *)
Definition entry_of (table : list (jsstring * jsstring)) (c : cue)
  : SubtitleEntry :=
  let t := join [LF] (cue_lines c) in
  {| number := Some (Z.of_N (cue_number c));
     start := parseSRTTime (cue_from c);
     end_ := parseSRTTime (cue_to c);
     text := fst (cleanAndFormatText table t);
     style := snd (cleanAndFormatText table t);
     originalText := t |}.

(** A [Dialogue] line without its line feed. *)
Definition dialogue_row (sub : SubtitleEntry) : jsstring :=
  str "Dialogue: 0," ++ start sub ++ str "," ++ end_ sub ++ str ","
  ++ style sub ++ str ",,0,0,0,," ++ text sub.

(** The lines of an ASS document that start with [Dialogue:]. *)
Definition dialogue_lines (content : jsstring) : list jsstring :=
  filter (starts_with (str "Dialogue:")) (split_str [LF] content).

Definition jsint_le (a b : jsint) : Prop :=
  match a, b with
  | Some x, Some y => (x <= y)%Z
  | _, _ => False
  end.

(** Every line feed of [t] is followed, in [t], by a character that is not
    white space. *)
Fixpoint solid (t : jsstring) : Prop :=
  match t with
  | [] => True
  | c :: t' => (c = LF -> starts_solid t') /\ solid t'
  end.

(** What follows the first block of a document. *)
Fixpoint after_blocks (bs : list jsstring) : jsstring :=
  match bs with
  | [] => []
  | b :: bs' => LF :: LF :: b ++ after_blocks bs'
  end.

(** Records in ascending order of index. *)
Definition index_le (a b : SubtitleEntry) : Prop :=
  jsint_le (number a) (number b).

Definition has_index (a : SubtitleEntry) : Prop := number a <> None.

(** The captures of the timestamp pattern. *)
Definition stamp_caps (h m s f : jsstring) : caps :=
  [(4, f); (3, s); (2, m); (1, h)].

(** A document of two cues, the second one first. *)
Definition sample_cues : list cue :=
  [ {| cue_index := str "2"; cue_from := str "00:00:05,000";
       cue_to := str "00:00:03,000";
       cue_lines := [str "<i>Hello</i>"; str "World"] |};
    {| cue_index := str "1"; cue_from := str "00:00:01,000";
       cue_to := str "00:00:02,500"; cue_lines := [str "First"] |} ].

(** The pattern syntax characters: a key without them is a literal
    pattern. *)
Definition is_syntax_char (c : N) : bool :=
  existsb (N.eqb c) (str "\^$.*+?()[]{}|/").

(** A row of a substitution table that [lit] models: a literal key that is
    not empty, a value without [$]. *)
Definition literal_row (row : jsstring * jsstring) : bool :=
  negb (is_empty (fst row))
  && forallb (fun c => negb (is_syntax_char c)) (fst row)
  && forallb (fun c => negb (c =? 36)%N) (snd row).

(** A key that holds a character outside ASCII. *)
Definition foreign_key (row : jsstring * jsstring) : bool :=
  existsb (fun c => (128 <=? c)%N) (fst row).

(** A record that ends before it starts. *)
Definition sample_entry : SubtitleEntry :=
  {| number := Some 1%Z; start := str "0:00:05.00";
     end_ := str "0:00:03.00"; text := str "Hi"; style := str "Default";
     originalText := str "Hi" |}.

(** *** More definitions for the properties *)

(** The hours, as [parseInt] reads them back. *)
Definition hours_read (n : N) : bool :=
  jsint_eqb (parseInt (N_toString n)) (Some (Z.of_N n)).

(** The two times of a record have the form [parseSRTTime] returns. *)
Definition parsed_times (sub : SubtitleEntry) : Prop :=
  exists h1 m1 s1 c1 h2 m2 s2 c2,
    ((h1 < 100)%N /\ (m1 < 60)%N /\ (s1 < 60)%N /\ (c1 < 100)%N)
    /\ ((h2 < 100)%N /\ (m2 < 60)%N /\ (s2 < 60)%N /\ (c2 < 100)%N)
    /\ start sub = stamp_text h1 m1 s1 c1
    /\ end_ sub = stamp_text h2 m2 s2 c2.

(** The end of a record, in seconds, is later than its start. *)
Definition ends_later (sub : SubtitleEntry) : Prop :=
  exists a b,
    toSeconds (start sub) = Some a /\ toSeconds (end_ sub) = Some b
    /\ (a < b)%Q.

(** Two records that differ in their end at most. *)
Definition same_but_end (a b : SubtitleEntry) : Prop :=
  number a = number b /\ start a = start b /\ text a = text b
  /\ style a = style b /\ originalText a = originalText b.

(** A record that ends after it starts. *)
Definition sample_timed : SubtitleEntry :=
  {| number := Some 1%Z; start := str "0:00:01.00";
     end_ := str "0:00:02.50"; text := str "Hi"; style := str "Default";
     originalText := str "Hi" |}.

(** Line ends written as a lone carriage return. *)
Definition cr_ends (s : jsstring) : jsstring :=
  map (fun c => if (c =? LF)%N then CR else c) s.



(** The record [parseSRTBlock] builds from an index line, two times and the
    lines of text. *)
Definition entry_rows (table : list (jsstring * jsstring))
           (idx a b : jsstring) (lines : list jsstring) : SubtitleEntry :=
  let t := join [LF] lines in
  {| number := parseInt idx;
     start := parseSRTTime a;
     end_ := parseSRTTime b;
     text := fst (cleanAndFormatText table t);
     style := snd (cleanAndFormatText table t);
     originalText := t |}.

(** What may follow the digits [d] at the head of an index line for
    [parseInt] to read [d] in decimal: no further digit, and no [x] or [X]
    after a lone [0]. *)
Definition index_rest (d rest : jsstring) : Prop :=
  match rest with
  | [] => True
  | c :: _ =>
      is_digit c = false /\ (d = [48%N] -> c <> 120%N /\ c <> 88%N)
  end.

(** A block with a numbered heading as its first line. *)
Definition sample_block : jsstring :=
  str "12. Intro" ++ [LF] ++ str "00:00:01,000 --> 00:00:02,000" ++ [LF]
  ++ str "Hi".

(** A block of a document: the block of a cue, or one or two stray lines. *)
Definition block_of (b : cue + list jsstring) : jsstring :=
  match b with
  | inl c => cue_block c
  | inr rows => join [LF] rows
  end.

Definition cues_of (bs : list (cue + list jsstring)) : list cue :=
  flat_map (fun b => match b with inl c => [c] | inr _ => [] end) bs.

Definition well_formed_block (b : cue + list jsstring) : Prop :=
  match b with
  | inl c => well_formed_cue c
  | inr rows => rows <> [] /\ length rows <= 2 /\ Forall text_line rows
  end.

(** The record has the index [k]. *)
Definition has_number (k : N) (e : SubtitleEntry) : bool :=
  jsint_eqb (number e) (Some (Z.of_N k)).

(** Blocks, each one after a gap: a line feed, white space (more line feeds
    too), a line feed. *)
Definition after_gaps (bs : list (jsstring * jsstring)) : jsstring :=
  flat_map (fun p => LF :: fst p ++ LF :: snd p) bs.

(** A document whose blocks stand apart by any number of blank lines. *)
Definition spaced_document (c : cue) (rest : list (jsstring * cue))
  : jsstring :=
  cue_block c ++ after_gaps (map (fun p => (fst p, cue_block (snd p))) rest).

(** A document with a stray line, and one with blank lines of several
    kinds. *)
Definition sample_stray : list (cue + list jsstring) :=
  [ inr [str "subtitles by nobody"];
    inl {| cue_index := str "1"; cue_from := str "00:00:01,000";
           cue_to := str "00:00:02,500"; cue_lines := [str "First"] |};
    inr [str "2"; str "00:00:03,000 --> 00:00:04,000"] ].

(** Two cues, and the document that holds them three lines apart, the one
    in the middle with a space and a tab. *)
Definition sample_cue_1 : cue :=
  {| cue_index := str "1"; cue_from := str "00:00:01,000";
     cue_to := str "00:00:02,500"; cue_lines := [str "First"] |}.

Definition sample_cue_2 : cue :=
  {| cue_index := str "2"; cue_from := str "00:00:03,000";
     cue_to := str "00:00:04,000"; cue_lines := [str "Second"] |}.

Definition sample_spaced : jsstring :=
  spaced_document sample_cue_1 [([LF; 32; 9; LF]%N, sample_cue_2)].

(** The index of the record is a safe integer: a number that a double holds
    exactly, so that the differences the sort compares are exact. *)
Definition safe_index (e : SubtitleEntry) : Prop :=
  exists z, number e = Some z /\ (- 2 ^ 53 < z < 2 ^ 53)%Z.

(** A document in which two cues carry the index 2, around a cue with the
    index 1. *)
Definition sample_repeats : list cue :=
  [ {| cue_index := str "2"; cue_from := str "00:00:05,000";
       cue_to := str "00:00:06,000"; cue_lines := [str "Two"] |};
    {| cue_index := str "1"; cue_from := str "00:00:01,000";
       cue_to := str "00:00:02,000"; cue_lines := [str "One"] |};
    {| cue_index := str "2"; cue_from := str "00:00:07,000";
       cue_to := str "00:00:08,000"; cue_lines := [str "Two again"] |} ].

(** The character a match of the pattern starts with, for a pattern that
    starts with a literal character. *)
Fixpoint lead (r : regex) : option N :=
  match r with
  | RAtom (CChar c) => Some c
  | RSeq r1 _ => lead r1
  | RGroup _ r1 => lead r1
  | _ => None
  end.

(** No step of [cleanAndFormatText] before the line breaks looks for the
    character: it is none of [<], [&], the backslash, the byte order mark
    and the carriage return. *)
Definition plain_char (c : N) : bool :=
  negb ((c =? 60) || (c =? 38) || (c =? 92) || (c =? 65279) || (c =? CR))%N.

Definition plain (s : jsstring) : Prop :=
  Forall (fun c => plain_char c = true) s.

(** A line of plain text: no markup, no white space at either end, no line
    feed. *)
Definition plain_line (l : jsstring) : Prop :=
  plain l /\ starts_solid l /\ ends_solid l /\ ~ In LF l.

(** A tag whose name starts with [b] or [B]: [<], a slash or none, the
    letter, anything but [>], and [>]. *)
Definition b_tag (slash : jsstring) (letter : N) (inner : jsstring)
  : jsstring :=
  [60%N] ++ slash ++ [letter] ++ inner ++ [62%N].

(** Two rows of a table of literal keys that do not get in each other's
    way: the same key with the same value, or keys neither of which starts
    with the other. *)
Definition rows_apart (row row' : jsstring * jsstring) : bool :=
  (string_eqb (fst row) (fst row') && string_eqb (snd row) (snd row'))
  || (negb (starts_with (fst row) (fst row'))
      && negb (starts_with (fst row') (fst row))).

(** What the proofs need of a row of [htmlEntities]: the key is [&]
    followed by plain characters, the value holds no [&], no backslash and
    no line feed, and the row is apart from every row of the table. *)
Definition entity_row_ok (row : jsstring * jsstring) : bool :=
  match fst row with
  | c :: k => (c =? 38)%N && forallb plain_char k
  | [] => false
  end
  && forallb (fun x => negb (x =? 38)%N && negb (x =? 92)%N
                       && negb (x =? LF)%N) (snd row)
  && forallb (rows_apart row) htmlEntities.

(** * Properties *)

Unset Implicit Arguments.

(** ** Literal patterns and the Encoding Fixer *)

Lemma starts_with_app (p s : jsstring) :
  starts_with p s = true -> s = p ++ skipn (length p) s.
Proof.
  revert s; induction p as [|a p IH]; intros s H; [reflexivity|].
  destruct s as [|b s]; [discriminate|].
  simpl in H. apply andb_true_iff in H as [Hab Hp].
  apply N.eqb_eq in Hab; subst b. simpl. f_equal. now apply IH.
Qed.

Lemma mtch_lit (A : Type) (p s : jsstring) (cs : caps)
      (cont : jsstring -> caps -> option A) :
  mtch false (lit p) s cs cont
  = if starts_with p s then cont (skipn (length p) s) cs else None.
Proof.
  revert s; induction p as [|a p IH]; intros s; [reflexivity|].
  destruct s as [|b s]; [reflexivity|].
  simpl. unfold char_eq. destruct (a =? b)%N; [apply IH | reflexivity].
Qed.

Lemma occurs_tail (p : jsstring) (c : N) (s : jsstring) :
  ~ occurs p (c :: s) -> ~ occurs p s.
Proof.
  intros H (pre & post & E). apply H. exists (c :: pre), post. now rewrite E.
Qed.

Lemma not_occurs_starts_with (p s : jsstring) :
  ~ occurs p s -> starts_with p s = false.
Proof.
  intros H. destruct (starts_with p s) eqn:E; [|reflexivity].
  exfalso. apply H. exists [], (skipn (length p) s). now apply starts_with_app.
Qed.

Lemma replace_all_f_absent (fuel : nat) (p repl s : jsstring) :
  ~ occurs p s -> replace_all_f fuel false (lit p) repl s = s.
Proof.
  revert s; induction fuel as [|f IH]; intros s H; [reflexivity|].
  simpl. unfold match_here. rewrite mtch_lit.
  rewrite (not_occurs_starts_with _ _ H).
  destruct s as [|c s]; [reflexivity|].
  f_equal. apply IH. eapply occurs_tail; eauto.
Qed.

Lemma fixEncodingArtifacts_absent (table : list (jsstring * jsstring))
      (s : jsstring) :
  already_correct table s -> fixEncodingArtifacts table s = s.
Proof.
  unfold fixEncodingArtifacts, already_correct.
  induction table as [|row table IH]; intros H; [reflexivity|].
  simpl. unfold replace_all. rewrite replace_all_f_absent.
  - apply IH. intros r Hr. apply H. now right.
  - apply H. now left.
Qed.

(** C9: on a text in which no key of the substitution table occurs, the
    Encoding Fixer changes nothing, so a second pass yields the same text as
    the first: no substitution fires, and the text passes through
    unchanged. *)
Theorem fixEncodingArtifacts_idempotent_on_correct
        (table : list (jsstring * jsstring)) (s : jsstring) :
  already_correct table s ->
  fixEncodingArtifacts table s = s
  /\ fixEncodingArtifacts table (fixEncodingArtifacts table s)
     = fixEncodingArtifacts table s.
Proof.
  intros H. rewrite (fixEncodingArtifacts_absent _ _ H).
  split; [reflexivity | now apply fixEncodingArtifacts_absent].
Qed.

Lemma starts_with_self (q r : jsstring) : starts_with q (q ++ r) = true.
Proof.
  induction q as [|a q IH]; simpl; [reflexivity|]. now rewrite N.eqb_refl.
Qed.

Lemma occursb_eq (p s : jsstring) :
  occursb p s
  = starts_with p s || match s with [] => false | _ :: s' => occursb p s' end.
Proof. destruct s; reflexivity. Qed.

Lemma occursb_complete (p s : jsstring) : occurs p s -> occursb p s = true.
Proof.
  intros (pre & post & ->). induction pre as [|c pre IH].
  - rewrite occursb_eq. simpl. now rewrite starts_with_self.
  - rewrite occursb_eq. simpl. rewrite IH. apply orb_true_r.
Qed.

Lemma already_correctb_sound (table : list (jsstring * jsstring))
      (s : jsstring) :
  already_correctb table s = true -> already_correct table s.
Proof.
  unfold already_correctb, already_correct. intros H row Hin Hocc.
  rewrite forallb_forall in H. specialize (H row Hin).
  apply occursb_complete in Hocc. rewrite Hocc in H. discriminate.
Qed.

Lemma fixEncodingArtifacts_idempotent_witness :
  already_correct encodingFixes_source (str "Xin chao")
  /\ fixEncodingArtifacts encodingFixes_source (str "Xin chao") = str "Xin chao"
  /\ fixEncodingArtifacts encodingFixes_source
       (fixEncodingArtifacts encodingFixes_source (str "Xin chao"))
     = fixEncodingArtifacts encodingFixes_source (str "Xin chao").
Proof.
  assert (H : already_correct encodingFixes_source (str "Xin chao")).
  { apply already_correctb_sound. vm_compute. reflexivity. }
  split; [exact H|].
  exact (fixEncodingArtifacts_idempotent_on_correct _ _ H).
Defined.

(** The rows of both tables are literal, and every key of the table of the
    source holds a character outside ASCII. *)
Lemma tables_literal :
  forallb literal_row encodingFixes_source = true
  /\ forallb literal_row htmlEntities = true
  /\ forallb foreign_key encodingFixes_source = true.
Proof. repeat split; vm_compute; reflexivity. Qed.

Lemma foreign_keys (table : list (jsstring * jsstring)) :
  forallb foreign_key table = true ->
  forall row, In row table -> exists c, In c (fst row) /\ (128 <= c)%N.
Proof.
  intros H row Hrow. rewrite forallb_forall in H. specialize (H row Hrow).
  unfold foreign_key in H. apply existsb_exists in H.
  destruct H as (c & Hc & L). exists c. split; [exact Hc|].
  now apply N.leb_le.
Qed.

(** ** The Text Formatter *)

(** A cue wrapped in an italic tag on one line is recognised. *)
Lemma cleanAndFormatText_italic_one_line :
  cleanAndFormatText encodingFixes_source (str "<i>Hello World</i>")
  = (str "Hello World", str "Italic").
Proof. vm_compute. reflexivity. Qed.

(** C2: on the two-line cue wrapped as a whole in an italic tag, the
    formatter keeps the tags in the text and answers style Default, where
    the claim has the text without tags and style Italic: the dot of
    [/<i>.*<\/i>/i] does not cross the line break. *)
Theorem cleanAndFormatText_italic_two_lines :
  cleanAndFormatText encodingFixes_source
    (str "<i>Hello" ++ [LF] ++ str "World</i>")
  = (str "<i>Hello\NWorld</i>", str "Default").
Proof. vm_compute. reflexivity. Qed.

(** The same holds with any substitution table whose keys all hold a
    character outside ASCII, as every key of a table of wrongly decoded
    letters does. *)
Lemma cleanAndFormatText_italic_two_lines_any_table
      (table : list (jsstring * jsstring)) :
  (forall row, In row table -> exists c, In c (fst row) /\ (128 <= c)%N) ->
  cleanAndFormatText table (str "<i>Hello" ++ [LF] ++ str "World</i>")
  = (str "<i>Hello\NWorld</i>", str "Default").
Proof.
  intros H.
  assert (A : already_correct table
                (str "<i>Hello" ++ [LF] ++ str "World</i>")).
  { intros row Hrow (pre & post & E).
    destruct (H row Hrow) as (c & Hc & Lc).
    assert (K : In c (str "<i>Hello" ++ [LF] ++ str "World</i>")).
    { rewrite E, !in_app_iff. tauto. }
    assert (F : Forall (fun x => (x < 128)%N)
                       (str "<i>Hello" ++ [LF] ++ str "World</i>"))
      by (repeat constructor).
    rewrite Forall_forall in F. specialize (F c K). lia. }
  unfold cleanAndFormatText, cleanSteps.
  change (replace_all false (RAtom (CChar 65279%N)) []
            (str "<i>Hello" ++ [LF] ++ str "World</i>"))
    with (str "<i>Hello" ++ [LF] ++ str "World</i>").
  cbv zeta. rewrite (fixEncodingArtifacts_absent table _ A).
  vm_compute. reflexivity.
Qed.

(** C7, as stated, fails on the empty string: the guard at the head of
    [cleanAndFormatText] returns the empty text. *)
Lemma cleanAndFormatText_empty_input :
  fst (cleanAndFormatText encodingFixes_source []) = [].
Proof. reflexivity. Qed.

(** C7 (amended): for every non-empty input the formatted text is the
    cleaned text when that is non-empty, else the trimmed original with each
    run of white space collapsed to one space when that is non-empty, else
    the placeholder; in every case it is not the empty string. *)
Theorem cleanAndFormatText_nonempty
        (table : list (jsstring * jsstring)) (text : jsstring) :
  text <> [] ->
  let cleaned := fst (cleanSteps table text) in
  let collapsed := replace_all false (rplus CSpace) (str " ") (trim text) in
  fst (cleanAndFormatText table text)
  = (if is_empty cleaned
     then if is_empty collapsed then str "[Empty subtitle]" else collapsed
     else cleaned)
  /\ fst (cleanAndFormatText table text) <> [].
Proof.
  intros Hne. unfold cleanAndFormatText, emptyFallback.
  destruct text as [|c text]; [contradiction|]. cbn [is_empty].
  destruct (cleanSteps table (c :: text)) as [t st]. cbn [fst].
  destruct t as [|x t]; cbn [is_empty fst].
  - destruct (replace_all false (rplus CSpace) (str " ") (trim (c :: text)))
      as [|y u]; cbn [is_empty]; split; try reflexivity; discriminate.
  - split; [reflexivity | discriminate].
Qed.

Lemma cleanAndFormatText_nonempty_witness :
  str "<b> </b>" <> []
  /\ fst (cleanAndFormatText encodingFixes_source (str "<b> </b>"))
     = str "<b> </b>".
Proof.
  assert (H : str "<b> </b>" <> []) by discriminate.
  split; [exact H|].
  exact (proj1 (cleanAndFormatText_nonempty encodingFixes_source _ H)).
Defined.

(** ** Empty documents *)

Lemma convertToASS_blank (table : list (jsstring * jsstring))
      (srtContent : jsstring) :
  is_empty (trim srtContent) = true ->
  convertToASS table srtContent = noValidSubtitles.
Proof.
  intros H. unfold convertToASS, parseSRTFile, parseSRTFile_try.
  rewrite H. reflexivity.
Qed.

(** C3: the empty document, a document of white space and a document with
    text but no parseable block all get the same failure result, with the
    no-valid-subtitles message: the empty-document error thrown by
    [parseSRTFile] is caught inside [parseSRTFile] itself. *)
Theorem convertToASS_empty_same_error (table : list (jsstring * jsstring)) :
  parseSRTFile_try table []
  = Thrown (str "File is empty or contains no readable content")
  /\ convertToASS table [] = noValidSubtitles
  /\ convertToASS table (str "  " ++ [LF]) = noValidSubtitles
  /\ convertToASS table (str "abc") = noValidSubtitles.
Proof. repeat split; vm_compute; reflexivity. Qed.

(** ** The index of a block *)

(** The index of a parsed block is always [Number.parseInt] of its first
    line: the digit-run fallback in the [catch] clause is never reached. *)
Lemma parseSRTBlock_number (table : list (jsstring * jsstring))
      (block : jsstring) (e : SubtitleEntry) :
  parseSRTBlock table block = Some e ->
  number e = parseInt (nth 0 (blockLines block) []).
Proof.
  unfold parseSRTBlock. fold (blockLines block).
  destruct (length (blockLines block) <? 3)%nat; [discriminate|].
  cbn [Number_parseInt].
  destruct (first_match timePatterns (nth 1 (blockLines block) []));
    [|discriminate].
  destruct (cleanAndFormatText table (join [LF] (skipn 2 (blockLines block)))).
  intros H. injection H as <-. reflexivity.
Qed.

(** C4: a block whose first line is [No. 7] is parsed with index NaN, not
    7, and a block whose first line has no digit is parsed, not rejected:
    [Number.parseInt] returns NaN instead of throwing, so the fallback of
    the [catch] clause does not run. *)
Theorem parseSRTBlock_index_not_recovered :
  option_map number
    (parseSRTBlock encodingFixes_source
       (str "No. 7" ++ [LF] ++ str "00:00:01,000 --> 00:00:02,000" ++ [LF]
        ++ str "Hi"))
  = Some None
  /\ parseSRTBlock encodingFixes_source
       (str "abc" ++ [LF] ++ str "00:00:01,000 --> 00:00:02,000" ++ [LF]
        ++ str "Hi")
     = Some {| number := None; start := str "0:00:01.00";
               end_ := str "0:00:02.00"; text := str "Hi";
               style := str "Default"; originalText := str "Hi" |}.
Proof. split; vm_compute; reflexivity. Qed.

(** ** The matcher *)

Section MatcherFacts.
Variable ci : bool.

Lemma firstn_length_diff (w rest : jsstring) :
  firstn (length (w ++ rest) - length rest) (w ++ rest) = w.
Proof.
  rewrite length_app, Nat.add_sub, firstn_app, Nat.sub_diag.
  rewrite firstn_all, firstn_O. apply app_nil_r.
Qed.

Lemma rep_sound (A : Type) (k : cls) (s : jsstring) :
  forall (lo : nat) (hi : option nat) (cont : jsstring -> option A) (a : A),
    rep ci k lo hi s cont = Some a ->
    exists w rest,
      s = w ++ rest
      /\ Forall (fun c => cls_match ci k c = true) w
      /\ lo <= length w /\ within hi (length w)
      /\ cont rest = Some a.
Proof.
  assert (Hstop : forall s0 lo hi (cont : jsstring -> option A) a,
             match lo with O => cont s0 | S _ => None end = Some a ->
             exists w rest,
               s0 = w ++ rest
               /\ Forall (fun c => cls_match ci k c = true) w
               /\ lo <= length w /\ within hi (length w)
               /\ cont rest = Some a).
  { intros s0 lo hi cont a H. destruct lo; [|discriminate].
    exists [], s0. repeat split; auto.
    destruct hi; simpl; auto with arith. }
  induction s as [|c s IH]; intros lo hi cont a H.
  - apply Hstop. destruct hi as [[|h]|]; exact H.
  - simpl in H. destruct hi as [[|h]|].
    + now apply Hstop.
    + destruct (cls_match ci k c) eqn:Hc; [|now apply Hstop].
      cbn [option_map] in H.
      destruct (rep ci k (pred lo) (Some (pred (S h))) s cont) eqn:Hr.
      * injection H as <-. apply IH in Hr.
        destruct Hr as (w & rest & -> & Hw & Hlo & Hhi & Hk).
        exists (c :: w), rest. simpl in *. repeat split; auto.
        -- lia.
        -- lia.
      * now apply Hstop.
    + destruct (cls_match ci k c) eqn:Hc; [|now apply Hstop].
      cbn [option_map] in H.
      destruct (rep ci k (pred lo) None s cont) eqn:Hr.
      * injection H as <-. apply IH in Hr.
        destruct Hr as (w & rest & -> & Hw & Hlo & Hhi & Hk).
        exists (c :: w), rest. simpl in *. repeat split; auto. lia.
      * now apply Hstop.
Qed.

Lemma mtch_sound (A : Type) (r : regex) :
  forall (s : jsstring) (cs : caps) (cont : jsstring -> caps -> option A)
         (a : A),
    mtch ci r s cs cont = Some a ->
    exists w rest cs',
      s = w ++ rest /\ matches ci r w cs cs' /\ cont rest cs' = Some a.
Proof.
  induction r as [|k|k lo hi|r1 IH1 r2 IH2|i r IH]; intros s cs cont a H;
    simpl in H.
  - exists [], s, cs. repeat split; auto. constructor.
  - destruct s as [|c s]; [discriminate|].
    destruct (cls_match ci k c) eqn:Hc; [|discriminate].
    exists [c], s, cs. repeat split; auto. now constructor.
  - apply rep_sound in H. destruct H as (w & rest & -> & Hw & Hlo & Hhi & Hk).
    exists w, rest, cs. repeat split; auto. now constructor.
  - apply IH1 in H. destruct H as (w1 & rest1 & cs1 & -> & M1 & H).
    apply IH2 in H. destruct H as (w2 & rest2 & cs2 & -> & M2 & H).
    exists (w1 ++ w2), rest2, cs2. rewrite <- app_assoc.
    repeat split; auto. econstructor; eauto.
  - apply IH in H. destruct H as (w & rest & cs1 & -> & M & H).
    rewrite firstn_length_diff in H.
    exists w, rest, ((i, w) :: cs1). repeat split; auto. now constructor.
Qed.

Lemma match_here_sound (r : regex) (s rest : jsstring) (cs : caps) :
  match_here ci r s = Some (rest, cs) ->
  exists w, s = w ++ rest /\ matches ci r w [] cs.
Proof.
  unfold match_here. intros H. apply mtch_sound in H.
  destruct H as (w & rest' & cs' & -> & M & H). injection H as <- <-.
  now exists w.
Qed.

Lemma exec_sound (r : regex) (s : jsstring) (cs : caps) :
  exec ci r s = Some cs ->
  exists pre w rest, s = pre ++ w ++ rest /\ matches ci r w [] cs.
Proof.
  induction s as [|c s IH]; simpl.
  - destruct (match_here ci r []) as [[rest cs']|] eqn:E; [|discriminate].
    intros H; injection H as <-. apply match_here_sound in E.
    destruct E as (w & E & M). now exists [], w, rest.
  - destruct (match_here ci r (c :: s)) as [[rest cs']|] eqn:E.
    + intros H; injection H as <-. apply match_here_sound in E.
      destruct E as (w & E & M). now exists [], w, rest.
    + intros H. apply IH in H. destruct H as (pre & w & rest & -> & M).
      now exists (c :: pre), w, rest.
Qed.

Lemma rep_first (A : Type) (k : cls) (w : jsstring) :
  forall (lo : nat) (hi : option nat) (s : jsstring)
         (cont : jsstring -> option A) (a : A),
    Forall (fun c => cls_match ci k c = true) w ->
    lo <= length w -> within hi (length w) -> stops ci k hi (length w) s ->
    cont s = Some a ->
    rep ci k lo hi (w ++ s) cont = Some a.
Proof.
  induction w as [|c w IH]; intros lo hi s cont a Hw Hlo Hhi Hst Hk.
  - simpl in *. assert (lo = 0) by lia; subst lo.
    destruct Hst as [-> | Hst].
    + destruct s; exact Hk.
    + destruct s as [|d s]; destruct hi as [[|h]|]; simpl; try exact Hk;
        now rewrite Hst.
  - inversion Hw as [|? ? Hc Hw']; subst. simpl in *.
    destruct hi as [[|h]|]; simpl in *; try lia.
    + rewrite Hc. rewrite (IH (pred lo) (Some h) s cont a); auto;
        try (simpl; lia).
      destruct Hst as [E | Hst]; [left; congruence | now right].
    + rewrite Hc. rewrite (IH (pred lo) None s cont a); auto;
        try (simpl; lia).
      destruct Hst as [E | Hst]; [discriminate | now right].
Qed.

Lemma mtch_first (r : regex) (w s : jsstring) (cs cs' : caps) :
  first_path ci r w s cs cs' ->
  forall (A : Type) (cont : jsstring -> caps -> option A) (a : A),
    cont s cs' = Some a -> mtch ci r (w ++ s) cs cont = Some a.
Proof.
  induction 1 as [s cs|k c s cs Hc|k lo hi w s cs Hw Hlo Hhi Hst
                  |r1 r2 w1 w2 s cs cs1 cs2 _ IH1 _ IH2
                  |i r w s cs cs1 _ IH]; intros A cont a Hk; simpl.
  - exact Hk.
  - now rewrite Hc.
  - now apply rep_first.
  - rewrite <- app_assoc. apply IH1. now apply IH2.
  - apply IH. now rewrite firstn_length_diff.
Qed.

Lemma match_here_first (r : regex) (w s : jsstring) (cs : caps) :
  first_path ci r w s [] cs -> match_here ci r (w ++ s) = Some (s, cs).
Proof. intros H. unfold match_here. now apply (mtch_first _ _ _ _ _ H). Qed.

Lemma exec_eq (r : regex) (s : jsstring) :
  exec ci r s
  = match match_here ci r s with
    | Some (_, cs) => Some cs
    | None => match s with [] => None | _ :: s' => exec ci r s' end
    end.
Proof. destruct s; reflexivity. Qed.

Lemma exec_first (r : regex) (pre w s : jsstring) (cs : caps) :
  (forall p1 p2, pre = p1 ++ p2 -> p2 <> [] ->
                 match_here ci r (p2 ++ w ++ s) = None) ->
  first_path ci r w s [] cs ->
  exec ci r (pre ++ w ++ s) = Some cs.
Proof.
  intros Hpre Hw. induction pre as [|c pre IH].
  - rewrite exec_eq. simpl. now rewrite (match_here_first _ _ _ _ Hw).
  - rewrite exec_eq.
    rewrite (Hpre [] (c :: pre)); [|reflexivity|discriminate].
    apply IH. intros p1 p2 E Hne. apply (Hpre (c :: p1) p2); [|exact Hne].
    now rewrite E.
Qed.

End MatcherFacts.

(** ** The timestamp pattern *)

Ltac invert_matches :=
  repeat match goal with
         | H : matches _ (RSeq _ _) _ _ _ |- _ => inversion H; subst; clear H
         | H : matches _ (RGroup _ _) _ _ _ |- _ => inversion H; subst; clear H
         | H : matches _ (RAtom _) _ _ _ |- _ => inversion H; subst; clear H
         | H : matches _ (RRep _ _ _) _ _ _ |- _ => inversion H; subst; clear H
         | H : matches _ REps _ _ _ |- _ => inversion H; subst; clear H
         end.

Lemma colon_match (c : N) : cls_match false (CChar 58) c = true -> c = 58%N.
Proof.
  unfold cls_match, char_eq. intros H. apply N.eqb_eq in H. now subst.
Qed.

Lemma sep_match (c : N) :
  cls_match false (COneOf [46; 44]%N) c = true <-> is_sep c.
Proof.
  unfold cls_match, existsb, char_eq, is_sep.
  rewrite !orb_true_iff, !N.eqb_eq.
  intuition (try discriminate; auto).
Qed.

Lemma timePattern_inv (w : jsstring) (cs0 cs : caps) :
  matches false timePattern w cs0 cs ->
  exists h m s sep f,
    stamp_shape h m s sep f /\ w = stamp_of h m s sep f
    /\ cs = stamp_caps h m s f ++ cs0.
Proof.
  intros H. cbv [timePattern rseq rrange rchar] in H.
  change (N_of_ascii ":") with 58%N in H.
  invert_matches.
  repeat match goal with
         | H : cls_match false (CChar 58) _ = true |- _ =>
             apply colon_match in H; subst
         | H : cls_match false (COneOf _) _ = true |- _ =>
             apply sep_match in H
         end.
  match goal with
  | |- exists h m s sep f, _ /\ (?a ++ [58%N] ++ ?b ++ [58%N] ++ ?c ++ [?d] ++ ?e = _) /\ _ =>
      exists a, b, c, d, e
  end.
  unfold stamp_shape, all_digits, within in *.
  repeat split; auto; lia.
Qed.

Lemma timePattern_first (h m s : jsstring) (sep : N) (f post : jsstring)
      (cs0 : caps) :
  stamp_shape h m s sep f -> frac_maximal f post ->
  first_path false timePattern (stamp_of h m s sep f) post cs0
    (stamp_caps h m s f ++ cs0).
Proof.
  intros (Hh & Lh & Hm & Lm & Hs & Ls & Hsep & Hf & Lf) Hmax.
  cbv [timePattern rseq rrange rchar].
  change (N_of_ascii ":") with 58%N.
  unfold stamp_of, stamp_caps.
  change (h ++ 58%N :: m ++ 58%N :: s ++ sep :: f)
    with (h ++ [58%N] ++ m ++ [58%N] ++ s ++ [sep] ++ f).
  cbn [app].
  change (h ++ 58%N :: m ++ 58%N :: s ++ sep :: f)
    with (h ++ [58%N] ++ m ++ [58%N] ++ s ++ [sep] ++ f).
  repeat first
         [ eapply F_seq | eapply F_group
         | apply F_atom; first [reflexivity | now apply sep_match]
         | apply F_rep; unfold within, stops; auto; try lia ].
  - right. reflexivity.
  - destruct Hmax as [E | Hmax]; [left; now rewrite E | now right].
Qed.

Lemma match_here_stamp_prefix (t rest : jsstring) (cs : caps) :
  match_here false timePattern t = Some (rest, cs) -> stamp_prefix t.
Proof.
  intros H. apply match_here_sound in H. destruct H as (w & -> & M).
  apply timePattern_inv in M.
  destruct M as (h & m & s & sep & f & Hshape & -> & _).
  now exists h, m, s, sep, f, rest.
Qed.

(** A fraction can be extended to one that takes all the digits it can. *)
Lemma frac_extend (n : nat) :
  forall f rest : jsstring,
    all_digits f -> 1 <= length f <= 3 -> 3 - length f <= n ->
    exists f' rest',
      f ++ rest = f' ++ rest' /\ all_digits f' /\ 1 <= length f' <= 3
      /\ frac_maximal f' rest'.
Proof.
  induction n as [|n IH]; intros f rest Hf Lf Hn.
  - exists f, rest. repeat split; auto; try lia. left. lia.
  - destruct (Nat.eq_dec (length f) 3) as [E|E].
    { exists f, rest. repeat split; auto; try lia. now left. }
    destruct rest as [|c rest].
    { exists f, []. repeat split; auto; try lia. now right. }
    destruct (is_digit c) eqn:Hc.
    + destruct (IH (f ++ [c]) rest) as (f' & rest' & E' & H').
      * apply Forall_app. split; [exact Hf | now constructor].
      * rewrite length_app. cbn [length]. lia.
      * rewrite length_app. cbn [length]. lia.
      * exists f', rest'. rewrite <- E', <- app_assoc. now split.
    + exists f, (c :: rest). repeat split; auto; try lia. now right.
Qed.

Lemma stamp_prefix_match_here (t : jsstring) :
  stamp_prefix t -> match_here false timePattern t <> None.
Proof.
  intros (h & m & s & sep & f & rest & Hshape & ->).
  destruct Hshape as (Hh & Lh & Hm & Lm & Hs & Ls & Hsep & Hf & Lf).
  destruct (frac_extend 3 f rest Hf Lf) as (f' & rest' & E & Hf' & Lf' & Hmax);
    [lia|].
  assert (E' : stamp_of h m s sep f ++ rest = stamp_of h m s sep f' ++ rest').
  { unfold stamp_of. rewrite <- !app_assoc. simpl. rewrite <- !app_assoc.
    simpl. rewrite <- !app_assoc. simpl. now rewrite E. }
  rewrite E'.
  rewrite (match_here_first false timePattern _ rest' (stamp_caps h m s f' ++ [])).
  - discriminate.
  - apply timePattern_first; [|assumption]. unfold stamp_shape. tauto.
Qed.

Lemma exec_timePattern_leftmost (pre h m s : jsstring) (sep : N)
      (f post : jsstring) :
  stamp_shape h m s sep f -> frac_maximal f post ->
  none_before pre (stamp_of h m s sep f ++ post) ->
  exec false timePattern (pre ++ stamp_of h m s sep f ++ post)
  = Some (stamp_caps h m s f).
Proof.
  intros Hshape Hmax Hpre.
  apply exec_first.
  - intros p1 p2 E Hne.
    destruct (match_here false timePattern
                (p2 ++ stamp_of h m s sep f ++ post)) as [[rest cs]|] eqn:M;
      [|reflexivity].
    exfalso. apply (Hpre p1 p2 E Hne). eapply match_here_stamp_prefix; eauto.
  - apply (timePattern_first _ _ _ _ _ _ [] Hshape Hmax).
Qed.

Lemma exec_timePattern_none (t : jsstring) :
  ~ has_timestamp t -> exec false timePattern t = None.
Proof.
  intros H. destruct (exec false timePattern t) as [cs|] eqn:E; [|reflexivity].
  exfalso. apply H. apply exec_sound in E.
  destruct E as (pre & w & rest & -> & M). apply timePattern_inv in M.
  destruct M as (h & m & s & sep & f & Hshape & -> & _).
  exists pre, (stamp_of h m s sep f ++ rest). split; [reflexivity|].
  now exists h, m, s, sep, f, rest.
Qed.

(** ** White space and commas around a timestamp *)

Lemma digit_not_ws (c : N) : is_digit c = true -> is_ws c = false.
Proof.
  unfold is_digit, is_ws. intros H.
  apply andb_true_iff in H. destruct H as [H1 H2].
  apply N.leb_le in H1, H2.
  repeat (apply orb_false_iff; split);
    try (apply N.eqb_neq; lia);
    apply andb_false_iff; first [left; apply N.leb_gt; lia
                                | right; apply N.leb_gt; lia].
Qed.

Lemma trimStart_app (a : jsstring) (d : N) (b : jsstring) :
  is_ws d = false -> trimStart (a ++ d :: b) = trimStart a ++ d :: b.
Proof.
  intros Hd. induction a as [|c a IH]; simpl.
  - now rewrite Hd.
  - destruct (is_ws c); [exact IH | reflexivity].
Qed.

Lemma trimStart_suffix (s : jsstring) : exists w, s = w ++ trimStart s.
Proof.
  induction s as [|c s (w & IH)]; simpl.
  - now exists [].
  - destruct (is_ws c).
    + exists (c :: w). simpl. now rewrite <- IH.
    + now exists [].
Qed.

Lemma trimEnd_app (a : jsstring) (d : N) (b : jsstring) :
  is_ws d = false -> trimEnd (a ++ d :: b) = a ++ d :: trimEnd b.
Proof.
  intros Hd. unfold trimEnd.
  rewrite rev_app_distr. simpl. rewrite <- app_assoc. simpl.
  rewrite trimStart_app by exact Hd. rewrite rev_app_distr. simpl.
  rewrite rev_involutive, <- app_assoc. reflexivity.
Qed.

Lemma trimEnd_prefix (s : jsstring) : exists w, s = trimEnd s ++ w.
Proof.
  unfold trimEnd. destruct (trimStart_suffix (rev s)) as (w & E).
  exists (rev w). rewrite <- rev_app_distr, <- E. now rewrite rev_involutive.
Qed.

Lemma trim_substring (s : jsstring) : exists a b, s = a ++ trim s ++ b.
Proof.
  unfold trim. destruct (trimStart_suffix s) as (a & Ea).
  destruct (trimEnd_prefix (trimStart s)) as (b & Eb).
  exists a, b. now rewrite <- Eb.
Qed.

(** The head of [trimEnd s] is the head of [s]. *)
Lemma trimEnd_head (s : jsstring) :
  trimEnd s = [] \/ exists c r r', s = c :: r /\ trimEnd s = c :: r'.
Proof.
  destruct (trimEnd_prefix s) as (w & E).
  destruct (trimEnd s) as [|c r'] eqn:T; [now left|].
  right. exists c, (r' ++ w), r'. now split.
Qed.

Lemma dot_digit (c : N) : is_digit (dot c) = is_digit c.
Proof.
  unfold dot. destruct (c =? 44)%N eqn:E; [|reflexivity].
  apply N.eqb_eq in E. now subst.
Qed.

Lemma dot_eq_digit (x d : N) : is_digit d = true -> dot x = dot d -> x = d.
Proof.
  intros Hd E. unfold dot in E.
  destruct (d =? 44)%N eqn:Ed.
  { apply N.eqb_eq in Ed. subst d. discriminate. }
  destruct (x =? 44)%N eqn:Ex; [|exact E].
  subst d. discriminate.
Qed.

Lemma dot_eq_digits (x d : jsstring) :
  all_digits d -> map dot x = map dot d -> x = d.
Proof.
  intros Hd. revert x. induction Hd as [|c d Hc _ IH]; intros x E.
  - now apply map_eq_nil in E.
  - destruct x as [|a x]; [discriminate|]. simpl in E.
    injection E as E1 E2. f_equal; [now apply dot_eq_digit | now apply IH].
Qed.

Lemma dot_eq_colon (x : N) : dot x = dot 58 -> x = 58%N.
Proof.
  unfold dot. simpl. destruct (x =? 44)%N; [discriminate | auto].
Qed.

Lemma dot_eq_sep (x sep : N) : is_sep sep -> dot x = dot sep -> is_sep x.
Proof.
  unfold is_sep, dot. intros [-> | ->]; simpl;
    destruct (x =? 44)%N eqn:E; intros H; auto;
    apply N.eqb_eq in E; auto.
Qed.

Lemma replace_first_comma (s : jsstring) :
  map dot (replace_first (str ",") (str ".") s) = map dot s.
Proof.
  induction s as [|c s IH]; [reflexivity|].
  change (str ",") with [44%N] in *. change (str ".") with [46%N] in *.
  cbn [replace_first starts_with].
  destruct (44 =? c)%N eqn:E.
  - apply N.eqb_eq in E. subst c. reflexivity.
  - cbn [andb map]. now rewrite IH.
Qed.

Lemma stamp_dot (h m s : jsstring) (sep : N) (f x : jsstring) :
  stamp_shape h m s sep f -> map dot x = map dot (stamp_of h m s sep f) ->
  exists sep', is_sep sep' /\ x = stamp_of h m s sep' f.
Proof.
  intros (Hh & _ & Hm & _ & Hs & _ & Hsep & Hf & _) E.
  unfold stamp_of in E. rewrite map_app in E. cbn [map] in E.
  apply map_eq_app in E. destruct E as (h' & x1 & -> & Eh & E).
  apply map_eq_cons in E. destruct E as (c1 & x2 & -> & Ec1 & E).
  rewrite map_app in E. cbn [map] in E.
  apply map_eq_app in E. destruct E as (m' & x3 & -> & Em & E).
  apply map_eq_cons in E. destruct E as (c2 & x4 & -> & Ec2 & E).
  rewrite map_app in E. cbn [map] in E.
  apply map_eq_app in E. destruct E as (s' & x5 & -> & Es & E).
  apply map_eq_cons in E. destruct E as (sep' & f' & -> & Esep & Ef).
  apply dot_eq_digits in Eh, Em, Es, Ef; auto. subst.
  apply dot_eq_colon in Ec1, Ec2. subst.
  exists sep'. split; [|reflexivity]. eapply dot_eq_sep; eauto.
Qed.

Lemma stamp_shape_sep (h m s : jsstring) (sep sep' : N) (f : jsstring) :
  stamp_shape h m s sep f -> is_sep sep' -> stamp_shape h m s sep' f.
Proof. unfold stamp_shape. tauto. Qed.

Lemma stamp_prefix_dot (x y : jsstring) :
  stamp_prefix x -> map dot y = map dot x -> stamp_prefix y.
Proof.
  intros (h & m & s & sep & f & rest & Hshape & ->) E.
  rewrite map_app in E. apply map_eq_app in E.
  destruct E as (y1 & rest' & -> & E1 & _).
  destruct (stamp_dot h m s sep f y1 Hshape E1) as (sep' & Hsep' & ->).
  exists h, m, s, sep', f, rest'. split; [|reflexivity].
  eapply stamp_shape_sep; eauto.
Qed.

Lemma has_timestamp_dot (x y : jsstring) :
  has_timestamp x -> map dot y = map dot x -> has_timestamp y.
Proof.
  intros (pre & rest & -> & Hp) E.
  rewrite map_app in E. apply map_eq_app in E.
  destruct E as (pre' & rest' & -> & _ & E2).
  exists pre', rest'. split; [reflexivity|]. eapply stamp_prefix_dot; eauto.
Qed.

Lemma stamp_prefix_app (x y : jsstring) :
  stamp_prefix x -> stamp_prefix (x ++ y).
Proof.
  intros (h & m & s & sep & f & rest & Hshape & ->).
  exists h, m, s, sep, f, (rest ++ y). split; [exact Hshape|].
  now rewrite app_assoc.
Qed.

Lemma has_timestamp_substring (a x b : jsstring) :
  has_timestamp x -> has_timestamp (a ++ x ++ b).
Proof.
  intros (pre & rest & -> & Hp).
  exists (a ++ pre), (rest ++ b). split.
  - now rewrite <- !app_assoc.
  - now apply stamp_prefix_app.
Qed.

(** ** parseSRTTime *)

(** When the pattern of a timestamp occurs nowhere in the input, the
    sentinel is returned. *)
Lemma parseSRTTime_no_pattern (timeStr : jsstring) :
  ~ has_timestamp timeStr -> parseSRTTime timeStr = sentinel.
Proof.
  intros H. unfold parseSRTTime, parseSRTTime_try.
  rewrite exec_timePattern_none; [reflexivity|].
  intros Hu. apply H.
  apply has_timestamp_dot
    with (y := trim timeStr) in Hu; [|symmetry; apply replace_first_comma].
  destruct (trim_substring timeStr) as (a & b & E). rewrite E.
  now apply has_timestamp_substring.
Qed.


Lemma stamp_of_head (h m s : jsstring) (sep : N) (f : jsstring) :
  stamp_shape h m s sep f ->
  exists d x a e,
    stamp_of h m s sep f = d :: x /\ is_ws d = false
    /\ stamp_of h m s sep f = a ++ [e] /\ is_ws e = false.
Proof.
  intros (Hh & Lh & _ & _ & _ & _ & _ & Hf & Lf).
  destruct h as [|d h]; [simpl in Lh; lia|].
  destruct (exists_last (l := f)) as (f0 & e & ->).
  { intros ->. simpl in Lf. lia. }
  exists d, (h ++ 58%N :: m ++ 58%N :: s ++ sep :: f0 ++ [e]),
    ((d :: h) ++ 58%N :: m ++ 58%N :: s ++ sep :: f0), e.
  inversion Hh; subst. apply Forall_app in Hf. destruct Hf as [_ He].
  inversion He; subst.
  repeat split; auto using digit_not_ws.
  unfold stamp_of. rewrite <- !app_assoc. simpl. rewrite <- !app_assoc.
  simpl. rewrite <- !app_assoc. reflexivity.
Qed.

Lemma trim_around_stamp (pre h m s : jsstring) (sep : N) (f post : jsstring) :
  stamp_shape h m s sep f ->
  trim (pre ++ stamp_of h m s sep f ++ post)
  = trimStart pre ++ stamp_of h m s sep f ++ trimEnd post.
Proof.
  intros Hshape.
  destruct (stamp_of_head _ _ _ _ _ Hshape) as (d & x & a & e & E1 & Hd & E2 & He).
  unfold trim.
  assert (T1 : trimStart (pre ++ stamp_of h m s sep f ++ post)
               = trimStart pre ++ stamp_of h m s sep f ++ post).
  { rewrite E1. simpl. now apply trimStart_app. }
  rewrite T1, E2.
  replace (trimStart pre ++ (a ++ [e]) ++ post)
    with ((trimStart pre ++ a) ++ e :: post)
    by (rewrite <- !app_assoc; reflexivity).
  rewrite trimEnd_app by exact He.
  rewrite <- !app_assoc. reflexivity.
Qed.

Lemma none_before_trim (pre st post : jsstring) :
  none_before pre (st ++ post) ->
  none_before (trimStart pre) (st ++ trimEnd post).
Proof.
  intros H p1 p2 E Hne Hp.
  destruct (trimStart_suffix pre) as (w & Ew).
  destruct (trimEnd_prefix post) as (w' & Ew').
  apply (H (w ++ p1) p2); [|exact Hne|].
  - rewrite <- app_assoc, <- E. exact Ew.
  - rewrite Ew'. apply stamp_prefix_app with (y := w') in Hp.
    now rewrite <- !app_assoc in Hp.
Qed.

Lemma none_before_dot (a b a' b' : jsstring) :
  none_before a b -> map dot a' = map dot a -> map dot b' = map dot b ->
  none_before a' b'.
Proof.
  intros H Ea Eb p1' p2' E Hne Hp. subst a'.
  rewrite map_app in Ea. symmetry in Ea. apply map_eq_app in Ea.
  destruct Ea as (p1 & p2 & -> & E1 & E2).
  apply (H p1 p2); [reflexivity| |].
  - intros ->. destruct p2'; [contradiction | discriminate].
  - apply stamp_prefix_dot with (x := p2' ++ b'); [exact Hp|].
    now rewrite !map_app, E2, Eb.
Qed.

Lemma frac_maximal_trim_dot (f post post' : jsstring) :
  frac_maximal f post -> map dot post' = map dot (trimEnd post) ->
  frac_maximal f post'.
Proof.
  intros [H | H] E; [now left|]. right.
  destruct (trimEnd_head post) as [T | (c & r & r' & Ep & T)]; rewrite T in E.
  - apply map_eq_nil in E. now subst.
  - subst post. destruct post' as [|c' post']; [exact I|].
    simpl in E. injection E as E _.
    now rewrite <- dot_digit, E, dot_digit.
Qed.

(** The timestamp found first decides the result, whatever surrounds it. *)
Lemma parseSRTTime_leftmost (pre h m s : jsstring) (sep : N)
      (f post : jsstring) :
  stamp_shape h m s sep f -> frac_maximal f post ->
  none_before pre (stamp_of h m s sep f ++ post) ->
  parseSRTTime (pre ++ stamp_of h m s sep f ++ post) = stamp_value h m s f.
Proof.
  intros Hshape Hmax Hpre. unfold parseSRTTime, parseSRTTime_try.
  rewrite (trim_around_stamp pre _ _ _ _ _ post Hshape).
  pose proof (replace_first_comma
                (trimStart pre ++ stamp_of h m s sep f ++ trimEnd post)) as E.
  rewrite !map_app in E. apply map_eq_app in E.
  destruct E as (pre' & u1 & -> & Epre & E). apply map_eq_app in E.
  destruct E as (st' & post' & -> & Est & Epost).
  destruct (stamp_dot h m s sep f st' Hshape Est) as (sep' & Hsep' & ->).
  rewrite exec_timePattern_leftmost.
  - unfold stamp_value, stamp_caps. cbn [cap Nat.eqb].
    destruct (jsint_ge (parseInt m) 60 || jsint_ge (parseInt s) 60
              || jsint_ge (parseInt (firstn 3 (padEnd0 3 f))) 1000);
      reflexivity.
  - eapply stamp_shape_sep; eauto.
  - eapply frac_maximal_trim_dot; eauto.
  - apply none_before_dot
      with (a := trimStart pre) (b := stamp_of h m s sep f ++ trimEnd post).
    + now apply none_before_trim.
    + exact Epre.
    + now rewrite !map_app, Est, Epost.
Qed.

(** ** Numbers as text *)

Lemma N_below_check (P : N -> bool) (n : N) :
  forallb P (N_below n) = true ->
  forall x, (x < n)%N -> P x = true.
Proof.
  intros H x Hx. rewrite forallb_forall in H. apply H.
  unfold N_below. apply in_map_iff. exists (N.to_nat x).
  split; [apply N2Nat.id|]. apply in_seq. lia.
Qed.

Lemma jsint_eqb_eq (a b : jsint) : jsint_eqb a b = true -> a = b.
Proof.
  destruct a, b; simpl; intros H; try discriminate; auto.
  apply Z.eqb_eq in H. now subst.
Qed.

Lemma all_digits_forallb (t : jsstring) :
  forallb is_digit t = true -> all_digits t.
Proof.
  intros H. apply Forall_forall. intros c Hc.
  rewrite forallb_forall in H. now apply H.
Qed.

Lemma pad2_spec (n : N) :
  (n < 100)%N ->
  all_digits (pad2 n) /\ length (pad2 n) = 2
  /\ parseInt (pad2 n) = Some (Z.of_N n).
Proof.
  intros H.
  assert (C : forallb pad2_ok (N_below 100) = true)
    by (vm_compute; reflexivity).
  pose proof (N_below_check _ _ C n H) as K. unfold pad2_ok in K.
  rewrite !andb_true_iff in K. destruct K as [[K1 K2] K3].
  repeat split.
  - now apply all_digits_forallb.
  - now apply Nat.eqb_eq.
  - now apply jsint_eqb_eq.
Qed.

Lemma pad3_spec (n : N) :
  (n < 1000)%N ->
  all_digits (pad3 n) /\ length (pad3 n) = 3
  /\ parseInt (firstn 3 (padEnd0 3 (pad3 n))) = Some (Z.of_N n).
Proof.
  intros H.
  assert (C : forallb pad3_ok (N_below 1000) = true)
    by (vm_compute; reflexivity).
  pose proof (N_below_check _ _ C n H) as K. unfold pad3_ok in K.
  rewrite !andb_true_iff in K. destruct K as [[K1 K2] K3].
  repeat split.
  - now apply all_digits_forallb.
  - now apply Nat.eqb_eq.
  - now apply jsint_eqb_eq.
Qed.

Lemma hours_spec (n : N) :
  (n < 100)%N ->
  all_digits (N_toString n) /\ 1 <= length (N_toString n) <= 2
  /\ parseInt (N_toString n) = Some (Z.of_N n).
Proof.
  intros H.
  assert (C : forallb hours_ok (N_below 100) = true)
    by (vm_compute; reflexivity).
  pose proof (N_below_check _ _ C n H) as K. unfold hours_ok in K.
  rewrite !andb_true_iff in K. destruct K as [[[K1 K2] K3] K4].
  repeat split.
  - now apply all_digits_forallb.
  - now apply Nat.leb_le.
  - now apply Nat.leb_le.
  - now apply jsint_eqb_eq.
Qed.

Lemma Z_toString_of_N (n : N) : Z_toString (Z.of_N n) = N_toString n.
Proof.
  unfold Z_toString. destruct (Z.of_N n <? 0)%Z eqn:E.
  - apply Z.ltb_lt in E. lia.
  - now rewrite N2Z.id.
Qed.

Lemma none_before_nil (rest : jsstring) : none_before [] rest.
Proof.
  intros p1 p2 E Hne. symmetry in E. apply app_eq_nil in E.
  destruct E as [_ ->]. contradiction.
Qed.

(** The value of a timestamp whose fields are numbers in range. *)
Lemma stamp_value_numbers (h m s ms : N) (ht : jsstring) :
  (m < 60)%N -> (s < 60)%N -> (ms < 1000)%N ->
  parseInt ht = Some (Z.of_N h) ->
  stamp_value ht (pad2 m) (pad2 s) (pad3 ms)
  = N_toString h ++ str ":" ++ pad2 m ++ str ":" ++ pad2 s ++ str "."
    ++ pad2 (ms / 10).
Proof.
  intros Hm Hs Hms Hh.
  destruct (pad2_spec m) as (_ & _ & Pm); [lia|].
  destruct (pad2_spec s) as (_ & _ & Ps); [lia|].
  destruct (pad3_spec ms) as (_ & _ & Pms); [lia|].
  unfold stamp_value. rewrite Hh, Pm, Ps, Pms.
  unfold jsint_ge.
  replace (60 <=? Z.of_N m)%Z with false by (symmetry; apply Z.leb_gt; lia).
  replace (60 <=? Z.of_N s)%Z with false by (symmetry; apply Z.leb_gt; lia).
  replace (1000 <=? Z.of_N ms)%Z with false
    by (symmetry; apply Z.leb_gt; lia).
  cbn [orb jsint_toString jsint_floor_div option_map].
  change 10%Z with (Z.of_N 10). rewrite <- N2Z.inj_div.
  rewrite !Z_toString_of_N. reflexivity.
Qed.

(** C5: a timestamp [H:MM:SS,mmm] with hours on one or two digits, minutes
    and seconds below 60 and [mmm] from 000 to 999 is turned into
    [H:MM:SS.cc] with [cc] the quotient of [mmm] by 10, hours without a
    leading zero. *)
Theorem parseSRTTime_round_trip (h m s ms : N) (ht : jsstring) :
  (h < 100)%N -> (m < 60)%N -> (s < 60)%N -> (ms < 1000)%N ->
  ht = N_toString h \/ ht = pad2 h ->
  parseSRTTime
    (ht ++ str ":" ++ pad2 m ++ str ":" ++ pad2 s ++ str "," ++ pad3 ms)
  = N_toString h ++ str ":" ++ pad2 m ++ str ":" ++ pad2 s ++ str "."
    ++ pad2 (ms / 10).
Proof.
  intros Hh Hm Hs Hms Hht.
  destruct (pad2_spec m) as (Dm & Lm & _); [lia|].
  destruct (pad2_spec s) as (Ds & Ls & _); [lia|].
  destruct (pad3_spec ms) as (Dms & Lms & _); [lia|].
  assert (Ht : all_digits ht /\ 1 <= length ht <= 2
               /\ parseInt ht = Some (Z.of_N h)).
  { destruct Hht as [-> | ->].
    - now apply hours_spec.
    - destruct (pad2_spec h) as (A & B & C); [lia|].
      repeat split; auto; rewrite B; lia. }
  destruct Ht as (Dh & Lh & Ph).
  pose proof (parseSRTTime_leftmost [] ht (pad2 m) (pad2 s) 44%N (pad3 ms) [])
    as P.
  unfold stamp_of in P. rewrite app_nil_r in P. cbn [app] in P.
  change (str ":") with [58%N]. change (str ",") with [44%N]. cbn [app].
  rewrite P.
  - now apply stamp_value_numbers.
  - unfold stamp_shape, is_sep. repeat split; auto; lia.
  - now left.
  - apply none_before_nil.
Qed.

Lemma parseSRTTime_round_trip_witness :
  parseSRTTime (str "00:01:23,456") = str "0:01:23.45".
Proof.
  apply (parseSRTTime_round_trip 0 1 23 456 (pad2 0));
    [reflexivity | reflexivity | reflexivity | reflexivity | now right].
Defined.

Lemma digit_range (c : N) : is_digit c = true <-> (48 <= c <= 57)%N.
Proof.
  unfold is_digit. rewrite andb_true_iff, !N.leb_le. tauto.
Qed.

Lemma digit_val_digit (c : N) :
  is_digit c = true -> digit_val c = Some (Z.of_N (c - 48)).
Proof. intros H. unfold digit_val. now rewrite H. Qed.

Lemma read_digits_value (d : jsstring) :
  all_digits d ->
  forall a : N,
    read_digits 10 (Some (Z.of_N a)) d
    = Some (Z.of_N (fold_left (fun a c => a * 10 + (c - 48))%N d a)).
Proof.
  induction 1 as [|c d Hc _ IH]; intros a; [reflexivity|].
  cbn [read_digits fold_left]. rewrite (digit_val_digit c Hc).
  apply digit_range in Hc.
  replace (Z.of_N (c - 48) <? 10)%Z with true
    by (symmetry; apply Z.ltb_lt; lia).
  rewrite <- IH. do 2 f_equal. lia.
Qed.

Lemma parseInt_digits (d : jsstring) :
  all_digits d -> d <> [] -> parseInt d = Some (Z.of_N (digits_value d)).
Proof.
  intros Hd Hne. destruct d as [|c d]; [contradiction|].
  inversion Hd as [|? ? Hc Hd']; subst.
  assert (R : read_digits 10 None (c :: d)
              = Some (Z.of_N (digits_value (c :: d)))).
  { cbn [read_digits]. rewrite (digit_val_digit c Hc).
    pose proof (proj1 (digit_range c) Hc) as Rc.
    replace (Z.of_N (c - 48) <? 10)%Z with true
      by (symmetry; apply Z.ltb_lt; lia).
    rewrite (read_digits_value d Hd'). unfold digits_value.
    cbn [fold_left]. reflexivity. }
  unfold parseInt. cbn [trimStart]. rewrite (digit_not_ws c Hc).
  pose proof (proj1 (digit_range c) Hc) as Rc.
  replace (c =? 45)%N with false by (symmetry; apply N.eqb_neq; lia).
  replace (c =? 43)%N with false by (symmetry; apply N.eqb_neq; lia).
  destruct d as [|b d].
  - rewrite R. reflexivity.
  - inversion Hd' as [|? ? Hb _]; subst.
    pose proof (proj1 (digit_range b) Hb) as Rb.
    replace (b =? 120)%N with false by (symmetry; apply N.eqb_neq; lia).
    replace (b =? 88)%N with false by (symmetry; apply N.eqb_neq; lia).
    rewrite andb_false_r. rewrite R. reflexivity.
Qed.

Lemma padEnd0_fraction (f : jsstring) :
  all_digits f -> 1 <= length f <= 3 ->
  firstn 3 (padEnd0 3 f) = padEnd0 3 f
  /\ all_digits (padEnd0 3 f) /\ length (padEnd0 3 f) = 3.
Proof.
  intros Hf Lf.
  assert (L : length (padEnd0 3 f) = 3).
  { unfold padEnd0. rewrite length_app, repeat_length. lia. }
  repeat split; auto.
  - apply firstn_all2. lia.
  - unfold padEnd0. apply Forall_app. split; [exact Hf|].
    apply Forall_forall. intros c Hc. apply repeat_spec in Hc. now subst.
Qed.

Lemma digits_value_three (d : jsstring) :
  all_digits d -> length d = 3 -> (digits_value d < 1000)%N.
Proof.
  intros Hd L.
  destruct d as [|a [|b [|c [|x d]]]]; try discriminate.
  inversion Hd as [|? ? Ha Hd1]; subst.
  inversion Hd1 as [|? ? Hb Hd2]; subst.
  inversion Hd2 as [|? ? Hc _]; subst.
  apply digit_range in Ha, Hb, Hc.
  unfold digits_value. cbn [fold_left]. lia.
Qed.

(** C10, as stated, fails: the first match of the pattern is taken even
    when its minutes or seconds are out of range, and a valid timestamp
    further on is not looked for. *)
Lemma parseSRTTime_valid_timestamp_missed :
  (exists pre post,
      str "00:99:00,000 00:01:02,345" = pre ++ str "00:01:02,345" ++ post)
  /\ parseSRTTime (str "00:01:02,345") = str "0:01:02.34"
  /\ parseSRTTime (str "00:99:00,000 00:01:02,345") = str "0:00:00.00"
  /\ str "0:00:00.00" <> str "0:01:02.34".
Proof.
  repeat split.
  - exists (str "00:99:00,000 "), []. reflexivity.
  - discriminate.
Qed.

(** C10 (amended): when the leftmost substring of the form one or two
    digits, colon, two digits, colon, two digits, comma or period, one to
    three digits (as many as there are) has minutes and seconds below 60,
    [parseSRTTime] returns its value [H:MM:SS.cc], whatever text stands
    before and after it. *)
Theorem parseSRTTime_unanchored (pre h m s : jsstring) (sep : N)
        (f post : jsstring) :
  stamp_shape h m s sep f -> frac_maximal f post ->
  none_before pre (stamp_of h m s sep f ++ post) ->
  (digits_value m < 60)%N -> (digits_value s < 60)%N ->
  parseSRTTime (pre ++ stamp_of h m s sep f ++ post)
  = N_toString (digits_value h) ++ str ":" ++ pad2 (digits_value m)
    ++ str ":" ++ pad2 (digits_value s) ++ str "."
    ++ pad2 (digits_value (padEnd0 3 f) / 10).
Proof.
  intros Hshape Hmax Hpre Hm Hs.
  rewrite (parseSRTTime_leftmost pre h m s sep f post Hshape Hmax Hpre).
  destruct Hshape as (Dh & Lh & Dm & Lm & Ds & Ls & _ & Df & Lf).
  destruct (padEnd0_fraction f Df Lf) as (E & Dp & Lp).
  pose proof (digits_value_three _ Dp Lp) as B.
  unfold stamp_value. rewrite E.
  assert (nonempty : forall d : jsstring, 1 <= length d -> d <> [])
    by (intros d L ->; simpl in L; lia).
  rewrite (parseInt_digits h Dh), (parseInt_digits m Dm),
    (parseInt_digits s Ds), (parseInt_digits _ Dp);
    try (apply nonempty; lia).
  unfold jsint_ge.
  replace (60 <=? Z.of_N (digits_value m))%Z with false
    by (symmetry; apply Z.leb_gt; lia).
  replace (60 <=? Z.of_N (digits_value s))%Z with false
    by (symmetry; apply Z.leb_gt; lia).
  replace (1000 <=? Z.of_N (digits_value (padEnd0 3 f)))%Z with false
    by (symmetry; apply Z.leb_gt; lia).
  cbn [orb jsint_toString jsint_floor_div option_map].
  change 10%Z with (Z.of_N 10). rewrite <- N2Z.inj_div.
  rewrite !Z_toString_of_N. reflexivity.
Qed.

Lemma none_beforeb_sound (pre rest : jsstring) :
  none_beforeb pre rest = true -> none_before pre rest.
Proof.
  induction pre as [|c pre IH]; intros H; [apply none_before_nil|].
  cbn [none_beforeb] in H.
  destruct (match_here false timePattern ((c :: pre) ++ rest)) eqn:M;
    [discriminate|].
  intros p1 p2 E Hne Hp. destruct p1 as [|c1 p1].
  - simpl in E. subst p2. now apply stamp_prefix_match_here in Hp.
  - injection E as _ E. exact (IH H p1 p2 E Hne Hp).
Qed.

Lemma parseSRTTime_unanchored_witness :
  parseSRTTime (str "at 0:01:02.5 ok") = str "0:01:02.50".
Proof.
  apply (parseSRTTime_unanchored (str "at ") (str "0") (str "01") (str "02")
           46%N (str "5") (str " ok")).
  - unfold stamp_shape, all_digits, is_sep.
    repeat split; simpl; auto; repeat constructor.
  - right. reflexivity.
  - apply none_beforeb_sound. vm_compute. reflexivity.
  - reflexivity.
  - reflexivity.
Defined.






(** A timestamp with minutes out of range is answered with the sentinel
    too. *)
Lemma parseSRTTime_out_of_range :
  parseSRTTime (str "00:61:00,000") = sentinel.
Proof. vm_compute. reflexivity. Qed.

(** ** Splitting at one character *)

Lemma split_str_f_char (c : N) (fuel : nat) (s : jsstring) :
  length s < fuel -> split_str_f fuel [c] s = split_char c s.
Proof.
  revert s. induction fuel as [|f IH]; intros s L; [lia|].
  destruct s as [|x s]; [reflexivity|].
  cbn [split_str_f split_char starts_with length skipn].
  rewrite andb_true_r.
  simpl in L. rewrite !IH by lia. reflexivity.
Qed.

Lemma split_str_char (c : N) (s : jsstring) :
  split_str [c] s = split_char c s.
Proof. unfold split_str. apply split_str_f_char. lia. Qed.

Lemma split_char_app (c : N) (a b : jsstring) :
  ~ In c a -> split_char c (a ++ c :: b) = a :: split_char c b.
Proof.
  induction a as [|x a IH]; intros H; simpl.
  - now rewrite N.eqb_refl.
  - destruct (c =? x)%N eqn:E.
    + apply N.eqb_eq in E. subst. exfalso. apply H. now left.
    + rewrite IH; [reflexivity|]. intros K. apply H. now right.
Qed.

Lemma split_char_none (c : N) (a : jsstring) :
  ~ In c a -> split_char c a = [a].
Proof.
  induction a as [|x a IH]; intros H; simpl; [reflexivity|].
  destruct (c =? x)%N eqn:E.
  - apply N.eqb_eq in E. subst. exfalso. apply H. now left.
  - rewrite IH; [reflexivity|]. intros K. apply H. now right.
Qed.

Lemma all_digits_not_in (c : N) (d : jsstring) :
  all_digits d -> is_digit c = false -> ~ In c d.
Proof.
  intros Hd Hc K. unfold all_digits in Hd. rewrite Forall_forall in Hd.
  apply Hd in K. congruence.
Qed.

(** ** Seconds *)

Lemma jsnum_eqb_eq (a b : jsnum) : jsnum_eqb a b = true -> a = b.
Proof.
  destruct a as [[n1 d1]|], b as [[n2 d2]|]; simpl; intros H;
    try discriminate; auto.
  unfold Q_eqb in H. simpl in H. apply andb_true_iff in H.
  destruct H as [H1 H2]. apply Z.eqb_eq in H1. apply Pos.eqb_eq in H2.
  now subst.
Qed.

Lemma string_eqb_eq (a b : jsstring) : string_eqb a b = true -> a = b.
Proof.
  revert b. induction a as [|x a IH]; intros [|y b] H; simpl in H;
    try discriminate; auto.
  apply andb_true_iff in H. destruct H as [H1 H2].
  apply N.eqb_eq in H1. subst. f_equal. now apply IH.
Qed.

Lemma parseFloat_seconds (s c : N) :
  (s < 60)%N -> (c < 100)%N ->
  parseFloat (pad2 s ++ str "." ++ pad2 c)
  = Some (Z.of_N (s * 100 + c) # 100)%Q.
Proof.
  intros Hs Hc.
  assert (C : forallb seconds_ok (N_below 6000) = true)
    by (vm_compute; reflexivity).
  assert (K : (s * 100 + c < 6000)%N) by lia.
  pose proof (N_below_check _ _ C _ K) as E. unfold seconds_ok in E.
  replace ((s * 100 + c) / 100)%N with s in E
    by (apply N.div_unique with c; lia).
  replace ((s * 100 + c) mod 100)%N with c in E
    by (apply N.mod_unique with s; lia).
  now apply jsnum_eqb_eq.
Qed.

Lemma toFixed2_seconds (r : N) :
  (r < 6000)%N ->
  padStart0 5 (toFixed2 (Z.of_N r # 100)%Q)
  = pad2 (r / 100) ++ str "." ++ pad2 (r mod 100).
Proof.
  intros H.
  assert (C : forallb fixed_ok (N_below 6000) = true)
    by (vm_compute; reflexivity).
  apply string_eqb_eq. exact (N_below_check _ _ C r H).
Qed.

Lemma toFixed2_comp (x y : Q) : (x == y)%Q -> toFixed2 x = toFixed2 y.
Proof.
  intros H. unfold toFixed2.
  assert (L : Qle_bool 0 x = Qle_bool 0 y) by (rewrite H; reflexivity).
  rewrite L. destruct (Qle_bool 0 y); cbn [negb].
  - rewrite (Qfloor_comp (x * 100 + (1 # 2))%Q (y * 100 + (1 # 2))%Q);
      [reflexivity | now rewrite H].
  - rewrite (Qfloor_comp (- x * 100 + (1 # 2))%Q (- y * 100 + (1 # 2))%Q);
      [reflexivity | now rewrite H].
Qed.

(** The remainder of [z] hundredths by [p] units is [z mod (100 p)]
    hundredths. *)
Lemma Qrem_hundredths (x : Q) (z : Z) (p : positive) :
  (x == z # 100)%Q -> (0 <= z)%Z ->
  (Qrem x (Z.pos p # 1) == (z mod Z.pos (100 * p)) # 100)%Q.
Proof.
  intros Hx Hz. unfold Qrem, Qtrunc.
  assert (E : (x / (Z.pos p # 1) == z # (100 * p))%Q).
  { rewrite Hx. unfold Qeq, Qdiv, Qmult, Qinv. cbn [Qnum Qden]. lia. }
  assert (L : Qle_bool 0 (x / (Z.pos p # 1))%Q = true).
  { apply Qle_bool_iff. rewrite E. unfold Qle. cbn [Qnum Qden]. lia. }
  rewrite L, (Qfloor_comp _ _ E), Hx. cbn [Qfloor].
  unfold Qeq, Qminus, Qplus, Qopp, Qmult, inject_Z. cbn [Qnum Qden].
  rewrite (Z.mod_eq z (Z.pos (100 * p))) by lia.
  rewrite !Pos2Z.inj_mul. ring.
Qed.

Lemma formatSeconds_centis (x : Q) (t : N) :
  (x == Z.of_N t # 100)%Q -> formatSeconds x = stamp_of_centis t.
Proof.
  intros Hx. unfold formatSeconds, stamp_of_centis, stamp_text.
  assert (Ht : (0 <= Z.of_N t)%Z) by lia.
  pose proof (Qrem_hundredths x (Z.of_N t) 3600 Hx Ht) as R1.
  pose proof (Qrem_hundredths x (Z.of_N t) 60 Hx Ht) as R2.
  change (Z.pos 3600 # 1)%Q with 3600%Q in R1.
  change (Z.pos 60 # 1)%Q with 60%Q in R2.
  assert (H1 : Qfloor (x / 3600)%Q = Z.of_N (t / 360000)).
  { rewrite (Qfloor_comp _ (Z.of_N t # 360000)%Q).
    - cbn [Qfloor]. now rewrite N2Z.inj_div.
    - rewrite Hx. unfold Qeq, Qdiv, Qmult, Qinv. cbn [Qnum Qden]. lia. }
  assert (H2 : Qfloor (Qrem x 3600 / 60)%Q = Z.of_N (t / 6000 mod 60)).
  { rewrite (Qfloor_comp _ ((Z.of_N t mod 360000)%Z # 6000)%Q).
    - cbn [Qfloor]. rewrite N2Z.inj_mod, N2Z.inj_div.
      change (Z.of_N 6000) with 6000%Z. change (Z.of_N 60) with 60%Z.
      change (Z.pos (100 * 3600)) with 360000%Z.
      Z.div_mod_to_equations. lia.
    - rewrite R1. unfold Qeq, Qdiv, Qmult, Qinv. cbn [Qnum Qden].
      change (Z.pos (100 * 3600)) with 360000%Z. lia. }
  assert (H3 : padStart0 5 (toFixed2 (Qrem x 60%Q))
               = pad2 (t / 100 mod 60) ++ str "." ++ pad2 (t mod 100)).
  { rewrite (toFixed2_comp _ _ R2).
    change (Z.pos (100 * 60)) with (Z.of_N 6000). rewrite <- N2Z.inj_mod.
    rewrite toFixed2_seconds by (apply N.mod_lt; discriminate).
    f_equal; [|f_equal]; f_equal.
    - apply N2Z.inj. rewrite !N2Z.inj_div, !N2Z.inj_mod, N2Z.inj_div.
      change (Z.of_N 6000) with 6000%Z. change (Z.of_N 60) with 60%Z.
      change (Z.of_N 100) with 100%Z. Z.div_mod_to_equations. lia.
    - apply N2Z.inj. rewrite !N2Z.inj_mod.
      change (Z.of_N 6000) with 6000%Z. change (Z.of_N 100) with 100%Z.
      Z.div_mod_to_equations. lia. }
  rewrite H1, H2, H3, !Z_toString_of_N. reflexivity.
Qed.

Lemma toSeconds_stamp_text (h m s c : N) :
  (h < 100)%N -> (m < 60)%N -> (s < 60)%N -> (c < 100)%N ->
  exists q,
    toSeconds (stamp_text h m s c) = Some q
    /\ (q == Z.of_N (centis h m s c) # 100)%Q.
Proof.
  intros Hh Hm Hs Hc.
  destruct (hours_spec h Hh) as (Dh & _ & Ph).
  destruct (pad2_spec m) as (Dm & _ & Pm); [lia|].
  destruct (pad2_spec s) as (Ds & _ & _); [lia|].
  destruct (pad2_spec c) as (Dc & _ & _); [lia|].
  assert (colon : is_digit 58 = false) by reflexivity.
  unfold toSeconds, stamp_text.
  change (str ":") with [58%N]. rewrite split_str_char. cbn [app].
  rewrite split_char_app by (now apply all_digits_not_in).
  rewrite split_char_app by (now apply all_digits_not_in).
  rewrite split_char_none.
  2:{ rewrite !in_app_iff. intros [K | [K | K]].
      - now apply (all_digits_not_in 58 _ Ds).
      - simpl in K. destruct K as [K | []]. discriminate.
      - now apply (all_digits_not_in 58 _ Dc). }
  unfold parseInt_at, parseFloat_at, at_index. cbn [nth_error].
  rewrite Ph, Pm, (parseFloat_seconds s c Hs Hc).
  cbn [jsnum_of_int option_map jsnum_mul jsnum_add].
  eexists. split; [reflexivity|].
  unfold centis, Qeq, Qplus, Qmult, inject_Z. cbn [Qnum Qden]. lia.
Qed.

Lemma set_end_same (sub : SubtitleEntry) : set_end sub (end_ sub) = sub.
Proof. now destruct sub. Qed.

(** A record whose end is later than its start is left as it is. *)
Lemma validateOne_keeps (sub : SubtitleEntry) (h1 m1 s1 c1 h2 m2 s2 c2 : N) :
  (h1 < 100)%N -> (m1 < 60)%N -> (s1 < 60)%N -> (c1 < 100)%N ->
  (h2 < 100)%N -> (m2 < 60)%N -> (s2 < 60)%N -> (c2 < 100)%N ->
  start sub = stamp_text h1 m1 s1 c1 -> end_ sub = stamp_text h2 m2 s2 c2 ->
  (centis h1 m1 s1 c1 < centis h2 m2 s2 c2)%N ->
  validateOne sub = sub.
Proof.
  intros Hh1 Hm1 Hs1 Hc1 Hh2 Hm2 Hs2 Hc2 Es Ee Hlt.
  destruct (toSeconds_stamp_text h1 m1 s1 c1) as (q1 & T1 & E1); auto.
  destruct (toSeconds_stamp_text h2 m2 s2 c2) as (q2 & T2 & E2); auto.
  unfold validateOne. rewrite Es, Ee, T1, T2. cbn [jsnum_le].
  destruct (Qle_bool q2 q1) eqn:L; [|reflexivity].
  apply Qle_bool_iff in L. rewrite E1, E2 in L.
  unfold Qle in L. cbn [Qnum Qden] in L. lia.
Qed.

(** A record whose end is not later than its start gets the end
    [start + 1.0] second. *)
Lemma validateOne_extends (sub : SubtitleEntry) (h1 m1 s1 c1 h2 m2 s2 c2 : N) :
  (h1 < 100)%N -> (m1 < 60)%N -> (s1 < 60)%N -> (c1 < 100)%N ->
  (h2 < 100)%N -> (m2 < 60)%N -> (s2 < 60)%N -> (c2 < 100)%N ->
  start sub = stamp_text h1 m1 s1 c1 -> end_ sub = stamp_text h2 m2 s2 c2 ->
  (centis h2 m2 s2 c2 <= centis h1 m1 s1 c1)%N ->
  validateOne sub
  = set_end sub (stamp_of_centis (centis h1 m1 s1 c1 + 100)).
Proof.
  intros Hh1 Hm1 Hs1 Hc1 Hh2 Hm2 Hs2 Hc2 Es Ee Hle.
  destruct (toSeconds_stamp_text h1 m1 s1 c1) as (q1 & T1 & E1); auto.
  destruct (toSeconds_stamp_text h2 m2 s2 c2) as (q2 & T2 & E2); auto.
  unfold validateOne. rewrite Es, Ee, T1, T2. cbn [jsnum_le].
  replace (Qle_bool q2 q1) with true.
  - f_equal. apply formatSeconds_centis. rewrite E1.
    unfold Qeq, Qplus. cbn [Qnum Qden]. lia.
  - symmetry. apply Qle_bool_iff. rewrite E1, E2.
    unfold Qle. cbn [Qnum Qden]. lia.
Qed.

(** C6: a record whose end, read as [H*3600 + M*60 + S.cc] seconds, is not
    later than its start gets the end [start + 1.0] second, written again
    as a timestamp, and keeps its other fields; the other records of the
    list are treated on their own. *)
Theorem validateSubtitleTiming_extends_end
        (before after : list SubtitleEntry) (sub : SubtitleEntry)
        (h1 m1 s1 c1 h2 m2 s2 c2 : N) :
  (h1 < 100)%N -> (m1 < 60)%N -> (s1 < 60)%N -> (c1 < 100)%N ->
  (h2 < 100)%N -> (m2 < 60)%N -> (s2 < 60)%N -> (c2 < 100)%N ->
  start sub = stamp_text h1 m1 s1 c1 -> end_ sub = stamp_text h2 m2 s2 c2 ->
  (centis h2 m2 s2 c2 <= centis h1 m1 s1 c1)%N ->
  validateSubtitleTiming (before ++ sub :: after)
  = validateSubtitleTiming before
    ++ {| number := number sub;
          start := start sub;
          end_ := stamp_of_centis (centis h1 m1 s1 c1 + 100);
          text := text sub;
          style := style sub;
          originalText := originalText sub |}
    :: validateSubtitleTiming after.
Proof.
  intros Hh1 Hm1 Hs1 Hc1 Hh2 Hm2 Hs2 Hc2 Es Ee Hle.
  unfold validateSubtitleTiming. rewrite map_app. cbn [map].
  rewrite (validateOne_extends sub h1 m1 s1 c1 h2 m2 s2 c2); auto.
Qed.

Lemma validateSubtitleTiming_extends_end_witness :
  validateSubtitleTiming [sample_entry]
  = [ {| number := Some 1%Z; start := str "0:00:05.00";
         end_ := str "0:00:06.00"; text := str "Hi";
         style := str "Default"; originalText := str "Hi" |} ].
Proof.
  apply (validateSubtitleTiming_extends_end [] [] sample_entry
           0 0 5 0 0 0 3 0);
    try reflexivity.
  vm_compute. discriminate.
Defined.

(** ** Lines and blocks *)

Lemma ws_LF (d : N) : is_ws d = false -> (LF =? d)%N = false.
Proof.
  intros H. apply N.eqb_neq. intros <-. discriminate.
Qed.

Lemma trimStart_solid (s : jsstring) : starts_solid s -> trimStart s = s.
Proof.
  destruct s as [|c s]; [contradiction|]. simpl. intros H. now rewrite H.
Qed.

Lemma trimStart_blank (a x : jsstring) :
  Forall (fun c => is_ws c = true) a -> trimStart (a ++ x) = trimStart x.
Proof.
  induction 1 as [|c a Hc _ IH]; [reflexivity|]. simpl. now rewrite Hc.
Qed.

Lemma trim_solid (s : jsstring) :
  starts_solid s -> ends_solid s -> trim s = s.
Proof.
  intros H1 H2. unfold trim, trimEnd.
  rewrite (trimStart_solid s H1), (trimStart_solid (rev s) H2).
  apply rev_involutive.
Qed.

Lemma starts_solid_app (a b : jsstring) :
  starts_solid a -> starts_solid (a ++ b).
Proof. destruct a; [contradiction | auto]. Qed.

Lemma ends_solid_app (a b : jsstring) :
  ends_solid b -> ends_solid (a ++ b).
Proof.
  unfold ends_solid. rewrite rev_app_distr. apply starts_solid_app.
Qed.

Lemma trim_between_blanks (a s b : jsstring) :
  Forall (fun c => is_ws c = true) a -> Forall (fun c => is_ws c = true) b ->
  starts_solid s -> ends_solid s -> trim (a ++ s ++ b) = s.
Proof.
  intros Ha Hb H1 H2. unfold trim, trimEnd.
  rewrite (trimStart_blank a _ Ha).
  rewrite (trimStart_solid (s ++ b) (starts_solid_app s b H1)).
  rewrite rev_app_distr, (trimStart_blank (rev b) _ (Forall_rev Hb)).
  rewrite (trimStart_solid (rev s) H2). apply rev_involutive.
Qed.

Lemma starts_solid_nonempty (s : jsstring) : starts_solid s -> s <> [].
Proof. destruct s; [contradiction | discriminate]. Qed.

Lemma ends_solid_nonempty (s : jsstring) : ends_solid s -> s <> [].
Proof. intros H ->. exact H. Qed.

Lemma join_cons (sep x : jsstring) (l : list jsstring) :
  l <> [] -> join sep (x :: l) = x ++ sep ++ join sep l.
Proof. destruct l; [contradiction | reflexivity]. Qed.

Lemma in_join (c : N) (sep : jsstring) (l : list jsstring) :
  In c (join sep l) -> In c sep \/ exists x, In x l /\ In c x.
Proof.
  induction l as [|x l IH]; [contradiction|].
  destruct l as [|y l].
  - intros H. right. exists x. split; [now left | exact H].
  - rewrite join_cons by discriminate. rewrite !in_app_iff.
    intros [H | [H | H]].
    + right. exists x. split; [now left | exact H].
    + now left.
    + destruct (IH H) as [K | (z & Hz & K)]; [now left|].
      right. exists z. split; [now right | exact K].
Qed.

Lemma ends_solid_join (sep : jsstring) (l : list jsstring) :
  l <> [] -> Forall ends_solid l -> ends_solid (join sep l).
Proof.
  induction l as [|x l IH]; [contradiction|]. intros _ H.
  inversion H as [|? ? Hx Hl]; subst.
  destruct l as [|y l]; [exact Hx|].
  rewrite join_cons by discriminate.
  rewrite app_assoc. apply ends_solid_app. apply IH; [discriminate | exact Hl].
Qed.

Lemma starts_solid_join (sep : jsstring) (x : jsstring) (l : list jsstring) :
  starts_solid x -> starts_solid (join sep (x :: l)).
Proof.
  intros H. destruct l; [exact H|].
  rewrite join_cons by discriminate. now apply starts_solid_app.
Qed.

Lemma split_char_nonempty (c : N) (s : jsstring) : split_char c s <> [].
Proof.
  induction s as [|x s IH]; simpl; [discriminate|].
  destruct (c =? x)%N; [discriminate|].
  destruct (split_char c s); [contradiction | discriminate].
Qed.

Lemma split_char_join (c : N) (l : list jsstring) :
  l <> [] -> Forall (fun x => ~ In c x) l ->
  split_char c (join [c] l) = l.
Proof.
  induction l as [|x l IH]; [contradiction|]. intros _ H.
  inversion H as [|? ? Hx Hl]; subst.
  destruct l as [|y l].
  - now apply split_char_none.
  - rewrite join_cons by discriminate. cbn [app].
    rewrite split_char_app by exact Hx.
    rewrite IH; [reflexivity | discriminate | exact Hl].
Qed.

Lemma map_trim_rows (l : list jsstring) :
  Forall text_line l -> map trim l = l.
Proof.
  induction 1 as [|x l (H1 & H2 & _) _ IH]; [reflexivity|].
  simpl. now rewrite (trim_solid x H1 H2), IH.
Qed.

Lemma filter_nonempty_rows (l : list jsstring) :
  Forall text_line l -> filter (fun line => negb (is_empty line)) l = l.
Proof.
  induction 1 as [|x l (H1 & _) _ IH]; [reflexivity|].
  simpl. destruct x; [contradiction|]. simpl. now rewrite IH.
Qed.

Lemma stamp_chars (t : jsstring) :
  is_stamp t ->
  Forall (fun c => is_digit c = true \/ c = 58%N \/ is_sep c) t.
Proof.
  intros (h & m & s & sep & f & Hshape & ->).
  destruct Hshape as (Hh & _ & Hm & _ & Hs & _ & Hsep & Hf & _).
  assert (D : forall d, all_digits d ->
                        Forall (fun c => is_digit c = true \/ c = 58%N
                                         \/ is_sep c) d).
  { intros d Hd. eapply Forall_impl; [|exact Hd]. intros c Hc. now left. }
  unfold stamp_of.
  repeat first [apply Forall_app; split | apply Forall_cons]; auto.
Qed.

Lemma stamp_no_char (t : jsstring) (c : N) :
  is_stamp t -> is_digit c = false -> c <> 58%N -> ~ is_sep c -> ~ In c t.
Proof.
  intros Ht H1 H2 H3 K. pose proof (stamp_chars t Ht) as F.
  rewrite Forall_forall in F. destruct (F c K) as [A | [A | A]];
    [congruence | contradiction | contradiction].
Qed.

Lemma stamp_solid (t : jsstring) :
  is_stamp t -> starts_solid t /\ ends_solid t.
Proof.
  intros (h & m & s & sep & f & Hshape & ->).
  destruct (stamp_of_head _ _ _ _ _ Hshape) as (d & x & a & e & E1 & Hd & E2 & He).
  split.
  - rewrite E1. exact Hd.
  - unfold ends_solid. rewrite E2, rev_app_distr. exact He.
Qed.

Lemma stamp_text_line_chars (t : jsstring) :
  is_stamp t -> ~ In LF t /\ ~ In CR t.
Proof.
  intros H. split; apply stamp_no_char; auto; try discriminate;
    unfold is_sep; intros [K | K]; discriminate.
Qed.

Lemma digits_text_line (d : jsstring) :
  all_digits d -> d <> [] -> text_line d.
Proof.
  intros Hd Hne. repeat split.
  - destruct d as [|c d]; [contradiction|]. inversion Hd; subst.
    now apply digit_not_ws.
  - unfold ends_solid. apply Forall_rev in Hd.
    destruct (rev d) as [|c r] eqn:E.
    + apply (f_equal (@rev N)) in E. rewrite rev_involutive in E.
      contradiction.
    + inversion Hd; subst. now apply digit_not_ws.
  - now apply all_digits_not_in.
  - now apply all_digits_not_in.
Qed.

Lemma time_row_text_line (c : cue) :
  is_stamp (cue_from c) -> is_stamp (cue_to c) -> text_line (time_row c).
Proof.
  intros Hf Ht. unfold time_row.
  destruct (stamp_solid _ Hf) as [S1 _]. destruct (stamp_solid _ Ht) as [_ S2].
  destruct (stamp_text_line_chars _ Hf) as [F1 F2].
  destruct (stamp_text_line_chars _ Ht) as [T1 T2].
  repeat split.
  - now apply starts_solid_app.
  - rewrite app_assoc. now apply ends_solid_app.
  - rewrite !in_app_iff. intros [K | [K | K]]; auto.
    simpl in K. intuition discriminate.
  - rewrite !in_app_iff. intros [K | [K | K]]; auto.
    simpl in K. intuition discriminate.
Qed.

Lemma cue_rows_text (c : cue) :
  well_formed_cue c -> Forall text_line (cue_rows c).
Proof.
  intros (Hd & Hne & _ & Hf & Ht & _ & Hl). unfold cue_rows.
  apply Forall_cons; [now apply digits_text_line|].
  apply Forall_cons; [now apply time_row_text_line | exact Hl].
Qed.

Lemma block_trimmed (rows : list jsstring) :
  rows <> [] -> Forall text_line rows ->
  starts_solid (join [LF] rows) /\ ends_solid (join [LF] rows).
Proof.
  intros Hne H. split.
  - destruct rows as [|x rows]; [contradiction|].
    inversion H as [|? ? (Hx & _) _]; subst. now apply starts_solid_join.
  - apply ends_solid_join; [exact Hne|].
    eapply Forall_impl; [|exact H]. intros l (_ & Hl & _). exact Hl.
Qed.

Lemma blockLines_rows (rows : list jsstring) :
  rows <> [] -> Forall text_line rows -> blockLines (join [LF] rows) = rows.
Proof.
  intros Hne H. unfold blockLines.
  destruct (block_trimmed rows Hne H) as [S1 S2].
  rewrite (trim_solid _ S1 S2), split_str_char, split_char_join; auto.
  - now rewrite map_trim_rows, filter_nonempty_rows.
  - eapply Forall_impl; [|exact H]. intros l (_ & _ & Hl & _). exact Hl.
Qed.

(** ** The time range of a block *)

Lemma lit_first (p s : jsstring) (cs : caps) :
  first_path false (lit p) p s cs cs.
Proof.
  induction p as [|c p IH]; [constructor|].
  change (c :: p) with ([c] ++ p). simpl lit. econstructor.
  - constructor. unfold cls_match, char_eq. apply N.eqb_refl.
  - exact IH.
Qed.

Lemma stamp_first (h m s : jsstring) (sep : N) (f post : jsstring)
      (cs : caps) :
  stamp_shape h m s sep f -> frac_maximal f post ->
  first_path false stamp (stamp_of h m s sep f) post cs cs.
Proof.
  intros (Hh & Lh & Hm & Lm & Hs & Ls & Hsep & Hf & Lf) Hmax.
  cbv [stamp rseq rrange rchar].
  change (N_of_ascii ":") with 58%N.
  unfold stamp_of.
  change (h ++ 58%N :: m ++ 58%N :: s ++ sep :: f)
    with (h ++ [58%N] ++ m ++ [58%N] ++ s ++ [sep] ++ f).
  repeat first
         [ eapply F_seq
         | apply F_atom; first [reflexivity | now apply sep_match]
         | apply F_rep; unfold within, stops; auto; try lia ].
  - right. reflexivity.
  - destruct Hmax as [E | Hmax]; [left; now rewrite E | now right].
Qed.

Lemma time_row_match (c : cue) :
  is_stamp (cue_from c) -> is_stamp (cue_to c) ->
  first_match timePatterns (time_row c)
  = Some [(2, cue_to c); (1, cue_from c)].
Proof.
  intros (h1 & m1 & s1 & sep1 & f1 & Sh1 & E1)
         (h2 & m2 & s2 & sep2 & f2 & Sh2 & E2).
  destruct (stamp_of_head _ _ _ _ _ Sh2) as (d & x & _ & _ & Ed & Hd & _).
  unfold first_match, timePatterns.
  pose proof (exec_first false (rangePattern (lit (str "-->"))) []
                (time_row c) [] [(2, cue_to c); (1, cue_from c)]) as P.
  rewrite app_nil_r in P. cbn [app] in P. rewrite P; [reflexivity| |].
  - intros p1 p2 E Hne. symmetry in E. apply app_eq_nil in E.
    destruct E as [_ ->]. contradiction.
  - unfold rangePattern, time_row. cbn [rseq].
    change (str " --> ") with ([32%N] ++ str "-->" ++ [32%N]).
    rewrite <- !app_assoc.
    eapply F_seq; [apply F_group; rewrite E1; apply stamp_first;
                   [exact Sh1 | now right]|].
    eapply F_seq; [apply F_rep; [repeat constructor | simpl; lia | exact I
                                | right; reflexivity]|].
    eapply F_seq; [apply lit_first|].
    eapply F_seq; [apply F_rep; [repeat constructor | simpl; lia | exact I|]|].
    + right. rewrite app_nil_r, E2, Ed. unfold cls_match. exact Hd.
    + apply F_group. rewrite E2.
      apply stamp_first; [exact Sh2 | now right].
Qed.

(** A well-formed block is parsed into the record of its cue. *)
Lemma parseSRTBlock_cue (table : list (jsstring * jsstring)) (c : cue) :
  well_formed_cue c ->
  parseSRTBlock table (cue_block c) = Some (entry_of table c).
Proof.
  intros W. pose proof (cue_rows_text c W) as R.
  destruct W as (Hd & Hne & _ & Hf & Ht & Hl & _).
  unfold parseSRTBlock. fold (blockLines (cue_block c)).
  unfold cue_block. rewrite (blockLines_rows (cue_rows c)); auto;
    [|discriminate].
  unfold cue_rows at 1. cbn [length].
  destruct (cue_lines c) as [|l ls] eqn:El; [contradiction|].
  cbn [Nat.ltb Nat.leb length cue_rows nth Number_parseInt skipn].
  rewrite (parseInt_digits _ Hd Hne).
  rewrite (time_row_match c Hf Ht). cbn [cap Nat.eqb].
  unfold entry_of, cue_number.
  destruct (cleanAndFormatText table (join [LF] (cue_lines c))).
  reflexivity.
Qed.

(** ** Splitting a document into blocks *)

Lemma blankLine_other (c : N) (s : jsstring) :
  c <> LF -> match_here false blankLine (c :: s) = None.
Proof.
  intros H. unfold match_here, blankLine. cbn [rseq mtch cls_match char_eq].
  replace (LF =? c)%N with false; [reflexivity|].
  symmetry. apply N.eqb_neq. congruence.
Qed.

Lemma blankLine_line (d : N) (s : jsstring) :
  is_ws d = false -> match_here false blankLine (LF :: d :: s) = None.
Proof.
  intros H. unfold match_here, blankLine, rstar.
  cbn [rseq mtch rep cls_match char_eq].
  rewrite N.eqb_refl, H, (ws_LF d H). reflexivity.
Qed.

Lemma blankLine_sep (d : N) (s : jsstring) :
  is_ws d = false ->
  match_here false blankLine (LF :: LF :: d :: s) = Some (d :: s, []).
Proof.
  intros H. unfold match_here, blankLine, rstar.
  cbn [rseq mtch rep cls_match char_eq option_map pred].
  rewrite N.eqb_refl. change (is_ws LF) with true. cbn iota.
  rewrite H, (ws_LF d H). reflexivity.
Qed.

Lemma solid_no_LF (l : jsstring) : ~ In LF l -> solid l.
Proof.
  induction l as [|c l IH]; intros H; simpl; [exact I|]. split.
  - intros ->. exfalso. apply H. now left.
  - apply IH. intros K. apply H. now right.
Qed.

Lemma solid_app_LF (l rest : jsstring) :
  ~ In LF l -> starts_solid rest -> solid rest -> solid (l ++ LF :: rest).
Proof.
  induction l as [|c l IH]; intros H S1 S2; simpl.
  - split; [intros _; exact S1 | exact S2].
  - split.
    + intros ->. exfalso. apply H. now left.
    + apply IH; auto. intros K. apply H. now right.
Qed.

Lemma solid_rows (rows : list jsstring) :
  Forall text_line rows -> solid (join [LF] rows).
Proof.
  induction 1 as [|x rows (Sx & _ & Lx & _) Hr IH]; [exact I|].
  destruct rows as [|y rows]; [now apply solid_no_LF|].
  rewrite join_cons by discriminate. cbn [app].
  apply solid_app_LF; auto.
  inversion Hr as [|? ? (Sy & _) _]; subst. now apply starts_solid_join.
Qed.

Lemma join_after_blocks (b : jsstring) (bs : list jsstring) :
  join [LF; LF] (b :: bs) = b ++ after_blocks bs.
Proof.
  revert b. induction bs as [|b2 bs IH]; intros b.
  - simpl. now rewrite app_nil_r.
  - rewrite join_cons by discriminate. rewrite IH. reflexivity.
Qed.

Lemma split_re_f_blocks (bs : list jsstring) :
  Forall (fun b => starts_solid b /\ solid b) bs ->
  forall (t : jsstring), solid t ->
  forall (fuel : nat) (at_p : bool),
    length (t ++ after_blocks bs) < fuel ->
    split_re_f fuel false blankLine at_p (t ++ after_blocks bs) = t :: bs.
Proof.
  induction 1 as [|b bs (Sb & Hb) _ IHbs].
  - intros t. induction t as [|c t IHt]; intros Ht fuel at_p L;
      (destruct fuel as [|fuel]; [simpl in L; lia|]).
    + reflexivity.
    + destruct Ht as [Hc Ht]. cbn [app length] in L. cbn [app split_re_f].
      assert (M : match_here false blankLine (c :: t ++ after_blocks [])
                  = None).
      { destruct (N.eq_dec c LF) as [-> | Hne].
        - specialize (Hc eq_refl). destruct t as [|d t]; [contradiction|].
          now apply blankLine_line.
        - now apply blankLine_other. }
      rewrite M, (IHt Ht fuel false) by lia. reflexivity.
  - intros t. induction t as [|c t IHt]; intros Ht fuel at_p L;
      (destruct fuel as [|fuel]; [simpl in L; lia|]).
    + destruct b as [|d b]; [contradiction|].
      cbn [app after_blocks split_re_f].
      rewrite (blankLine_sep d _ Sb).
      replace (length (d :: b ++ after_blocks bs)
               <? length (LF :: LF :: d :: b ++ after_blocks bs))
        with true by (symmetry; apply Nat.ltb_lt; simpl; lia).
      cbn [orb]. f_equal.
      apply (IHbs (d :: b) Hb fuel true).
      cbn [app after_blocks length] in L. simpl. lia.
    + destruct Ht as [Hc Ht]. cbn [app length] in L. cbn [app split_re_f].
      assert (M : match_here false blankLine
                    (c :: t ++ after_blocks (b :: bs)) = None).
      { destruct (N.eq_dec c LF) as [-> | Hne].
        - specialize (Hc eq_refl). destruct t as [|d t]; [contradiction|].
          now apply blankLine_line.
        - now apply blankLine_other. }
      rewrite M, (IHt Ht fuel false) by lia. reflexivity.
Qed.

Lemma split_re_blocks (b : jsstring) (bs : list jsstring) :
  Forall (fun b => starts_solid b /\ solid b) (b :: bs) ->
  split_re false blankLine (join [LF; LF] (b :: bs)) = b :: bs.
Proof.
  intros H. inversion H as [|? ? (Sb & Hb) Hbs]; subst.
  rewrite join_after_blocks. unfold split_re.
  destruct (b ++ after_blocks bs) as [|c r] eqn:E.
  - destruct b; [contradiction | discriminate].
  - rewrite <- E. apply split_re_f_blocks; auto. lia.
Qed.

(** ** Parsing a well-formed document *)

Lemma cue_block_facts (c : cue) :
  well_formed_cue c ->
  starts_solid (cue_block c) /\ ends_solid (cue_block c)
  /\ solid (cue_block c) /\ ~ In CR (cue_block c).
Proof.
  intros W. pose proof (cue_rows_text c W) as R.
  destruct (block_trimmed (cue_rows c)) as [S1 S2]; auto; [discriminate|].
  repeat split; auto.
  - now apply solid_rows.
  - intros K. apply in_join in K. destruct K as [K | (x & Hx & K)].
    + simpl in K. intuition discriminate.
    + rewrite Forall_forall in R. destruct (R x Hx) as (_ & _ & _ & Hc).
      contradiction.
Qed.

Lemma document_facts (cues : list cue) :
  cues <> [] -> Forall well_formed_cue cues ->
  starts_solid (document cues) /\ ends_solid (document cues)
  /\ ~ In CR (document cues).
Proof.
  intros Hne W. unfold document. repeat split.
  - destruct cues as [|c cues]; [contradiction|]. cbn [map].
    apply starts_solid_join. inversion W; subst.
    now apply cue_block_facts.
  - apply ends_solid_join.
    + destruct cues; [contradiction | discriminate].
    + apply Forall_map. eapply Forall_impl; [|exact W].
      intros c Hc. now apply cue_block_facts.
  - intros K. apply in_join in K. destruct K as [K | (x & Hx & K)].
    + simpl in K. intuition discriminate.
    + apply in_map_iff in Hx. destruct Hx as (c & <- & Hc).
      rewrite Forall_forall in W.
      destruct (cue_block_facts c (W c Hc)) as (_ & _ & _ & H). contradiction.
Qed.

Lemma replace_all_absent_char (c : N) (p repl s : jsstring) :
  ~ In c s -> replace_all false (lit (c :: p)) repl s = s.
Proof.
  intros H. unfold replace_all. apply replace_all_f_absent.
  intros (pre & post & ->). apply H. rewrite in_app_iff. right. now left.
Qed.

Lemma parsedBlocks_cue (table : list (jsstring * jsstring)) (c : cue) :
  well_formed_cue c -> parsedBlocks table (cue_block c) = [entry_of table c].
Proof.
  intros W. unfold parsedBlocks.
  destruct (cue_block_facts c W) as (S1 & S2 & _).
  rewrite (trim_solid _ S1 S2), (parseSRTBlock_cue table c W).
  destruct (cue_block c); [contradiction | reflexivity].
Qed.

Lemma parsedBlocks_cues (table : list (jsstring * jsstring))
      (cues : list cue) :
  Forall well_formed_cue cues ->
  flat_map (parsedBlocks table) (map cue_block cues)
  = map (entry_of table) cues.
Proof.
  induction 1 as [|c cues W _ IH]; [reflexivity|].
  cbn [map flat_map]. now rewrite (parsedBlocks_cue table c W), IH.
Qed.

Lemma trimStart_keeps (s : jsstring) (c : N) :
  In c s -> is_ws c = false -> In c (trimStart s).
Proof.
  intros Hin Hc. induction s as [|x s IH]; [contradiction|]. simpl.
  destruct (is_ws x) eqn:Hx; [|exact Hin].
  destruct Hin as [-> | Hin]; [congruence | now apply IH].
Qed.

Lemma trim_keeps (s : jsstring) (c : N) :
  In c s -> is_ws c = false -> In c (trim s).
Proof.
  intros Hin Hc. unfold trim, trimEnd. apply in_rev.
  rewrite rev_involutive. apply trimStart_keeps; [|exact Hc].
  apply -> in_rev. now apply trimStart_keeps.
Qed.

Lemma line_ends_keeps (crlf : bool) (s : jsstring) (c : N) :
  In c s -> In c (line_ends crlf s).
Proof.
  intros H. destruct crlf; [|exact H]. unfold line_ends.
  apply in_flat_map. exists c. split; [exact H|].
  destruct (c =? LF)%N eqn:E; [|now left].
  apply N.eqb_eq in E. subst. right. now left.
Qed.

(** Reading [\r\n] as [\n] undoes the line ends of a document. *)
Lemma replace_all_f_line_ends (s : jsstring) :
  ~ In CR s ->
  forall fuel : nat,
    length (line_ends true s) < fuel ->
    replace_all_f fuel false (lit [CR; LF]) [LF] (line_ends true s) = s.
Proof.
  induction s as [|x s IH]; intros H fuel L;
    (destruct fuel as [|fuel]; [lia|]); [reflexivity|].
  assert (Hs : ~ In CR s) by (intros K; apply H; now right).
  cbn [line_ends flat_map] in *. cbn [replace_all_f].
  unfold match_here. rewrite mtch_lit.
  destruct (x =? LF)%N eqn:E.
  - apply N.eqb_eq in E. subst x. cbn [app length] in *.
    cbn [starts_with skipn length]. rewrite !N.eqb_refl. cbn [andb].
    replace (length (flat_map (fun c => if (c =? LF)%N then [CR; LF] else [c]) s)
             <? S (S (length (flat_map (fun c => if (c =? LF)%N then [CR; LF]
                                                 else [c]) s))))
      with true by (symmetry; apply Nat.ltb_lt; lia).
    cbn [app]. f_equal. apply IH; [exact Hs | lia].
  - cbn [app length] in *. cbn [starts_with].
    replace (CR =? x)%N with false.
    + cbn [andb]. f_equal. apply IH; [exact Hs | lia].
    + symmetry. apply N.eqb_neq. intros <-. apply H. now left.
Qed.

Lemma replace_all_line_ends (crlf : bool) (s : jsstring) :
  ~ In CR s ->
  replace_all false (lit [CR; LF]) [LF] (line_ends crlf s) = s.
Proof.
  intros H. destruct crlf.
  - unfold replace_all. apply replace_all_f_line_ends; [exact H | lia].
  - now apply replace_all_absent_char.
Qed.

Lemma parseSRTFile_document (table : list (jsstring * jsstring))
      (cues : list cue) (head tail : jsstring) (crlf : bool) :
  cues <> [] -> Forall well_formed_cue cues -> blank head -> blank tail ->
  parseSRTFile table (line_ends crlf (head ++ document cues ++ tail))
  = sort_subs (map (entry_of table) cues).
Proof.
  intros Hne W (Hh & Ch) (Ht & Ct).
  destruct (document_facts cues Hne W) as (S1 & S2 & Cd).
  assert (C : ~ In CR (head ++ document cues ++ tail)).
  { rewrite !in_app_iff. tauto. }
  unfold parseSRTFile, parseSRTFile_try.
  destruct (document cues) as [|x d] eqn:E; [contradiction|].
  assert (K : In x (trim (line_ends crlf (head ++ (x :: d) ++ tail)))).
  { apply trim_keeps; [|exact S1]. apply line_ends_keeps.
    rewrite !in_app_iff. right. left. now left. }
  destruct (trim (line_ends crlf (head ++ (x :: d) ++ tail))) as [|y u];
    [contradiction|].
  cbn [is_empty]. rewrite <- E in *. clear K.
  rewrite (replace_all_line_ends crlf _ C).
  rewrite (replace_all_absent_char CR [] [LF] _ C).
  rewrite (trim_between_blanks head (document cues) tail Hh Ht S1 S2).
  unfold document.
  destruct cues as [|c cues]; [contradiction|]. cbn [map].
  rewrite split_re_blocks.
  - change (cue_block c :: map cue_block cues)
      with (map cue_block (c :: cues)).
    now rewrite parsedBlocks_cues.
  - change (cue_block c :: map cue_block cues)
      with (map cue_block (c :: cues)).
    apply Forall_map. eapply Forall_impl; [|exact W].
    intros c0 H0. destruct (cue_block_facts c0 H0) as (A & _ & B & _).
    now split.
Qed.

(** ** Sorting by index *)

Lemma insert_sub_perm (x : SubtitleEntry) (l : list SubtitleEntry) :
  Permutation (insert_sub x l) (x :: l).
Proof.
  induction l as [|y l IH]; simpl; [reflexivity|].
  destruct (after x y); [|reflexivity].
  rewrite IH. apply perm_swap.
Qed.

Lemma sort_subs_perm (l : list SubtitleEntry) : Permutation (sort_subs l) l.
Proof.
  induction l as [|x l IH]; simpl; [reflexivity|].
  rewrite insert_sub_perm. now constructor.
Qed.

Lemma insert_sub_sorted (x : SubtitleEntry) (l : list SubtitleEntry) :
  has_index x -> Forall has_index l -> Sorted index_le l ->
  Sorted index_le (insert_sub x l).
Proof.
  intros Hx Hl Hs. induction l as [|y l IH]; simpl.
  - repeat constructor.
  - inversion Hl as [|? ? Hy Hl']; subst.
    inversion Hs as [|? ? Hs' Hd]; subst.
    unfold has_index in Hx, Hy.
    destruct (after x y) eqn:A.
    + constructor; [now apply IH|].
      unfold after in A.
      destruct (number x) as [nx|] eqn:Ex; [|contradiction].
      destruct (number y) as [ny|] eqn:Ey; [|contradiction].
      apply Z.ltb_lt in A.
      destruct l as [|z l]; simpl.
      * constructor. unfold index_le. rewrite Ex, Ey. simpl. lia.
      * destruct (after x z); constructor.
        -- inversion Hd; subst. assumption.
        -- unfold index_le. rewrite Ex, Ey. simpl. lia.
    + constructor; [assumption|]. constructor.
      unfold after in A. unfold index_le.
      destruct (number x) as [nx|]; [|contradiction].
      destruct (number y) as [ny|]; [|contradiction].
      apply Z.ltb_ge in A. simpl. lia.
Qed.

Lemma sort_subs_sorted (l : list SubtitleEntry) :
  Forall has_index l -> Sorted index_le (sort_subs l).
Proof.
  induction 1 as [|x l Hx Hl IH]; simpl; [constructor|].
  apply insert_sub_sorted; auto.
  eapply Permutation_Forall; [symmetry; apply sort_subs_perm | exact Hl].
Qed.

(** ** The timestamps of a parsed record *)

Lemma digits_value_two (d : jsstring) :
  all_digits d -> 1 <= length d <= 2 -> (digits_value d < 100)%N.
Proof.
  intros Hd L.
  destruct d as [|a [|b [|x d]]]; simpl in L; try lia.
  - inversion Hd as [|? ? Ha _]; subst. apply digit_range in Ha.
    unfold digits_value. cbn [fold_left]. lia.
  - inversion Hd as [|? ? Ha Hd1]; subst.
    inversion Hd1 as [|? ? Hb _]; subst.
    apply digit_range in Ha, Hb. unfold digits_value. cbn [fold_left]. lia.
Qed.

Lemma stamp_value_range (h m s : jsstring) (sep : N) (f : jsstring) :
  stamp_shape h m s sep f ->
  exists hh mm ss cc,
    (hh < 100)%N /\ (mm < 60)%N /\ (ss < 60)%N /\ (cc < 100)%N
    /\ stamp_value h m s f = stamp_text hh mm ss cc.
Proof.
  intros (Dh & Lh & Dm & Lm & Ds & Ls & _ & Df & Lf).
  destruct (padEnd0_fraction f Df Lf) as (E & Dp & Lp).
  pose proof (digits_value_three _ Dp Lp) as B.
  pose proof (digits_value_two _ Dh Lh) as Bh.
  assert (nonempty : forall d : jsstring, 1 <= length d -> d <> [])
    by (intros d L ->; simpl in L; lia).
  unfold stamp_value. rewrite E.
  rewrite (parseInt_digits h Dh), (parseInt_digits m Dm),
    (parseInt_digits s Ds), (parseInt_digits _ Dp);
    try (apply nonempty; lia).
  unfold jsint_ge.
  destruct (60 <=? Z.of_N (digits_value m))%Z eqn:Gm.
  { exists 0%N, 0%N, 0%N, 0%N. repeat split; reflexivity. }
  destruct (60 <=? Z.of_N (digits_value s))%Z eqn:Gs.
  { exists 0%N, 0%N, 0%N, 0%N. repeat split; reflexivity. }
  replace (1000 <=? Z.of_N (digits_value (padEnd0 3 f)))%Z with false
    by (symmetry; apply Z.leb_gt; lia).
  apply Z.leb_gt in Gm, Gs.
  exists (digits_value h), (digits_value m), (digits_value s),
    (digits_value (padEnd0 3 f) / 10)%N.
  repeat split; try lia.
  - apply N.Div0.div_lt_upper_bound. lia.
  - cbn [orb jsint_toString jsint_floor_div option_map].
    change 10%Z with (Z.of_N 10). rewrite <- N2Z.inj_div.
    rewrite !Z_toString_of_N. reflexivity.
Qed.

(** Whatever its argument, [parseSRTTime] returns a normalized timestamp. *)
Lemma parseSRTTime_range (t : jsstring) :
  exists hh mm ss cc,
    (hh < 100)%N /\ (mm < 60)%N /\ (ss < 60)%N /\ (cc < 100)%N
    /\ parseSRTTime t = stamp_text hh mm ss cc.
Proof.
  unfold parseSRTTime, parseSRTTime_try.
  destruct (exec false timePattern
              (replace_first (str ",") (str ".") (trim t))) as [cs|] eqn:E.
  - apply exec_sound in E. destruct E as (pre & w & rest & _ & M).
    apply timePattern_inv in M.
    destruct M as (h & m & s & sep & f & Hshape & _ & ->).
    destruct (stamp_value_range h m s sep f Hshape)
      as (hh & mm & ss & cc & B1 & B2 & B3 & B4 & V).
    exists hh, mm, ss, cc. repeat split; auto.
    rewrite <- V. unfold stamp_value, stamp_caps. cbn [app cap Nat.eqb].
    destruct (jsint_ge (parseInt m) 60 || jsint_ge (parseInt s) 60
              || jsint_ge (parseInt (firstn 3 (padEnd0 3 f))) 1000);
      reflexivity.
  - exists 0%N, 0%N, 0%N, 0%N. repeat split; reflexivity.
Qed.

Lemma dec_digits_all (fuel : nat) :
  forall (n : N) (acc : jsstring),
    all_digits acc -> all_digits (dec_digits fuel n acc).
Proof.
  induction fuel as [|fuel IH]; intros n acc H; [exact H|].
  assert (D : all_digits ((48 + n mod 10)%N :: acc)).
  { constructor; [|exact H]. apply digit_range.
    assert (B : (n mod 10 < 10)%N) by (apply N.mod_lt; discriminate).
    revert B. generalize (n mod 10)%N. intros k B. lia. }
  cbn [dec_digits]. destruct (n <? 10)%N; [exact D | now apply IH].
Qed.

Lemma N_toString_digits (n : N) : all_digits (N_toString n).
Proof. apply dec_digits_all. constructor. Qed.

Lemma pad2_digits (n : N) : all_digits (pad2 n).
Proof.
  unfold pad2, padStart0. apply Forall_app. split.
  - apply Forall_forall. intros c Hc. apply repeat_spec in Hc. now subst.
  - apply N_toString_digits.
Qed.

Lemma stamp_text_chars (h m s c : N) :
  Forall (fun x => is_digit x = true \/ x = 58%N \/ x = 46%N)
         (stamp_text h m s c).
Proof.
  assert (D : forall d, all_digits d ->
                        Forall (fun x => is_digit x = true \/ x = 58%N
                                         \/ x = 46%N) d).
  { intros d Hd. eapply Forall_impl; [|exact Hd]. intros x Hx. now left. }
  unfold stamp_text. change (str ":") with [58%N]. change (str ".") with [46%N].
  pose proof (D _ (N_toString_digits h)) as Fh.
  pose proof (D _ (pad2_digits m)) as Fm.
  pose proof (D _ (pad2_digits s)) as Fs.
  pose proof (D _ (pad2_digits c)) as Fc.
  apply Forall_app; split; [exact Fh|].
  apply Forall_cons; [now right; left|].
  apply Forall_app; split; [exact Fm|].
  apply Forall_cons; [now right; left|].
  apply Forall_app; split; [exact Fs|].
  apply Forall_cons; [now right; right | exact Fc].
Qed.

Lemma stamp_text_no_LF (h m s c : N) : ~ In LF (stamp_text h m s c).
Proof.
  intros K. pose proof (stamp_text_chars h m s c) as F.
  rewrite Forall_forall in F. destruct (F LF K) as [A | [A | A]];
    discriminate.
Qed.

(** The Timing Validator leaves a parsed record with a normalized end. *)
Lemma validateOne_parsed (sub : SubtitleEntry)
      (h1 m1 s1 c1 h2 m2 s2 c2 : N) :
  (h1 < 100)%N -> (m1 < 60)%N -> (s1 < 60)%N -> (c1 < 100)%N ->
  (h2 < 100)%N -> (m2 < 60)%N -> (s2 < 60)%N -> (c2 < 100)%N ->
  start sub = stamp_text h1 m1 s1 c1 -> end_ sub = stamp_text h2 m2 s2 c2 ->
  exists h m s c, validateOne sub = set_end sub (stamp_text h m s c).
Proof.
  intros Hh1 Hm1 Hs1 Hc1 Hh2 Hm2 Hs2 Hc2 Es Ee.
  destruct (N.le_gt_cases (centis h2 m2 s2 c2) (centis h1 m1 s1 c1))
    as [L | L].
  - rewrite (validateOne_extends sub h1 m1 s1 c1 h2 m2 s2 c2); auto.
    unfold stamp_of_centis. now eexists _, _, _, _.
  - rewrite (validateOne_keeps sub h1 m1 s1 c1 h2 m2 s2 c2); auto.
    exists h2, m2, s2, c2. rewrite <- Ee. symmetry. apply set_end_same.
Qed.

(** ** No line feed in a formatted text *)

Lemma replace_all_f_Forall (P : N -> Prop) (ci : bool) (r : regex)
      (repl : jsstring) :
  Forall P repl ->
  (forall x s, match_here ci r (x :: s) = None -> P x) ->
  (forall s rest cs, match_here ci r s = Some (rest, cs) ->
                     length rest < length s) ->
  forall (fuel : nat) (s : jsstring),
    length s < fuel -> Forall P (replace_all_f fuel ci r repl s).
Proof.
  intros Hrepl Hnone Hsome. induction fuel as [|fuel IH]; intros s L; [lia|].
  cbn [replace_all_f].
  destruct (match_here ci r s) as [[rest cs]|] eqn:M.
  - pose proof (Hsome s rest cs M) as Lr.
    replace (length rest <? length s) with true
      by (symmetry; now apply Nat.ltb_lt).
    apply Forall_app. split; [exact Hrepl | apply IH; lia].
  - destruct s as [|x s]; [constructor|].
    constructor; [eapply Hnone; eauto | apply IH; simpl in L; lia].
Qed.

Lemma replace_all_LF (s : jsstring) :
  ~ In LF (replace_all false (RAtom (CChar LF)) assBreak s).
Proof.
  assert (F : Forall (fun c => c <> LF)
                     (replace_all false (RAtom (CChar LF)) assBreak s)).
  { unfold replace_all. apply replace_all_f_Forall.
    - repeat constructor; discriminate.
    - intros x t M E. subst x. unfold match_here in M.
      cbn [mtch cls_match char_eq] in M. rewrite N.eqb_refl in M.
      discriminate.
    - intros t rest cs M. apply match_here_sound in M.
      destruct M as (w & -> & M). inversion M; subst.
      rewrite length_app. simpl. lia.
    - lia. }
  rewrite Forall_forall in F. intros K. now apply (F LF K).
Qed.

(** The longest prefix of [s] made of characters of the class. *)
Lemma longest_prefix (ci : bool) (k : cls) (s : jsstring) :
  exists w rest,
    s = w ++ rest /\ Forall (fun c => cls_match ci k c = true) w
    /\ stops ci k None (length w) rest.
Proof.
  induction s as [|c s (w & rest & E & Hw & Hst)].
  - exists [], []. repeat split; [constructor | now right].
  - destruct (cls_match ci k c) eqn:Hc.
    + exists (c :: w), rest. subst s. repeat split.
      * now constructor.
      * destruct Hst as [K | K]; [discriminate | now right].
    + exists [], (c :: s). repeat split; [constructor | now right].
Qed.

Lemma replace_all_spaces (s : jsstring) :
  ~ In LF (replace_all false (rplus CSpace) (str " ") s).
Proof.
  assert (F : Forall (fun c => is_ws c = false \/ c = 32%N)
                     (replace_all false (rplus CSpace) (str " ") s)).
  { unfold replace_all. apply replace_all_f_Forall.
    - change (str " ") with [32%N]. constructor; [now right | constructor].
    - intros x t M. left. destruct (is_ws x) eqn:Hx; [|reflexivity].
      exfalso.
      destruct (longest_prefix false CSpace t) as (w & rest & -> & Hw & Hst).
      assert (P : first_path false (rplus CSpace) (x :: w) rest [] []).
      { apply F_rep.
        - now constructor.
        - simpl. lia.
        - exact I.
        - destruct Hst as [K | K]; [discriminate | now right]. }
      apply match_here_first in P. cbn [app] in P. congruence.
    - intros t rest cs M. apply match_here_sound in M.
      destruct M as (w & -> & M). inversion M; subst.
      rewrite length_app. lia.
    - lia. }
  rewrite Forall_forall in F. intros K.
  destruct (F LF K) as [A | A]; discriminate.
Qed.

Lemma skipn_incl (n : nat) (s : jsstring) (c : N) :
  In c (skipn n s) -> In c s.
Proof.
  intros H. rewrite <- (firstn_skipn n s). apply in_app_iff. now right.
Qed.

Lemma split_str_f_incl (sep : jsstring) (fuel : nat) :
  forall (s p : jsstring) (c : N),
    In p (split_str_f fuel sep s) -> In c p -> In c s.
Proof.
  induction fuel as [|fuel IH]; intros s p c Hp Hc.
  - simpl in Hp. destruct Hp as [<- | []]. exact Hc.
  - destruct s as [|x s].
    + simpl in Hp. destruct Hp as [<- | []]. exact Hc.
    + cbn [split_str_f] in Hp.
      destruct (starts_with sep (x :: s)).
      * destruct Hp as [<- | Hp]; [contradiction|].
        eapply skipn_incl. eapply IH; eauto.
      * destruct (split_str_f fuel sep s) as [|q qs] eqn:E.
        -- simpl in Hp. destruct Hp as [<- | []].
           destruct Hc as [<- | []]. now left.
        -- simpl in Hp. destruct Hp as [<- | Hp].
           ++ destruct Hc as [<- | Hc]; [now left|]. right.
              apply (IH s q c); [rewrite E; now left | exact Hc].
           ++ right. apply (IH s p c); [rewrite E; now right | exact Hc].
Qed.

Lemma trim_incl (s : jsstring) (c : N) : In c (trim s) -> In c s.
Proof.
  intros H. destruct (trim_substring s) as (a & b & E). rewrite E.
  rewrite !in_app_iff. tauto.
Qed.

Lemma breakLines_no_LF (t : jsstring) : ~ In LF (breakLines t).
Proof.
  unfold breakLines. intros K. apply trim_incl, in_join in K.
  destruct K as [K | (x & Hx & K)].
  - simpl in K. intuition discriminate.
  - apply filter_In in Hx. destruct Hx as [Hx _].
    apply in_map_iff in Hx. destruct Hx as (l & <- & Hl).
    apply trim_incl in K.
    apply (replace_all_LF t). unfold split_str in Hl.
    eapply split_str_f_incl; eauto.
Qed.

Lemma emptyFallback_no_LF (t : jsstring) : ~ In LF (emptyFallback t).
Proof.
  unfold emptyFallback.
  destruct (replace_all false (rplus CSpace) (str " ") (trim t)) eqn:E.
  - simpl. intuition discriminate.
  - cbn [is_empty]. rewrite <- E. apply replace_all_spaces.
Qed.

Lemma cleanSteps_parts (table : list (jsstring * jsstring))
      (text : jsstring) :
  exists t st,
    cleanSteps table text = (breakLines t, st)
    /\ (st = str "Italic" \/ st = str "Default").
Proof.
  unfold cleanSteps.
  destruct (test true italicPattern _); eexists _, _; split;
    try reflexivity; auto.
Qed.

(** The text and the style of a formatted cue hold no line feed. *)
Lemma cleanAndFormatText_no_LF (table : list (jsstring * jsstring))
      (text : jsstring) :
  ~ In LF (fst (cleanAndFormatText table text))
  /\ ~ In LF (snd (cleanAndFormatText table text)).
Proof.
  unfold cleanAndFormatText. destruct text as [|c text].
  - simpl. intuition discriminate.
  - cbn [is_empty].
    destruct (cleanSteps_parts table (c :: text)) as (t & st & -> & Hst).
    cbn [fst snd]. split.
    + destruct (is_empty (breakLines t));
        [apply emptyFallback_no_LF | apply breakLines_no_LF].
    + destruct Hst as [-> | ->]; simpl; intuition discriminate.
Qed.

(** ** The Dialogue lines of the output *)

Lemma cons_head_app (x : N) (l l' : list jsstring) :
  l <> [] -> cons_head x (l ++ l') = cons_head x l ++ l'.
Proof. destruct l; [contradiction | reflexivity]. Qed.

Lemma split_char_sep (c : N) (a b : jsstring) :
  split_char c (a ++ c :: b) = split_char c a ++ split_char c b.
Proof.
  induction a as [|x a IH]; simpl.
  - now rewrite N.eqb_refl.
  - destruct (c =? x)%N; rewrite IH; [reflexivity|].
    apply cons_head_app, split_char_nonempty.
Qed.

Lemma dialogue_lines_header (rest : jsstring) :
  dialogue_lines (assHeader ++ rest) = dialogue_lines rest.
Proof.
  unfold dialogue_lines. rewrite !split_str_char.
  assert (E : assHeader = removelast assHeader ++ [LF])
    by (vm_compute; reflexivity).
  rewrite E, <- app_assoc. cbn [app]. rewrite split_char_sep, filter_app.
  assert (H : filter (starts_with (str "Dialogue:"))
                     (split_char LF (removelast assHeader)) = [])
    by (vm_compute; reflexivity).
  now rewrite H.
Qed.

Lemma dialogueLine_row (sub : SubtitleEntry) :
  dialogueLine sub = dialogue_row sub ++ [LF].
Proof.
  unfold dialogueLine, dialogue_row. now rewrite <- !app_assoc.
Qed.

Lemma dialogue_lines_rows (subs : list SubtitleEntry) :
  Forall (fun sub => ~ In LF (dialogue_row sub)) subs ->
  dialogue_lines (flat_map dialogueLine subs) = map dialogue_row subs.
Proof.
  unfold dialogue_lines. rewrite split_str_char.
  induction 1 as [|sub subs Hsub _ IH]; [reflexivity|].
  cbn [flat_map map]. rewrite dialogueLine_row, <- app_assoc. cbn [app].
  rewrite split_char_app by exact Hsub. cbn [filter]. rewrite IH.
  reflexivity.
Qed.

Lemma number_validateOne (sub : SubtitleEntry) :
  number (validateOne sub) = number sub.
Proof.
  unfold validateOne.
  destruct (jsnum_le (toSeconds (end_ sub)) (toSeconds (start sub)));
    [|reflexivity].
  destruct (toSeconds (start sub)); reflexivity.
Qed.

Lemma validated_row_no_LF (table : list (jsstring * jsstring)) (c : cue) :
  ~ In LF (dialogue_row (validateOne (entry_of table c))).
Proof.
  destruct (parseSRTTime_range (cue_from c))
    as (h1 & m1 & s1 & c1 & A1 & A2 & A3 & A4 & E1).
  destruct (parseSRTTime_range (cue_to c))
    as (h2 & m2 & s2 & c2 & B1 & B2 & B3 & B4 & E2).
  destruct (validateOne_parsed (entry_of table c) h1 m1 s1 c1 h2 m2 s2 c2)
    as (h & m & s & cc & V); auto.
  rewrite V. unfold dialogue_row, set_end, entry_of.
  cbn [start end_ style text]. rewrite E1.
  destruct (cleanAndFormatText_no_LF table (join [LF] (cue_lines c)))
    as [T1 T2].
  rewrite !in_app_iff. intros K.
  repeat destruct K as [K | K];
    try (simpl in K; intuition discriminate);
    try (now apply stamp_text_no_LF in K); contradiction.
Qed.

Lemma Sorted_numbers (l : list SubtitleEntry) :
  Sorted index_le l -> Sorted jsint_le (map number l).
Proof.
  induction 1 as [|x l _ IH Hd]; simpl; constructor; auto.
  destruct Hd; simpl; constructor. assumption.
Qed.

(** ** Conversion of a well-formed document *)

(** C1: a document of N well-formed cue blocks separated by empty lines
    (with either kind of line end, and white space around it, if any) is
    converted with success, the count is N, the output holds exactly N
    [Dialogue:] lines, one for each cue, and they stand in ascending order
    of index whatever the order of the cues in the document. *)
Theorem convertToASS_valid_document
        (table : list (jsstring * jsstring)) (cues : list cue)
        (head tail : jsstring) (crlf : bool) :
  cues <> [] -> Forall well_formed_cue cues -> blank head -> blank tail ->
  let subs :=
    validateSubtitleTiming (sort_subs (map (entry_of table) cues)) in
  convertToASS table (line_ends crlf (head ++ document cues ++ tail))
  = {| success := true; content := Some (writeASSFile subs); error := None;
       subtitleCount := Some (length cues) |}
  /\ dialogue_lines (writeASSFile subs) = map dialogue_row subs
  /\ length (dialogue_lines (writeASSFile subs)) = length cues
  /\ Permutation subs (map (fun c => validateOne (entry_of table c)) cues)
  /\ Permutation (map number subs)
                 (map (fun c => Some (Z.of_N (cue_number c))) cues)
  /\ Sorted jsint_le (map number subs).
Proof.
  intros Hne W Hh Ht subs.
  assert (P : Permutation subs
                (map (fun c => validateOne (entry_of table c)) cues)).
  { unfold subs, validateSubtitleTiming.
    rewrite (Permutation_map validateOne (sort_subs_perm _)), map_map.
    reflexivity. }
  assert (L : length subs = length cues).
  { rewrite (Permutation_length P). apply length_map. }
  assert (R : dialogue_lines (writeASSFile subs) = map dialogue_row subs).
  { unfold writeASSFile. rewrite dialogue_lines_header.
    apply dialogue_lines_rows.
    eapply Permutation_Forall; [symmetry; exact P|].
    apply Forall_map. apply Forall_forall. intros c _.
    apply validated_row_no_LF. }
  assert (Nb : map number subs
               = map number (sort_subs (map (entry_of table) cues))).
  { unfold subs, validateSubtitleTiming. rewrite map_map.
    apply map_ext. apply number_validateOne. }
  repeat split.
  - unfold convertToASS.
    rewrite (parseSRTFile_document table cues head tail crlf Hne W Hh Ht).
    fold subs. rewrite L.
    destruct (sort_subs (map (entry_of table) cues)) as [|x l] eqn:E.
    + apply (f_equal (@length SubtitleEntry)) in E.
      rewrite (Permutation_length (sort_subs_perm _)), length_map in E.
      destruct cues; [contradiction | discriminate].
    + reflexivity.
  - exact R.
  - now rewrite R, length_map.
  - exact P.
  - rewrite Nb.
    rewrite (Permutation_map number (sort_subs_perm _)), map_map.
    reflexivity.
  - rewrite Nb. apply Sorted_numbers, sort_subs_sorted.
    apply Forall_map. apply Forall_forall. intros c _. discriminate.
Qed.

Lemma sample_cues_well_formed : Forall well_formed_cue sample_cues.
Proof.
  assert (D : forall t, forallb is_digit t = true -> all_digits t)
    by apply all_digits_forallb.
  assert (T : forall l, starts_solid l -> ends_solid l ->
                        ~ In LF l -> ~ In CR l -> text_line l)
    by (intros; repeat split; assumption).
  repeat constructor; try (apply D; reflexivity); try discriminate;
    try (apply T; try reflexivity; simpl; intuition discriminate).
  - exists (str "00"), (str "00"), (str "05"), 44%N, (str "000").
    split; [|reflexivity]. unfold stamp_shape, is_sep.
    repeat split; simpl; auto; apply D; reflexivity.
  - exists (str "00"), (str "00"), (str "03"), 44%N, (str "000").
    split; [|reflexivity]. unfold stamp_shape, is_sep.
    repeat split; simpl; auto; apply D; reflexivity.
  - exists (str "00"), (str "00"), (str "01"), 44%N, (str "000").
    split; [|reflexivity]. unfold stamp_shape, is_sep.
    repeat split; simpl; auto; apply D; reflexivity.
  - exists (str "00"), (str "00"), (str "02"), 44%N, (str "500").
    split; [|reflexivity]. unfold stamp_shape, is_sep.
    repeat split; simpl; auto; apply D; reflexivity.
Qed.

Lemma convertToASS_valid_document_witness :
  subtitleCount
    (convertToASS encodingFixes_source
       (line_ends true (document sample_cues ++ [LF])))
  = Some 2
  /\ dialogue_lines
       (writeASSFile
          (validateSubtitleTiming
             (sort_subs (map (entry_of encodingFixes_source) sample_cues))))
     = [ str "Dialogue: 0,0:00:01.00,0:00:02.50,Default,,0,0,0,,First";
         str "Dialogue: 0,0:00:05.00,0:00:06.00,Italic,,0,0,0,,Hello\NWorld" ].
Proof.
  assert (B0 : blank []) by (split; [constructor | intros []]).
  assert (B1 : blank [LF]).
  { split; [repeat constructor | simpl; intuition discriminate]. }
  destruct (convertToASS_valid_document encodingFixes_source sample_cues
              [] [LF] true ltac:(discriminate) sample_cues_well_formed B0 B1)
    as (E & R & _).
  cbn [app] in E. rewrite E, R. split; reflexivity.
Defined.

(** ** Parsed records and the Timing Validator *)

(** Both timestamps of a parsed record are normalized. *)
Lemma parseSRTBlock_times (table : list (jsstring * jsstring))
      (block : jsstring) (e : SubtitleEntry) :
  parseSRTBlock table block = Some e ->
  exists h1 m1 s1 c1 h2 m2 s2 c2,
    ((h1 < 100)%N /\ (m1 < 60)%N /\ (s1 < 60)%N /\ (c1 < 100)%N)
    /\ ((h2 < 100)%N /\ (m2 < 60)%N /\ (s2 < 60)%N /\ (c2 < 100)%N)
    /\ start e = stamp_text h1 m1 s1 c1 /\ end_ e = stamp_text h2 m2 s2 c2.
Proof.
  unfold parseSRTBlock. fold (blockLines block).
  destruct (length (blockLines block) <? 3)%nat; [discriminate|].
  cbn [Number_parseInt].
  destruct (first_match timePatterns (nth 1 (blockLines block) []))
    as [m|]; [|discriminate].
  destruct (cleanAndFormatText table (join [LF] (skipn 2 (blockLines block)))).
  intros H. injection H as <-. cbn [start end_].
  destruct (parseSRTTime_range (cap 1 m))
    as (h1 & m1 & s1 & c1 & A1 & A2 & A3 & A4 & E1).
  destruct (parseSRTTime_range (cap 2 m))
    as (h2 & m2 & s2 & c2 & B1 & B2 & B3 & B4 & E2).
  exists h1, m1, s1, c1, h2, m2, s2, c2. repeat split; assumption.
Qed.

(** On every record [parseSRTBlock] returns, the validator compares end and
    start as hundredths of a second and, when the end is not later, sets it
    one second after the start. *)
Lemma validateOne_parsed_record (table : list (jsstring * jsstring))
      (block : jsstring) (e : SubtitleEntry) :
  parseSRTBlock table block = Some e ->
  exists h1 m1 s1 c1 h2 m2 s2 c2,
    start e = stamp_text h1 m1 s1 c1 /\ end_ e = stamp_text h2 m2 s2 c2
    /\ validateOne e
       = if (centis h2 m2 s2 c2 <=? centis h1 m1 s1 c1)%N
         then set_end e (stamp_of_centis (centis h1 m1 s1 c1 + 100))
         else e.
Proof.
  intros H. destruct (parseSRTBlock_times table block e H)
    as (h1 & m1 & s1 & c1 & h2 & m2 & s2 & c2
        & (A1 & A2 & A3 & A4) & (B1 & B2 & B3 & B4) & E1 & E2).
  exists h1, m1, s1, c1, h2, m2, s2, c2. repeat split; auto.
  destruct (centis h2 m2 s2 c2 <=? centis h1 m1 s1 c1)%N eqn:L.
  - apply N.leb_le in L. now apply (validateOne_extends e h1 m1 s1 c1 h2 m2 s2 c2).
  - apply N.leb_gt in L. now apply (validateOne_keeps e h1 m1 s1 c1 h2 m2 s2 c2).
Qed.

(** ** More on parseSRTTime *)

Lemma digits_value_app (a b : jsstring) :
  digits_value (a ++ b)
  = fold_left (fun a c => a * 10 + (c - 48))%N b (digits_value a).
Proof. unfold digits_value. apply fold_left_app. Qed.

Lemma pad2_value (n : N) : (n < 100)%N -> digits_value (pad2 n) = n.
Proof.
  intros H. destruct (pad2_spec n H) as (D & L & P).
  rewrite parseInt_digits in P; auto.
  - injection P as P. lia.
  - intros E. rewrite E in L. discriminate.
Qed.

Lemma stamp_text_value (hh mm ss cc : N) :
  (hh < 100)%N -> (mm < 60)%N -> (ss < 60)%N -> (cc < 100)%N ->
  stamp_shape (N_toString hh) (pad2 mm) (pad2 ss) 46 (pad2 cc)
  /\ stamp_value (N_toString hh) (pad2 mm) (pad2 ss) (pad2 cc)
     = stamp_text hh mm ss cc.
Proof.
  intros Hh Hm Hs Hc.
  destruct (hours_spec hh Hh) as (Dh & Lh & Ph).
  destruct (pad2_spec mm) as (Dm & Lm & Pm); [lia|].
  destruct (pad2_spec ss) as (Ds & Ls & Ps); [lia|].
  destruct (pad2_spec cc Hc) as (Dc & Lc & Pc).
  assert (Hshape : stamp_shape (N_toString hh) (pad2 mm) (pad2 ss) 46
                     (pad2 cc)).
  { unfold stamp_shape, is_sep. repeat split; auto; lia. }
  split; [exact Hshape|].
  destruct (padEnd0_fraction (pad2 cc) Dc) as (E & Dp & Lp); [lia|].
  assert (V : digits_value (padEnd0 3 (pad2 cc)) = (cc * 10)%N).
  { unfold padEnd0. rewrite Lc. cbn [Nat.sub repeat].
    rewrite digits_value_app, (pad2_value cc Hc). cbn [fold_left]. lia. }
  unfold stamp_value. rewrite E, Ph, Pm, Ps.
  rewrite (parseInt_digits _ Dp)
    by (intros K; rewrite K in Lp; discriminate).
  rewrite V. unfold jsint_ge.
  replace (60 <=? Z.of_N mm)%Z with false by (symmetry; apply Z.leb_gt; lia).
  replace (60 <=? Z.of_N ss)%Z with false by (symmetry; apply Z.leb_gt; lia).
  replace (1000 <=? Z.of_N (cc * 10))%Z with false
    by (symmetry; apply Z.leb_gt; lia).
  cbn [orb jsint_toString jsint_floor_div option_map].
  replace (Z.of_N (cc * 10) / 10)%Z with (Z.of_N cc)
    by (rewrite N2Z.inj_mul; symmetry; apply Z.div_mul; discriminate).
  rewrite !Z_toString_of_N. reflexivity.
Qed.

(** X1: whatever its argument, [parseSRTTime] returns a timestamp
    [H:MM:SS.cc] with hours below 100, minutes and seconds below 60 and
    hundredths below 100, and it returns such a timestamp unchanged: parsing
    the result again gives the result. *)
Theorem parseSRTTime_idempotent (t : jsstring) :
  (exists hh mm ss cc,
      (hh < 100)%N /\ (mm < 60)%N /\ (ss < 60)%N /\ (cc < 100)%N
      /\ parseSRTTime t = stamp_text hh mm ss cc)
  /\ parseSRTTime (parseSRTTime t) = parseSRTTime t.
Proof.
  destruct (parseSRTTime_range t)
    as (hh & mm & ss & cc & Hh & Hm & Hs & Hc & E).
  split; [now exists hh, mm, ss, cc|].
  rewrite E.
  destruct (stamp_text_value hh mm ss cc Hh Hm Hs Hc) as (Hshape & V).
  rewrite <- V at 2.
  pose proof (parseSRTTime_leftmost [] (N_toString hh) (pad2 mm) (pad2 ss)
                46 (pad2 cc) [] Hshape) as L.
  rewrite app_nil_r in L. cbn [app] in L.
  apply L; [now right | apply none_before_nil].
Qed.

(** A timestamp in front of [post] whose fraction takes all the digits it
    can. *)
Lemma stamp_extend (h m s : jsstring) (sep : N) (f post : jsstring) :
  stamp_shape h m s sep f ->
  exists f' post',
    stamp_of h m s sep f ++ post = stamp_of h m s sep f' ++ post'
    /\ stamp_shape h m s sep f' /\ frac_maximal f' post'.
Proof.
  intros (Hh & Lh & Hm & Lm & Hs & Ls & Hsep & Hf & Lf).
  destruct (frac_extend 3 f post Hf Lf) as (f' & post' & E & Hf' & Lf' & Hmax);
    [lia|].
  exists f', post'. split; [|split; [|exact Hmax]].
  - unfold stamp_of. rewrite <- !app_assoc. simpl. rewrite <- !app_assoc.
    simpl. rewrite <- !app_assoc. simpl. now rewrite E.
  - unfold stamp_shape. tauto.
Qed.



Lemma digit_not_colon (c : N) : is_digit c = true -> c <> 58%N.
Proof. intros H ->. discriminate. Qed.

(** No timestamp starts inside digits that stand before a two-digit hours
    field. *)
Lemma none_before_digits (d h m s : jsstring) (sep : N) (f post : jsstring) :
  all_digits d -> stamp_shape h m s sep f -> length h = 2 ->
  none_before d (stamp_of h m s sep f ++ post).
Proof.
  intros Dd (Dh & _) Lh p1 p2 E Hne (h' & m' & s' & sep' & f' & rest & Hs' & K).
  assert (D2 : all_digits p2).
  { subst d. apply Forall_app in Dd. tauto. }
  destruct Hs' as (Dh' & Lh' & _).
  destruct h as [|x [|y [|z h]]]; try discriminate.
  inversion Dh as [|? ? Hx Dh1]; subst. inversion Dh1 as [|? ? Hy _]; subst.
  apply digit_not_colon in Hx, Hy.
  destruct p2 as [|a p2]; [contradiction|].
  inversion D2 as [|? ? Ha D2']; subst.
  unfold stamp_of in K.
  destruct h' as [|u [|v [|w h']]]; simpl in Lh'; try lia; simpl in K.
  - destruct p2 as [|b p2]; simpl in K.
    + injection K as _ K. contradiction.
    + inversion D2' as [|? ? Hb _]; subst. apply digit_not_colon in Hb.
      injection K as _ K. contradiction.
  - destruct p2 as [|b [|c p2]]; simpl in K.
    + injection K as _ _ K. contradiction.
    + injection K as _ _ K. contradiction.
    + inversion D2' as [|? ? _ D3]; subst. inversion D3 as [|? ? Hc _]; subst.
      apply digit_not_colon in Hc. injection K as _ _ K. contradiction.
Qed.

(** X3: digits that stand in front of a two-digit hours field are dropped:
    hours of three digits or more are read as their last two digits. *)
Theorem parseSRTTime_long_hours (d h m s : jsstring) (sep : N)
        (f post : jsstring) :
  all_digits d -> stamp_shape h m s sep f -> length h = 2 ->
  parseSRTTime (d ++ stamp_of h m s sep f ++ post)
  = parseSRTTime (stamp_of h m s sep f ++ post).
Proof.
  intros Dd Hshape Lh.
  pose proof (none_before_digits d h m s sep f post Dd Hshape Lh) as Hpre.
  destruct (stamp_extend h m s sep f post Hshape)
    as (f' & post' & E & Hshape' & Hmax).
  rewrite E in *.
  rewrite (parseSRTTime_leftmost d h m s sep f' post' Hshape' Hmax Hpre).
  symmetry.
  apply (parseSRTTime_leftmost [] h m s sep f' post' Hshape' Hmax).
  apply none_before_nil.
Qed.

Lemma parseSRTTime_long_hours_witness :
  parseSRTTime (str "123:45:06,000") = str "23:45:06.00".
Proof.
  apply (parseSRTTime_long_hours (str "1") (str "23") (str "45") (str "06")
           44%N (str "000") []).
  - repeat constructor.
  - unfold stamp_shape, all_digits, is_sep.
    repeat split; simpl; auto; repeat constructor.
  - reflexivity.
Defined.

(** ** More on validateSubtitleTiming *)

Lemma hours_read_spec (h : N) :
  (h <= 100)%N -> parseInt (N_toString h) = Some (Z.of_N h).
Proof.
  intros H.
  assert (C : forallb hours_read (N_below 101) = true)
    by (vm_compute; reflexivity).
  apply jsint_eqb_eq. apply (N_below_check _ _ C). lia.
Qed.

Lemma toSeconds_stamp_text_wide (h m s c : N) :
  (h <= 100)%N -> (m < 60)%N -> (s < 60)%N -> (c < 100)%N ->
  exists q,
    toSeconds (stamp_text h m s c) = Some q
    /\ (q == Z.of_N (centis h m s c) # 100)%Q.
Proof.
  intros Hh Hm Hs Hc.
  pose proof (N_toString_digits h) as Dh.
  pose proof (hours_read_spec h Hh) as Ph.
  destruct (pad2_spec m) as (Dm & _ & Pm); [lia|].
  destruct (pad2_spec s) as (Ds & _ & _); [lia|].
  destruct (pad2_spec c) as (Dc & _ & _); [lia|].
  assert (colon : is_digit 58 = false) by reflexivity.
  unfold toSeconds, stamp_text.
  change (str ":") with [58%N]. rewrite split_str_char. cbn [app].
  rewrite split_char_app by (now apply all_digits_not_in).
  rewrite split_char_app by (now apply all_digits_not_in).
  rewrite split_char_none.
  2:{ rewrite !in_app_iff. intros [K | [K | K]].
      - now apply (all_digits_not_in 58 _ Ds).
      - simpl in K. destruct K as [K | []]. discriminate.
      - now apply (all_digits_not_in 58 _ Dc). }
  unfold parseInt_at, parseFloat_at, at_index. cbn [nth_error].
  rewrite Ph, Pm, (parseFloat_seconds s c Hs Hc).
  cbn [jsnum_of_int option_map jsnum_mul jsnum_add].
  eexists. split; [reflexivity|].
  unfold centis, Qeq, Qplus, Qmult, inject_Z. cbn [Qnum Qden]. lia.
Qed.

Lemma centis_fields (t : N) :
  centis (t / 360000) (t / 6000 mod 60) (t / 100 mod 60) (t mod 100) = t.
Proof.
  unfold centis.
  change 360000%N with (100 * 60 * 60)%N. change 6000%N with (100 * 60)%N.
  rewrite <- !N.Div0.div_div.
  pose proof (N.Div0.div_mod t 100) as E1.
  pose proof (N.Div0.div_mod (t / 100) 60) as E2.
  pose proof (N.Div0.div_mod (t / 100 / 60) 60) as E3.
  lia.
Qed.

Lemma toSeconds_stamp_of_centis (t : N) :
  (t < 36000100)%N ->
  exists q,
    toSeconds (stamp_of_centis t) = Some q /\ (q == Z.of_N t # 100)%Q.
Proof.
  intros H. unfold stamp_of_centis.
  destruct (toSeconds_stamp_text_wide (t / 360000) (t / 6000 mod 60)
              (t / 100 mod 60) (t mod 100)) as (q & T & E).
  - assert ((t / 360000 < 101)%N)
      by (apply N.Div0.div_lt_upper_bound; lia).
    lia.
  - apply N.mod_lt. discriminate.
  - apply N.mod_lt. discriminate.
  - apply N.mod_lt. discriminate.
  - exists q. split; [exact T|]. now rewrite centis_fields in E.
Qed.

Lemma centis_bound (h m s c : N) :
  (h < 100)%N -> (m < 60)%N -> (s < 60)%N -> (c < 100)%N ->
  (centis h m s c < 36000000)%N.
Proof. unfold centis. lia. Qed.

Lemma ends_later_keeps (sub : SubtitleEntry) :
  ends_later sub -> validateOne sub = sub.
Proof.
  intros (a & b & Ta & Tb & L). unfold validateOne.
  rewrite Ta, Tb. cbn [jsnum_le].
  destruct (Qle_bool b a) eqn:K; [|reflexivity].
  apply Qle_bool_iff in K. exfalso. apply (Qlt_not_le _ _ L K).
Qed.

(** After the loop body, a record with parsed times ends later than it
    starts. *)
Lemma validateOne_later (sub : SubtitleEntry) :
  parsed_times sub -> ends_later (validateOne sub).
Proof.
  intros (h1 & m1 & s1 & c1 & h2 & m2 & s2 & c2
          & (Hh1 & Hm1 & Hs1 & Hc1) & (Hh2 & Hm2 & Hs2 & Hc2) & Es & Ee).
  destruct (toSeconds_stamp_text h1 m1 s1 c1) as (q1 & T1 & E1); auto.
  destruct (toSeconds_stamp_text h2 m2 s2 c2) as (q2 & T2 & E2); auto.
  destruct (N.leb_spec (centis h2 m2 s2 c2) (centis h1 m1 s1 c1)) as [L | L].
  - rewrite (validateOne_extends sub h1 m1 s1 c1 h2 m2 s2 c2); auto.
    pose proof (centis_bound h1 m1 s1 c1 Hh1 Hm1 Hs1 Hc1) as B.
    destruct (toSeconds_stamp_of_centis (centis h1 m1 s1 c1 + 100))
      as (q & T & E); [lia|].
    exists q1, q. cbn [set_end start end_]. rewrite Es.
    repeat split; auto. rewrite E1, E.
    unfold Qlt. cbn [Qnum Qden]. lia.
  - rewrite (validateOne_keeps sub h1 m1 s1 c1 h2 m2 s2 c2); auto.
    exists q1, q2. rewrite Es, Ee. repeat split; auto. rewrite E1, E2.
    unfold Qlt. cbn [Qnum Qden]. lia.
Qed.

Lemma validateOne_same_but_end (sub : SubtitleEntry) :
  same_but_end sub (validateOne sub).
Proof.
  unfold validateOne, same_but_end.
  destruct (jsnum_le (toSeconds (end_ sub)) (toSeconds (start sub)));
    [|tauto].
  destruct (toSeconds (start sub)); cbn [set_end number start text style
                                          originalText]; tauto.
Qed.

(** X4: a list of records with parsed times, every one of which ends later
    than it starts, is returned as it is. *)
Theorem validateSubtitleTiming_keeps (subtitles : list SubtitleEntry) :
  Forall (fun sub => parsed_times sub /\ ends_later sub) subtitles ->
  validateSubtitleTiming subtitles = subtitles.
Proof.
  unfold validateSubtitleTiming.
  induction 1 as [|sub l [_ H] _ IH]; [reflexivity|].
  cbn [map]. now rewrite IH, (ends_later_keeps sub H).
Qed.

Lemma sample_timed_later : parsed_times sample_timed /\ ends_later sample_timed.
Proof.
  split.
  - exists 0%N, 0%N, 1%N, 0%N, 0%N, 0%N, 2%N, 50%N.
    repeat split; reflexivity.
  - do 2 eexists. split; [vm_compute; reflexivity|].
    split; vm_compute; reflexivity.
Qed.

Lemma validateSubtitleTiming_keeps_witness :
  validateSubtitleTiming [sample_timed] = [sample_timed].
Proof.
  apply (validateSubtitleTiming_keeps [sample_timed]).
  constructor; [exact sample_timed_later | constructor].
Defined.

(** X5: on records with parsed times, the timing validator changes nothing
    but ends, leaves every record with an end later than its start, and a
    second pass changes nothing more. *)
Theorem validateSubtitleTiming_orders (subtitles : list SubtitleEntry) :
  Forall parsed_times subtitles ->
  Forall2 same_but_end subtitles (validateSubtitleTiming subtitles)
  /\ Forall ends_later (validateSubtitleTiming subtitles)
  /\ validateSubtitleTiming (validateSubtitleTiming subtitles)
     = validateSubtitleTiming subtitles.
Proof.
  unfold validateSubtitleTiming.
  induction 1 as [|sub l H _ (IH1 & IH2 & IH3)]; cbn [map].
  - repeat split; constructor.
  - pose proof (validateOne_later sub H) as L.
    split; [|split].
    + constructor; [apply validateOne_same_but_end | exact IH1].
    + now constructor.
    + now rewrite IH3, (ends_later_keeps _ L).
Qed.

Lemma validateSubtitleTiming_orders_witness :
  Forall ends_later (validateSubtitleTiming [sample_entry]).
Proof.
  apply (validateSubtitleTiming_orders [sample_entry]).
  constructor; [|constructor].
  exists 0%N, 0%N, 5%N, 0%N, 0%N, 0%N, 3%N, 0%N. repeat split; reflexivity.
Defined.

(** ** Every document *)


(** Every record of [parseSRTFile] comes from a block. *)
Lemma parseSRTFile_parsed (table : list (jsstring * jsstring))
      (srtContent : jsstring) (e : SubtitleEntry) :
  In e (parseSRTFile table srtContent) ->
  exists block, parseSRTBlock table block = Some e.
Proof.
  unfold parseSRTFile, parseSRTFile_try.
  destruct (is_empty (trim srtContent)); [contradiction|].
  intros H. apply (Permutation_in _ (sort_subs_perm _)) in H.
  apply in_flat_map in H. destruct H as (block & _ & H).
  exists block. unfold parsedBlocks in H.
  destruct (is_empty (trim block)); [contradiction|].
  destruct (parseSRTBlock table block) as [e'|]; [|contradiction].
  destruct H as [-> | []]. reflexivity.
Qed.


(** The records of the sample document carry safe indexes. *)
Lemma sample_document_safe :
  Forall safe_index (parseSRTFile encodingFixes_source (document sample_cues)).
Proof.
  assert (E : map number
                (parseSRTFile encodingFixes_source (document sample_cues))
              = [Some 1%Z; Some 2%Z]) by (vm_compute; reflexivity).
  destruct (parseSRTFile encodingFixes_source (document sample_cues))
    as [|e1 [|e2 [|e3 l]]]; try discriminate.
  injection E as E1 E2.
  constructor; [|constructor; [|constructor]].
  - exists 1%Z. split; [exact E1 | split; reflexivity].
  - exists 2%Z. split; [exact E2 | split; reflexivity].
Qed.



(** X7: for a document whose records all carry a safe integer as index,
    every record that [convertToASS] writes out (the records of
    [parseSRTFile] after [validateSubtitleTiming]) ends later than it
    starts. *)
Theorem convertToASS_ends_later (table : list (jsstring * jsstring))
        (srtContent : jsstring) :
  Forall safe_index (parseSRTFile table srtContent) ->
  Forall ends_later (validateSubtitleTiming (parseSRTFile table srtContent))
  /\ (forall c, content (convertToASS table srtContent) = Some c ->
                c = writeASSFile
                      (validateSubtitleTiming
                         (parseSRTFile table srtContent))).
Proof.
  intros _. split.
  - unfold validateSubtitleTiming. apply Forall_map, Forall_forall.
    intros x Hx.
    destruct (parseSRTFile_parsed table srtContent x Hx) as (block & Hb).
    apply validateOne_later. exact (parseSRTBlock_times table block x Hb).
  - unfold convertToASS. intros c.
    destruct (length (parseSRTFile table srtContent) =? 0)%nat;
      cbn [content]; intros H; [discriminate | now injection H as <-].
Qed.

Lemma convertToASS_ends_later_witness :
  Forall ends_later
    (validateSubtitleTiming
       (parseSRTFile encodingFixes_source (document sample_cues))).
Proof.
  exact (proj1 (convertToASS_ends_later encodingFixes_source
                  (document sample_cues) sample_document_safe)).
Defined.

(** ** Documents of white space, and line ends *)

Lemma trim_empty (s : jsstring) : is_empty (trim s) = forallb is_ws s.
Proof.
  destruct (forallb is_ws s) eqn:E.
  - rewrite forallb_forall in E. apply Forall_forall in E.
    unfold trim. rewrite <- (app_nil_r s), (trimStart_blank s [] E).
    reflexivity.
  - destruct (trim s) as [|c u] eqn:T; [|reflexivity]. exfalso.
    assert (X : exists x, In x s /\ is_ws x = false).
    { clear T. induction s as [|x s IH]; [discriminate|].
      simpl in E. destruct (is_ws x) eqn:Hx.
      - destruct (IH E) as (y & Hy & Wy). exists y. split; [now right | auto].
      - exists x. split; [now left | auto]. }
    destruct X as (x & Hx & Wx).
    pose proof (trim_keeps s x Hx Wx) as K. now rewrite T in K.
Qed.

(** X8: a document of white space only (the empty document too) makes
    [parseSRTFile] throw its empty-file error, which it catches itself, and
    [convertToASS] answers with the no-valid-subtitles failure. *)
Theorem convertToASS_whitespace (table : list (jsstring * jsstring))
        (srtContent : jsstring) :
  Forall (fun c => is_ws c = true) srtContent ->
  parseSRTFile_try table srtContent
  = Thrown (str "File is empty or contains no readable content")
  /\ parseSRTFile table srtContent = []
  /\ convertToASS table srtContent = noValidSubtitles.
Proof.
  intros H.
  assert (E : is_empty (trim srtContent) = true).
  { rewrite trim_empty. apply forallb_forall. now apply Forall_forall. }
  unfold convertToASS, parseSRTFile, parseSRTFile_try. rewrite E.
  repeat split.
Qed.

Lemma convertToASS_whitespace_witness :
  convertToASS encodingFixes_source (str " " ++ [CR; LF; 9; LF]%N)
  = noValidSubtitles.
Proof.
  apply (convertToASS_whitespace encodingFixes_source
           (str " " ++ [CR; LF; 9; LF]%N)).
  repeat constructor.
Defined.

Lemma forallb_ws_line_ends (s : jsstring) :
  forallb is_ws (line_ends true s) = forallb is_ws s.
Proof.
  induction s as [|x s IH]; [reflexivity|].
  cbn [line_ends flat_map] in *. rewrite forallb_app, IH.
  destruct (x =? LF)%N eqn:E.
  - apply N.eqb_eq in E. subst. reflexivity.
  - cbn [forallb]. now rewrite andb_true_r.
Qed.

Lemma forallb_ws_cr_ends (s : jsstring) :
  forallb is_ws (cr_ends s) = forallb is_ws s.
Proof.
  induction s as [|x s IH]; [reflexivity|].
  unfold cr_ends in *. cbn [map forallb]. rewrite IH.
  destruct (x =? LF)%N eqn:E; [|reflexivity].
  apply N.eqb_eq in E. subst. reflexivity.
Qed.

Lemma cr_ends_no_LF (s : jsstring) : ~ In LF (cr_ends s).
Proof.
  intros K. apply in_map_iff in K. destruct K as (x & E & _).
  destruct (x =? LF)%N eqn:X; [discriminate|].
  apply N.eqb_neq in X. congruence.
Qed.

(** Reading [\r] as [\n] undoes lone carriage returns. *)
Lemma replace_all_f_cr_ends (s : jsstring) :
  ~ In CR s ->
  forall fuel : nat,
    length (cr_ends s) < fuel ->
    replace_all_f fuel false (lit [CR]) [LF] (cr_ends s) = s.
Proof.
  induction s as [|x s IH]; intros H fuel L;
    (destruct fuel as [|fuel]; [simpl in L; lia|]); [reflexivity|].
  assert (Hs : ~ In CR s) by (intros K; apply H; now right).
  cbn [cr_ends map] in *. fold (cr_ends s) in *. cbn [replace_all_f].
  unfold match_here. rewrite mtch_lit. cbn [length] in L.
  destruct (x =? LF)%N eqn:E.
  - apply N.eqb_eq in E. subst x.
    cbn [starts_with skipn length]. rewrite N.eqb_refl. cbn [andb].
    replace (length (cr_ends s) <? S (length (cr_ends s))) with true
      by (symmetry; apply Nat.ltb_lt; lia).
    cbn [app]. f_equal. apply IH; [exact Hs | lia].
  - cbn [starts_with].
    replace (CR =? x)%N with false.
    + cbn [andb]. f_equal. apply IH; [exact Hs | lia].
    + symmetry. apply N.eqb_neq. intros <-. apply H. now left.
Qed.

(** X9: a document without carriage returns is converted the same whether
    its line ends are written as line feeds, as carriage return and line
    feed, or as lone carriage returns. *)
Theorem convertToASS_line_ends (table : list (jsstring * jsstring))
        (srtContent : jsstring) :
  ~ In CR srtContent ->
  convertToASS table (line_ends true srtContent)
  = convertToASS table srtContent
  /\ convertToASS table (cr_ends srtContent) = convertToASS table srtContent.
Proof.
  intros C.
  assert (P0 : replace_all false (lit [CR]) [LF]
                 (replace_all false (lit [CR; LF]) [LF] srtContent)
               = srtContent).
  { rewrite (replace_all_absent_char CR [LF] [LF] _ C).
    exact (replace_all_absent_char CR [] [LF] _ C). }
  assert (P1 : parseSRTFile table (line_ends true srtContent)
               = parseSRTFile table srtContent).
  { unfold parseSRTFile, parseSRTFile_try.
    rewrite !trim_empty, forallb_ws_line_ends, P0.
    rewrite (replace_all_line_ends true _ C).
    now rewrite (replace_all_absent_char CR [] [LF] _ C). }
  assert (P2 : parseSRTFile table (cr_ends srtContent)
               = parseSRTFile table srtContent).
  { unfold parseSRTFile, parseSRTFile_try.
    rewrite !trim_empty, forallb_ws_cr_ends, P0.
    unfold replace_all at 2.
    rewrite (replace_all_f_absent _ [CR; LF] [LF] (cr_ends srtContent)).
    - unfold replace_all at 1.
      rewrite (replace_all_f_cr_ends srtContent C) by lia. reflexivity.
    - intros (pre & post & E). apply (cr_ends_no_LF srtContent).
      rewrite E, in_app_iff. right. right. now left. }
  unfold convertToASS. rewrite P1, P2. split; reflexivity.
Qed.

Lemma convertToASS_line_ends_witness :
  convertToASS encodingFixes_source (line_ends true (document sample_cues))
  = convertToASS encodingFixes_source (document sample_cues)
  /\ convertToASS encodingFixes_source (cr_ends (document sample_cues))
     = convertToASS encodingFixes_source (document sample_cues).
Proof.
  apply (convertToASS_line_ends encodingFixes_source (document sample_cues)).
  vm_compute. intuition discriminate.
Defined.

(** ** The lines of a block *)

Lemma matches_lit (p : jsstring) :
  forall (y : jsstring) (cs cs' : caps),
    matches false (lit p) y cs cs' -> y = p.
Proof.
  induction p as [|c p IH]; intros y cs cs' M; cbn [lit] in M.
  - now inversion M.
  - inversion M as [| | |r1 r2 w1 w2 cs0 cs1 cs2 M1 M2|]; subst.
    inversion M1 as [|k x cs0 Hx| | |]; subst.
    unfold cls_match, char_eq in Hx. apply N.eqb_eq in Hx. subst x.
    cbn [app]. f_equal. eapply IH; eauto.
Qed.

(** A time line matched by a range pattern holds what its arrow matches. *)
Lemma range_arrow_in (arrow : regex) (c : N) :
  (forall y cs cs', matches false arrow y cs cs' -> In c y) ->
  forall (tl : jsstring) (m : caps),
    exec false (rangePattern arrow) tl = Some m -> In c tl.
Proof.
  intros Harrow tl m E. apply exec_sound in E.
  destruct E as (pre & w & rest & -> & M).
  cbv [rangePattern rseq] in M.
  inversion M as [| | |r1 r2 w1 w2' cs0 cs1 cs2 M1 M2|]; subst.
  inversion M2 as [| | |r3 r4 w2 w3' cs3 cs4 cs5 M3 M4|]; subst.
  inversion M4 as [| | |r5 r6 w3 w4' cs6 cs7 cs8 M5 M6|]; subst.
  apply Harrow in M5. rewrite !in_app_iff. tauto.
Qed.




Lemma exec_none_without (arrow : regex) (c : N) (tl : jsstring) :
  (forall y cs cs', matches false arrow y cs cs' -> In c y) ->
  ~ In c tl -> exec false (rangePattern arrow) tl = None.
Proof.
  intros H K. destruct (exec false (rangePattern arrow) tl) as [m|] eqn:E;
    [|reflexivity].
  exfalso. apply K. eapply range_arrow_in; eauto.
Qed.


Lemma arrow_lit_hyphen (y : jsstring) (cs cs' : caps) :
  matches false (lit (str "-->")) y cs cs' -> In 45%N y.
Proof. intros M. apply matches_lit in M. subst. simpl. tauto. Qed.

Lemma arrow_char_in (c : N) (y : jsstring) (cs cs' : caps) :
  matches false (RAtom (CChar c)) y cs cs' -> In c y.
Proof.
  intros M. inversion M as [|k x cs0 Hx| | |]; subst.
  unfold cls_match, char_eq in Hx. apply N.eqb_eq in Hx. subst. now left.
Qed.




(** A block made of an index line, a time line and lines of text. *)
Lemma parseSRTBlock_rows (table : list (jsstring * jsstring))
      (idx tl : jsstring) (lines : list jsstring) :
  Forall text_line (idx :: tl :: lines) ->
  parseSRTBlock table (join [LF] (idx :: tl :: lines))
  = match lines, first_match timePatterns tl with
    | _ :: _, Some m =>
        Some (entry_rows table idx (cap 1 m) (cap 2 m) lines)
    | _, _ => None
    end.
Proof.
  intros R. unfold parseSRTBlock.
  fold (blockLines (join [LF] (idx :: tl :: lines))).
  rewrite (blockLines_rows (idx :: tl :: lines)); auto; [|discriminate].
  destruct lines as [|l ls]; [reflexivity|].
  cbn [length Nat.ltb Nat.leb nth Number_parseInt skipn].
  destruct (first_match timePatterns tl) as [m|]; [|reflexivity].
  unfold entry_rows.
  destruct (cleanAndFormatText table (join [LF] (l :: ls))). reflexivity.
Qed.



Lemma is_stamp_check (t : jsstring) (cs : caps) :
  match_here false timePattern t = Some ([], cs) -> is_stamp t.
Proof.
  intros H. apply match_here_sound in H. destruct H as (w & E & M).
  rewrite app_nil_r in E. subst w. apply timePattern_inv in M.
  destruct M as (h & m & s & sep & f & Hshape & E & _).
  now exists h, m, s, sep, f.
Qed.

Ltac stamp_tac := eapply is_stamp_check; vm_compute; reflexivity.

Ltac text_line_tac :=
  repeat split; try reflexivity; simpl; intuition discriminate.


(** X11: a block whose second line holds neither a hyphen nor the arrow
    U+2192 is rejected, whatever else the line holds. *)
Theorem parseSRTBlock_no_separator (table : list (jsstring * jsstring))
        (idx tl : jsstring) (lines : list jsstring) :
  Forall text_line (idx :: tl :: lines) ->
  ~ In 45%N tl -> ~ In 8594%N tl ->
  parseSRTBlock table (join [LF] (idx :: tl :: lines)) = None.
Proof.
  intros R H1 H2. rewrite (parseSRTBlock_rows table idx tl lines R).
  assert (E : first_match timePatterns tl = None).
  { unfold first_match, timePatterns.
    rewrite (exec_none_without _ 45%N tl arrow_lit_hyphen H1).
    rewrite (exec_none_without _ 8594%N tl (arrow_char_in 8594) H2).
    unfold rchar. change (N_of_ascii "-") with 45%N.
    now rewrite (exec_none_without _ 45%N tl (arrow_char_in 45) H1). }
  rewrite E. destruct lines; reflexivity.
Qed.

Lemma parseSRTBlock_no_separator_witness :
  parseSRTBlock encodingFixes_source
    (str "1" ++ [LF] ++ str "00:00:01,000 00:00:02,000" ++ [LF] ++ str "Hi")
  = None.
Proof.
  apply (parseSRTBlock_no_separator encodingFixes_source (str "1")
           (str "00:00:01,000 00:00:02,000") [str "Hi"]).
  - repeat constructor; text_line_tac.
  - simpl. intuition discriminate.
  - simpl. intuition discriminate.
Defined.

Lemma cons_head_length (c : N) (l : list jsstring) :
  l <> [] -> length (cons_head c l) = length l.
Proof. destruct l; [contradiction | reflexivity]. Qed.

Lemma split_char_length (c : N) (s : jsstring) :
  length (split_char c s) = S (count_occ N.eq_dec s c).
Proof.
  induction s as [|x s IH]; [reflexivity|].
  cbn [split_char count_occ].
  destruct (N.eq_dec x c) as [-> | Hne].
  - rewrite N.eqb_refl. cbn [length]. now rewrite IH.
  - replace (c =? x)%N with false
      by (symmetry; apply N.eqb_neq; congruence).
    rewrite cons_head_length; [exact IH | apply split_char_nonempty].
Qed.

Lemma count_occ_trim (s : jsstring) (c : N) :
  count_occ N.eq_dec (trim s) c <= count_occ N.eq_dec s c.
Proof.
  destruct (trim_substring s) as (a & b & E). rewrite E at 2.
  rewrite !count_occ_app. lia.
Qed.

(** X12: a block that holds fewer than two line feeds, so fewer than three
    lines, is rejected. *)
Theorem parseSRTBlock_short_block (table : list (jsstring * jsstring))
        (block : jsstring) :
  count_occ N.eq_dec block LF < 2 -> parseSRTBlock table block = None.
Proof.
  intros H. unfold parseSRTBlock. fold (blockLines block).
  assert (L : length (blockLines block) < 3).
  { unfold blockLines.
    eapply Nat.le_lt_trans; [apply filter_length_le|].
    rewrite length_map, split_str_char, split_char_length.
    pose proof (count_occ_trim block LF). lia. }
  apply Nat.ltb_lt in L. now rewrite L.
Qed.

Lemma parseSRTBlock_short_block_witness :
  parseSRTBlock encodingFixes_source
    (str "1" ++ [LF] ++ str "00:00:01,000 --> 00:00:02,000")
  = None.
Proof.
  apply (parseSRTBlock_short_block encodingFixes_source
           (str "1" ++ [LF] ++ str "00:00:01,000 --> 00:00:02,000")).
  vm_compute. lia.
Defined.

(** ** The index line *)

Lemma read_digits_stop (acc : jsint) (rest : jsstring) :
  match rest with [] => True | c :: _ => is_digit c = false end ->
  read_digits 10 acc rest = acc.
Proof.
  destruct rest as [|c rest]; [reflexivity|]. intros H.
  cbn [read_digits]. unfold digit_val. rewrite H.
  destruct ((97 <=? c) && (c <=? 102))%N eqn:A.
  - apply andb_true_iff in A. destruct A as [A1 A2].
    apply N.leb_le in A1, A2.
    replace (Z.of_N (c - 87) <? 10)%Z with false; [reflexivity|].
    symmetry. apply Z.ltb_ge. lia.
  - destruct ((65 <=? c) && (c <=? 70))%N eqn:B; [|reflexivity].
    apply andb_true_iff in B. destruct B as [B1 B2].
    apply N.leb_le in B1, B2.
    replace (Z.of_N (c - 55) <? 10)%Z with false; [reflexivity|].
    symmetry. apply Z.ltb_ge. lia.
Qed.

Lemma read_digits_app (d rest : jsstring) :
  all_digits d ->
  match rest with [] => True | c :: _ => is_digit c = false end ->
  forall acc, read_digits 10 acc (d ++ rest) = read_digits 10 acc d.
Proof.
  intros Hd Hr. induction Hd as [|c d Hc _ IH]; intros acc.
  - cbn [app]. now rewrite read_digits_stop.
  - cbn [app read_digits]. rewrite (digit_val_digit c Hc).
    apply digit_range in Hc.
    replace (Z.of_N (c - 48) <? 10)%Z with true
      by (symmetry; apply Z.ltb_lt; lia).
    apply IH.
Qed.

(** [parseInt] reads the digits at the head of a line. *)
Lemma parseInt_prefix (d rest : jsstring) :
  all_digits d -> d <> [] -> index_rest d rest ->
  parseInt (d ++ rest) = Some (Z.of_N (digits_value d)).
Proof.
  intros Hd Hne Hr.
  assert (Hr' : match rest with [] => True | c :: _ => is_digit c = false end).
  { destruct rest; [exact I | apply Hr]. }
  rewrite <- (parseInt_digits d Hd Hne).
  destruct d as [|c d]; [contradiction|].
  inversion Hd as [|? ? Hc Hd']; subst.
  pose proof (proj1 (digit_range c) Hc) as Rc.
  unfold parseInt. cbn [app trimStart]. rewrite (digit_not_ws c Hc).
  replace (c =? 45)%N with false by (symmetry; apply N.eqb_neq; lia).
  replace (c =? 43)%N with false by (symmetry; apply N.eqb_neq; lia).
  destruct d as [|b d].
  - cbn [app]. destruct rest as [|x rest]; [reflexivity|].
    destruct Hr as [Dx Hx].
    destruct ((c =? 48) && ((x =? 120) || (x =? 88)))%N eqn:K.
    + exfalso. apply andb_true_iff in K. destruct K as [K1 K2].
      apply N.eqb_eq in K1. subst c. destruct (Hx eq_refl) as [X1 X2].
      apply orb_true_iff in K2. destruct K2 as [K2 | K2];
        apply N.eqb_eq in K2; contradiction.
    + f_equal. apply (read_digits_app [c] (x :: rest)); [exact Hd | exact Dx].
  - inversion Hd' as [|? ? Hb _]; subst.
    pose proof (proj1 (digit_range b) Hb) as Rb.
    cbn [app].
    replace (b =? 120)%N with false by (symmetry; apply N.eqb_neq; lia).
    replace (b =? 88)%N with false by (symmetry; apply N.eqb_neq; lia).
    rewrite andb_false_r. f_equal.
    exact (read_digits_app (c :: b :: d) rest Hd Hr' None).
Qed.

(** X13: when the first line of a parsed block starts with digits and goes
    on with something else, the index of the record is the number these
    digits write: [parseInt] stops at the first character that is no
    digit. *)
Theorem parseSRTBlock_index_prefix (table : list (jsstring * jsstring))
        (block d rest : jsstring) (e : SubtitleEntry) :
  parseSRTBlock table block = Some e ->
  nth 0 (blockLines block) [] = d ++ rest ->
  all_digits d -> d <> [] -> (digits_value d < 2 ^ 53)%N ->
  index_rest d rest ->
  number e = Some (Z.of_N (digits_value d)).
Proof.
  intros H E Hd Hne _ Hr.
  rewrite (parseSRTBlock_number table block e H), E.
  now apply parseInt_prefix.
Qed.

Lemma parseSRTBlock_index_prefix_witness :
  number (entry_rows encodingFixes_source (str "12. Intro")
            (str "00:00:01,000") (str "00:00:02,000") [str "Hi"])
  = Some 12%Z.
Proof.
  apply (parseSRTBlock_index_prefix encodingFixes_source sample_block
           (str "12") (str ". Intro")).
  - vm_compute. reflexivity.
  - vm_compute. reflexivity.
  - repeat constructor.
  - discriminate.
  - vm_compute. reflexivity.
  - split; [reflexivity | discriminate].
Defined.

(** ** Stray blocks *)

Lemma count_occ_absent (c : N) (s : jsstring) :
  ~ In c s -> count_occ N.eq_dec s c = 0.
Proof. intros H. now apply count_occ_not_In. Qed.

Lemma stray_rows_short (rows : list jsstring) :
  length rows <= 2 -> Forall text_line rows ->
  count_occ N.eq_dec (join [LF] rows) LF < 2.
Proof.
  intros L R. destruct rows as [|x [|y [|z rows]]]; simpl in L; try lia.
  - simpl. lia.
  - inversion R as [|? ? (_ & _ & Hx & _) _]; subst.
    cbn [join]. rewrite (count_occ_absent LF x Hx). lia.
  - inversion R as [|? ? (_ & _ & Hx & _) R1]; subst.
    inversion R1 as [|? ? (_ & _ & Hy & _) _]; subst.
    cbn [join]. rewrite !count_occ_app.
    rewrite (count_occ_absent LF x Hx), (count_occ_absent LF y Hy).
    simpl. lia.
Qed.

Lemma block_of_facts (b : cue + list jsstring) :
  well_formed_block b ->
  starts_solid (block_of b) /\ ends_solid (block_of b)
  /\ solid (block_of b) /\ ~ In CR (block_of b).
Proof.
  destruct b as [c | rows]; [apply cue_block_facts|].
  intros (Hne & _ & R). cbn [block_of].
  destruct (block_trimmed rows Hne R) as [S1 S2].
  repeat split; auto.
  - now apply solid_rows.
  - intros K. apply in_join in K. destruct K as [K | (x & Hx & K)].
    + simpl in K. intuition discriminate.
    + rewrite Forall_forall in R. destruct (R x Hx) as (_ & _ & _ & Hc).
      contradiction.
Qed.

Lemma parsedBlocks_block (table : list (jsstring * jsstring))
      (b : cue + list jsstring) :
  well_formed_block b ->
  parsedBlocks table (block_of b)
  = map (entry_of table) (cues_of [b]).
Proof.
  destruct b as [c | rows]; intros W.
  - cbn [cues_of flat_map app map]. now apply parsedBlocks_cue.
  - destruct W as (_ & L & R). cbn [cues_of flat_map app map block_of].
    unfold parsedBlocks.
    rewrite (parseSRTBlock_short_block table _ (stray_rows_short rows L R)).
    destruct (is_empty (trim (join [LF] rows))); reflexivity.
Qed.

Lemma parsedBlocks_blocks (table : list (jsstring * jsstring))
      (bs : list (cue + list jsstring)) :
  Forall well_formed_block bs ->
  flat_map (parsedBlocks table) (map block_of bs)
  = map (entry_of table) (cues_of bs).
Proof.
  induction 1 as [|b bs W _ IH]; [reflexivity|].
  cbn [map flat_map]. rewrite (parsedBlocks_block table b W), IH.
  unfold cues_of. cbn [flat_map]. now rewrite app_nil_r, map_app.
Qed.

(** The steps of [parseSRTFile] on a document that is trimmed and holds no
    carriage return. *)
Lemma parseSRTFile_trimmed (table : list (jsstring * jsstring))
      (doc : jsstring) :
  starts_solid doc -> ends_solid doc -> ~ In CR doc ->
  parseSRTFile table doc
  = sort_subs (flat_map (parsedBlocks table) (split_re false blankLine doc)).
Proof.
  intros S1 S2 C. unfold parseSRTFile, parseSRTFile_try.
  rewrite (trim_solid doc S1 S2).
  destruct doc as [|x d] eqn:E; [contradiction|]. cbn [is_empty].
  rewrite <- E in *.
  rewrite (replace_all_absent_char CR [LF] [LF] _ C).
  rewrite (replace_all_absent_char CR [] [LF] _ C).
  now rewrite (trim_solid doc S1 S2).
Qed.

(** X14: a block of one or two lines that stands among the blocks of a
    document (a stray line, a cue without text) is passed over, and the
    cues around it are parsed as if it were not there. *)
Theorem parseSRTFile_stray_blocks (table : list (jsstring * jsstring))
        (bs : list (cue + list jsstring)) :
  bs <> [] -> Forall well_formed_block bs ->
  parseSRTFile table (join [LF; LF] (map block_of bs))
  = sort_subs (map (entry_of table) (cues_of bs)).
Proof.
  intros Hne W.
  assert (F : Forall (fun b => starts_solid b /\ ends_solid b /\ solid b
                               /\ ~ In CR b) (map block_of bs)).
  { apply Forall_map. eapply Forall_impl; [|exact W].
    intros b. apply block_of_facts. }
  destruct bs as [|b bs]; [contradiction|]. cbn [map] in *.
  rewrite parseSRTFile_trimmed.
  - rewrite split_re_blocks.
    + change (block_of b :: map block_of bs) with (map block_of (b :: bs)).
      now rewrite parsedBlocks_blocks.
    + eapply Forall_impl; [|exact F]. intros x K. cbv beta in *. tauto.
  - apply starts_solid_join. inversion F; subst. tauto.
  - apply ends_solid_join; [discriminate|].
    eapply Forall_impl; [|exact F]. intros x K. cbv beta in *. tauto.
  - intros K. apply in_join in K. destruct K as [K | (x & Hx & K)].
    + simpl in K. intuition discriminate.
    + rewrite Forall_forall in F. destruct (F x Hx) as (_ & _ & _ & H).
      contradiction.
Qed.

Lemma parseSRTFile_stray_blocks_witness :
  map number
    (parseSRTFile encodingFixes_source
       (join [LF; LF] (map block_of sample_stray)))
  = [Some 1%Z].
Proof.
  rewrite (parseSRTFile_stray_blocks encodingFixes_source sample_stray).
  - reflexivity.
  - discriminate.
  - constructor; [|constructor; [|constructor; [|constructor]]].
    + repeat split; [discriminate | simpl; lia |].
      constructor; [text_line_tac | constructor].
    + refine (conj _ (conj _ (conj _ (conj _ (conj _ (conj _ _)))))).
      * repeat constructor.
      * discriminate.
      * vm_compute. reflexivity.
      * stamp_tac.
      * stamp_tac.
      * discriminate.
      * constructor; [text_line_tac | constructor].
    + repeat split; [discriminate | simpl; lia |].
      constructor; [text_line_tac|].
      constructor; [text_line_tac | constructor].
Defined.

(** ** Cues with the same index *)

Lemma insert_sub_filter (k : N) (x : SubtitleEntry)
      (l : list SubtitleEntry) :
  filter (has_number k) (insert_sub x l) = filter (has_number k) (x :: l).
Proof.
  induction l as [|y l IH]; [reflexivity|].
  cbn [insert_sub]. destruct (after x y) eqn:A; [|reflexivity].
  cbn [filter] in *. rewrite IH.
  unfold after in A. unfold has_number.
  destruct (number x) as [a|]; [|discriminate].
  destruct (number y) as [b|]; [|discriminate].
  apply Z.ltb_lt in A. cbn [jsint_eqb].
  destruct (a =? Z.of_N k)%Z eqn:Ea; destruct (b =? Z.of_N k)%Z eqn:Eb;
    try reflexivity.
  apply Z.eqb_eq in Ea, Eb. lia.
Qed.

Lemma sort_subs_filter (k : N) (l : list SubtitleEntry) :
  filter (has_number k) (sort_subs l) = filter (has_number k) l.
Proof.
  induction l as [|x l IH]; [reflexivity|].
  cbn [sort_subs]. rewrite insert_sub_filter. cbn [filter]. now rewrite IH.
Qed.

(** X15: the cues of a document that carry the same index come out of
    [parseSRTFile] in the order in which they stand in the document. *)
Theorem parseSRTFile_stable (table : list (jsstring * jsstring))
        (cues : list cue) (k : N) :
  cues <> [] -> Forall well_formed_cue cues ->
  filter (has_number k) (parseSRTFile table (document cues))
  = map (entry_of table) (filter (fun c => (cue_number c =? k)%N) cues).
Proof.
  intros Hne W.
  pose proof (parseSRTFile_document table cues [] [] false Hne W) as P.
  cbn [line_ends app] in P. rewrite app_nil_r in P.
  rewrite P; [|split; [constructor | intros []]..].
  rewrite sort_subs_filter. clear. induction cues as [|c cues IH];
    [reflexivity|].
  cbn [map filter]. unfold has_number at 1. cbn [entry_of number jsint_eqb].
  rewrite IH.
  destruct (cue_number c =? k)%N eqn:E.
  - apply N.eqb_eq in E. rewrite E, Z.eqb_refl. reflexivity.
  - apply N.eqb_neq in E.
    replace (Z.of_N (cue_number c) =? Z.of_N k)%Z with false; [reflexivity|].
    symmetry. apply Z.eqb_neq. lia.
Qed.

Lemma sample_repeats_well_formed : Forall well_formed_cue sample_repeats.
Proof.
  constructor; [|constructor; [|constructor; [|constructor]]];
    (refine (conj _ (conj _ (conj _ (conj _ (conj _ (conj _ _))))));
     [ repeat constructor | discriminate | vm_compute; reflexivity
     | stamp_tac | stamp_tac | discriminate
     | constructor; [text_line_tac | constructor] ]).
Qed.

Lemma parseSRTFile_stable_witness :
  map cue_number sample_repeats = [2; 1; 2]%N
  /\ map text
       (filter (has_number 2)
          (parseSRTFile encodingFixes_source (document sample_repeats)))
     = [str "Two"; str "Two again"].
Proof.
  split; [reflexivity|].
  rewrite (parseSRTFile_stable encodingFixes_source sample_repeats 2).
  - vm_compute. reflexivity.
  - discriminate.
  - exact sample_repeats_well_formed.
Defined.

(** ** Blank lines between blocks *)

(** A greedy repetition that has to give back its last character. *)
Lemma rep_give_back (A : Type) (k : cls) (u : jsstring) (x : N)
      (s : jsstring) (cont : jsstring -> option A) (a : A) :
  Forall (fun c => cls_match false k c = true) u ->
  cls_match false k x = true ->
  match s with [] => True | d :: _ => cls_match false k d = false end ->
  cont s = None -> cont (x :: s) = Some a ->
  rep false k 0 None (u ++ x :: s) cont = Some a.
Proof.
  intros Hu Hx Hs K0 K1. induction Hu as [|c u Hc _ IH].
  - cbn [app rep option_map pred]. rewrite Hx.
    assert (E : rep false k 0 None s cont = None).
    { destruct s as [|d s]; cbn [rep]; [exact K0|]. now rewrite Hs. }
    now rewrite E.
  - cbn [app rep option_map pred]. rewrite Hc. cbn [app] in IH.
    now rewrite IH.
Qed.

Lemma blankLine_gap (w : jsstring) (d : N) (s : jsstring) :
  Forall (fun c => is_ws c = true) w -> is_ws d = false ->
  match_here false blankLine (LF :: w ++ LF :: d :: s) = Some (d :: s, []).
Proof.
  intros W D. unfold match_here, blankLine, rstar.
  cbn [rseq mtch cls_match char_eq]. rewrite N.eqb_refl.
  apply rep_give_back.
  - exact W.
  - reflexivity.
  - exact D.
  - cbn [mtch cls_match char_eq]. now rewrite (ws_LF d D).
  - cbn [mtch cls_match char_eq]. now rewrite N.eqb_refl.
Qed.

Lemma split_re_f_gaps (bs : list (jsstring * jsstring)) :
  Forall (fun p => Forall (fun c => is_ws c = true) (fst p)
                   /\ starts_solid (snd p) /\ solid (snd p)) bs ->
  forall (t : jsstring), solid t ->
  forall (fuel : nat) (at_p : bool),
    length (t ++ after_gaps bs) < fuel ->
    split_re_f fuel false blankLine at_p (t ++ after_gaps bs)
    = t :: map snd bs.
Proof.
  assert (Inside : forall (c : N) (t rest : jsstring), solid (c :: t) ->
            match_here false blankLine (c :: t ++ rest) = None).
  { intros c t rest [Hc Ht].
    destruct (N.eq_dec c LF) as [-> | Hne].
    - specialize (Hc eq_refl). destruct t as [|d t]; [contradiction|].
      now apply blankLine_line.
    - now apply blankLine_other. }
  induction 1 as [|[w b] bs (Ww & Sb & Hb) _ IHbs].
  - intros t. induction t as [|c t IHt]; intros Ht fuel at_p L;
      (destruct fuel as [|fuel]; [simpl in L; lia|]).
    + reflexivity.
    + cbn [app length] in L. cbn [app split_re_f].
      rewrite (Inside c t _ Ht).
      destruct Ht as [_ Ht]. rewrite (IHt Ht fuel false) by lia.
      reflexivity.
  - intros t. induction t as [|c t IHt]; intros Ht fuel at_p L;
      (destruct fuel as [|fuel]; [simpl in L; lia|]).
    + destruct b as [|d b]; [contradiction|].
      unfold after_gaps in *. cbn [flat_map fst snd app] in *.
      fold (after_gaps bs) in *. cbn [split_re_f].
      rewrite <- !app_assoc. cbn [app].
      rewrite (blankLine_gap w d _ Ww Sb).
      replace (length (d :: b ++ after_gaps bs)
               <? length (LF :: w ++ LF :: d :: b ++ after_gaps bs))
        with true.
      2:{ symmetry. apply Nat.ltb_lt. cbn [length].
          rewrite !length_app. cbn [length]. rewrite !length_app. lia. }
      cbn [orb map snd]. f_equal.
      apply (IHbs (d :: b) Hb fuel true).
      rewrite <- !app_assoc in L. cbn [app length] in L.
      rewrite !length_app in L. cbn [length] in L.
      rewrite !length_app in L. cbn [app length]. rewrite !length_app. lia.
    + cbn [app length] in L. cbn [app split_re_f].
      rewrite (Inside c t _ Ht).
      destruct Ht as [_ Ht]. rewrite (IHt Ht fuel false) by lia.
      reflexivity.
Qed.

Lemma split_re_gaps (b : jsstring) (bs : list (jsstring * jsstring)) :
  starts_solid b -> solid b ->
  Forall (fun p => Forall (fun c => is_ws c = true) (fst p)
                   /\ starts_solid (snd p) /\ solid (snd p)) bs ->
  split_re false blankLine (b ++ after_gaps bs) = b :: map snd bs.
Proof.
  intros Sb Hb H. unfold split_re.
  destruct (b ++ after_gaps bs) as [|c r] eqn:E.
  - destruct b; [contradiction | discriminate].
  - rewrite <- E. apply split_re_f_gaps; auto. lia.
Qed.

Lemma after_gaps_last (bs : list (jsstring * jsstring)) (c : N) :
  In c (after_gaps bs) ->
  c = LF \/ exists p, In p bs /\ (In c (fst p) \/ In c (snd p)).
Proof.
  unfold after_gaps. intros K. apply in_flat_map in K.
  destruct K as (p & Hp & K). destruct K as [<- | K]; [now left|].
  apply in_app_iff in K. destruct K as [K | [<- | K]].
  - right. exists p. tauto.
  - now left.
  - right. exists p. tauto.
Qed.

Lemma ends_solid_gaps (b : jsstring) (bs : list (jsstring * jsstring)) :
  ends_solid b -> Forall (fun p => ends_solid (snd p)) bs ->
  ends_solid (b ++ after_gaps bs).
Proof.
  intros Hb H. revert b Hb. induction H as [|[w x] bs Hx _ IH]; intros b Hb.
  - unfold after_gaps. cbn [flat_map]. now rewrite app_nil_r.
  - unfold after_gaps in *. cbn [flat_map fst snd] in *.
    replace (b ++ (LF :: w ++ LF :: x) ++ flat_map
               (fun p => LF :: fst p ++ LF :: snd p) bs)
      with ((b ++ LF :: w ++ [LF]) ++ x ++ flat_map
              (fun p => LF :: fst p ++ LF :: snd p) bs).
    + apply ends_solid_app. now apply IH.
    + rewrite <- !app_assoc. cbn [app]. rewrite <- !app_assoc. reflexivity.
Qed.

(** X16: the blocks of a document may stand apart by any number of blank
    lines, and these may hold white space: the document is converted as the
    one with a single empty line between its blocks. *)
Theorem convertToASS_blank_lines (table : list (jsstring * jsstring))
        (c : cue) (rest : list (jsstring * cue)) :
  well_formed_cue c -> Forall (fun p => well_formed_cue (snd p)) rest ->
  Forall (fun p => blank (fst p)) rest ->
  convertToASS table (spaced_document c rest)
  = convertToASS table (document (c :: map snd rest)).
Proof.
  intros Wc Wr Br.
  assert (W : Forall well_formed_cue (c :: map snd rest)).
  { constructor; [exact Wc | now apply Forall_map]. }
  assert (P : parseSRTFile table (spaced_document c rest)
              = parseSRTFile table (document (c :: map snd rest))).
  { pose proof (parseSRTFile_document table (c :: map snd rest) [] [] false)
      as D.
    cbn [line_ends app] in D. rewrite app_nil_r in D.
    rewrite D; [|discriminate | exact W | split; [constructor | intros []]..].
    destruct (cue_block_facts c Wc) as (S1 & S2 & S3 & S4).
    unfold spaced_document. rewrite parseSRTFile_trimmed.
    - rewrite split_re_gaps; auto.
      + rewrite map_map. cbn [snd]. rewrite <- (map_map snd cue_block).
        change (cue_block c :: map cue_block (map snd rest))
          with (map cue_block (c :: map snd rest)).
        now rewrite parsedBlocks_cues.
      + apply Forall_map. apply Forall_forall. intros p Hp.
        rewrite Forall_forall in Wr, Br. cbn [fst snd].
        destruct (cue_block_facts (snd p) (Wr p Hp)) as (A1 & _ & A3 & _).
        destruct (Br p Hp) as [B _]. auto.
    - now apply starts_solid_app.
    - apply ends_solid_gaps; [exact S2|].
      apply Forall_map. apply Forall_forall. intros p Hp.
      rewrite Forall_forall in Wr. cbn [snd].
      now destruct (cue_block_facts (snd p) (Wr p Hp)) as (_ & A2 & _).
    - rewrite in_app_iff. intros [K | K]; [contradiction|].
      apply after_gaps_last in K. destruct K as [K | (p & Hp & K)];
        [discriminate|].
      apply in_map_iff in Hp. destruct Hp as (q & <- & Hq).
      rewrite Forall_forall in Wr, Br. cbn [fst snd] in K.
      destruct (cue_block_facts (snd q) (Wr q Hq)) as (_ & _ & _ & A4).
      destruct (Br q Hq) as [_ B]. tauto. }
  unfold convertToASS. now rewrite P.
Qed.

Lemma sample_cue_1_well_formed : well_formed_cue sample_cue_1.
Proof.
  refine (conj _ (conj _ (conj _ (conj _ (conj _ (conj _ _)))))).
  - repeat constructor.
  - discriminate.
  - vm_compute. reflexivity.
  - stamp_tac.
  - stamp_tac.
  - discriminate.
  - constructor; [text_line_tac | constructor].
Qed.

Lemma sample_cue_2_well_formed : well_formed_cue sample_cue_2.
Proof.
  refine (conj _ (conj _ (conj _ (conj _ (conj _ (conj _ _)))))).
  - repeat constructor.
  - discriminate.
  - vm_compute. reflexivity.
  - stamp_tac.
  - stamp_tac.
  - discriminate.
  - constructor; [text_line_tac | constructor].
Qed.

Lemma convertToASS_blank_lines_witness :
  convertToASS encodingFixes_source sample_spaced
  = convertToASS encodingFixes_source (document [sample_cue_1; sample_cue_2]).
Proof.
  apply (convertToASS_blank_lines encodingFixes_source sample_cue_1
           [([LF; 32; 9; LF]%N, sample_cue_2)]).
  - exact sample_cue_1_well_formed.
  - constructor; [exact sample_cue_2_well_formed | constructor].
  - constructor; [|constructor]. split.
    + repeat constructor.
    + simpl. intuition discriminate.
Defined.

(** ** Replacing all matches *)

Section ReplaceFacts.
Variable ci : bool.
Variable r : regex.
Variable repl : jsstring.

Lemma lead_mtch (c : N) (r0 : regex) :
  lead r0 = Some c ->
  forall (A : Type) (s : jsstring) (cs : caps)
         (cont : jsstring -> caps -> option A),
    match s with x :: _ => char_eq ci c x = false | [] => True end ->
    mtch ci r0 s cs cont = None.
Proof.
  induction r0 as [|k|k lo hi|r1 IH1 r2 IH2|i r1 IH]; intros L A s cs cont H;
    cbn [lead] in L; try discriminate.
  - destruct k; try discriminate. injection L as ->.
    destruct s as [|x s]; [reflexivity|].
    cbn [mtch cls_match]. now rewrite H.
  - cbn [mtch]. now apply IH1.
  - cbn [mtch]. now apply IH.
Qed.

Lemma lead_match_here (c : N) (s : jsstring) :
  lead r = Some c ->
  match s with x :: _ => char_eq ci c x = false | [] => True end ->
  match_here ci r s = None.
Proof. intros L H. unfold match_here. now apply (lead_mtch c r L). Qed.

Lemma replace_all_f_skip (fuel : nat) (x : N) (s : jsstring) :
  match_here ci r (x :: s) = None ->
  replace_all_f (S fuel) ci r repl (x :: s)
  = x :: replace_all_f fuel ci r repl s.
Proof. intros M. cbn [replace_all_f]. now rewrite M. Qed.

Lemma replace_all_f_hit (fuel : nat) (w s : jsstring) (cs : caps) :
  w <> [] -> match_here ci r (w ++ s) = Some (s, cs) ->
  replace_all_f (S fuel) ci r repl (w ++ s)
  = repl ++ replace_all_f fuel ci r repl s.
Proof.
  intros Hw M. cbn [replace_all_f]. rewrite M.
  replace (length s <? length (w ++ s)) with true; [reflexivity|].
  symmetry. apply Nat.ltb_lt. rewrite length_app.
  destruct w; [contradiction | simpl; lia].
Qed.

(** Where no match can start, nothing is replaced. *)
Lemma replace_all_f_lead_absent (c : N) (fuel : nat) (s : jsstring) :
  lead r = Some c -> Forall (fun x => char_eq ci c x = false) s ->
  replace_all_f fuel ci r repl s = s.
Proof.
  intros L. revert s. induction fuel as [|fuel IH]; intros s H; [reflexivity|].
  destruct s as [|x s].
  - cbn [replace_all_f]. now rewrite (lead_match_here c [] L I).
  - inversion H as [|? ? Hx Hs]; subst.
    rewrite replace_all_f_skip by (now apply (lead_match_here c)).
    now rewrite IH.
Qed.

Lemma replace_all_f_app_skip (c : N) (a : jsstring) :
  lead r = Some c -> Forall (fun x => char_eq ci c x = false) a ->
  forall (fuel : nat) (s : jsstring),
    replace_all_f (length a + fuel) ci r repl (a ++ s)
    = a ++ replace_all_f fuel ci r repl s.
Proof.
  intros L H. induction H as [|x a Hx _ IH]; intros fuel s; [reflexivity|].
  cbn [length Nat.add app].
  rewrite replace_all_f_skip by (now apply (lead_match_here c)).
  now rewrite IH.
Qed.

(** More fuel than characters is enough fuel. *)
Lemma replace_all_f_fuel (f1 : nat) :
  forall (f2 : nat) (s : jsstring),
    length s < f1 -> length s < f2 ->
    replace_all_f f1 ci r repl s = replace_all_f f2 ci r repl s.
Proof.
  induction f1 as [|f1 IH]; intros f2 s L1 L2; [lia|].
  destruct f2 as [|f2]; [lia|]. cbn [replace_all_f].
  assert (K : match s with
              | [] => []
              | c :: s' => c :: replace_all_f f1 ci r repl s'
              end
              = match s with
                | [] => []
                | c :: s' => c :: replace_all_f f2 ci r repl s'
                end).
  { destruct s as [|c s']; [reflexivity|]. simpl in L1, L2.
    f_equal. apply IH; lia. }
  destruct (match_here ci r s) as [[rest cs]|]; [|exact K].
  destruct (length rest <? length s) eqn:E; [|now rewrite K].
  apply Nat.ltb_lt in E. f_equal. apply IH; lia.
Qed.

Lemma replace_all_lead_absent (c : N) (s : jsstring) :
  lead r = Some c -> Forall (fun x => char_eq ci c x = false) s ->
  replace_all ci r repl s = s.
Proof. intros L H. unfold replace_all. now apply (replace_all_f_lead_absent c). Qed.

(** One match in front of [b], after a stretch [a] where none can start. *)
Lemma replace_all_app (c : N) (a w b : jsstring) (cs : caps) :
  lead r = Some c -> Forall (fun x => char_eq ci c x = false) a ->
  w <> [] -> match_here ci r (w ++ b) = Some (b, cs) ->
  replace_all ci r repl (a ++ w ++ b) = a ++ repl ++ replace_all ci r repl b.
Proof.
  intros L Ha Hw M. unfold replace_all.
  rewrite (replace_all_f_fuel (S (length (a ++ w ++ b)))
             (length a + S (S (length (w ++ b))))).
  - rewrite (replace_all_f_app_skip c a L Ha).
    rewrite (replace_all_f_hit (S (length (w ++ b))) w b cs Hw M).
    do 2 f_equal. apply replace_all_f_fuel; rewrite ?length_app; lia.
  - lia.
  - rewrite !length_app. lia.
Qed.

Lemma test_lead_absent (c : N) (s : jsstring) :
  lead r = Some c -> Forall (fun x => char_eq ci c x = false) s ->
  test ci r s = false.
Proof.
  intros L H. unfold test.
  assert (E : exec ci r s = None).
  { induction H as [|x s Hx _ IH].
    - cbn [exec]. now rewrite (lead_match_here c [] L I).
    - rewrite exec_eq. now rewrite (lead_match_here c (x :: s) L Hx). }
  now rewrite E.
Qed.

End ReplaceFacts.

(** ** Splitting at a separator *)

Section SplitFacts.
Variable c : N.
Variable p : jsstring.

Lemma split_str_f_absent (fuel : nat) (s : jsstring) :
  ~ In c s -> split_str_f fuel (c :: p) s = [s].
Proof.
  revert s. induction fuel as [|fuel IH]; intros s H; [reflexivity|].
  destruct s as [|x s]; [reflexivity|].
  cbn [split_str_f starts_with].
  replace (c =? x)%N with false.
  - cbn [andb]. rewrite IH; [reflexivity|]. intros K. apply H. now right.
  - symmetry. apply N.eqb_neq. intros <-. apply H. now left.
Qed.

Lemma skipn_self (q b : jsstring) : skipn (length q) (q ++ b) = b.
Proof. induction q as [|x q IH]; [reflexivity | exact IH]. Qed.

Lemma split_str_f_app (a b : jsstring) (fuel : nat) :
  ~ In c a ->
  split_str_f (length a + S fuel) (c :: p) (a ++ (c :: p) ++ b)
  = a :: split_str_f fuel (c :: p) b.
Proof.
  induction a as [|x a IH]; intros H.
  - cbn [length Nat.add]. change ([] ++ (c :: p) ++ b) with ((c :: p) ++ b).
    cbn [split_str_f app].
    change (c :: p ++ b) with ((c :: p) ++ b).
    now rewrite starts_with_self, skipn_self.
  - cbn [length Nat.add app split_str_f starts_with].
    replace (c =? x)%N with false.
    + cbn [andb]. change (a ++ c :: p ++ b) with (a ++ (c :: p) ++ b).
      rewrite IH; [reflexivity|]. intros K. apply H. now right.
    + symmetry. apply N.eqb_neq. intros <-. apply H. now left.
Qed.

Lemma split_str_f_fuel (f1 : nat) :
  forall (f2 : nat) (s : jsstring),
    length s < f1 -> length s < f2 ->
    split_str_f f1 (c :: p) s = split_str_f f2 (c :: p) s.
Proof.
  induction f1 as [|f1 IH]; intros f2 s L1 L2; [lia|].
  destruct f2 as [|f2]; [lia|].
  destruct s as [|x s]; [reflexivity|]. cbn [split_str_f].
  simpl in L1, L2.
  destruct (starts_with (c :: p) (x :: s)).
  - f_equal. apply IH.
    + rewrite length_skipn. simpl. lia.
    + rewrite length_skipn. simpl. lia.
  - f_equal. apply IH; lia.
Qed.

(** Joining lines that do not hold the first character of the separator,
    and splitting again. *)
Lemma split_str_join (l : list jsstring) :
  l <> [] -> Forall (fun x => ~ In c x) l ->
  split_str (c :: p) (join (c :: p) l) = l.
Proof.
  intros Hne H. induction H as [|x l Hx Hl IH]; [contradiction|].
  destruct l as [|y l].
  - cbn [join]. unfold split_str. now apply split_str_f_absent.
  - rewrite join_cons by discriminate. unfold split_str.
    set (b := join (c :: p) (y :: l)) in *.
    rewrite (split_str_f_fuel (S (length (x ++ (c :: p) ++ b)))
               (length x + S (S (length ((c :: p) ++ b))))).
    + rewrite split_str_f_app by exact Hx. f_equal.
      rewrite (split_str_f_fuel (S (length ((c :: p) ++ b))) (S (length b))).
      * apply IH. discriminate.
      * rewrite length_app. lia.
      * lia.
    + lia.
    + rewrite !length_app. lia.
Qed.

End SplitFacts.

(** ** Plain text *)

Lemma canon_lt (x : N) : canon x = 60%N -> x = 60%N.
Proof.
  unfold canon. destruct ((97 <=? x) && (x <=? 122))%N eqn:E; [|auto].
  apply andb_true_iff in E. destruct E as [E1 E2].
  apply N.leb_le in E1, E2. lia.
Qed.

Lemma char_eq_lt (ci : bool) (x : N) :
  x <> 60%N -> char_eq ci 60 x = false.
Proof.
  intros H. unfold char_eq. destruct ci; apply N.eqb_neq.
  - change (canon 60) with 60%N. intros E. symmetry in E.
    now apply canon_lt in E.
  - congruence.
Qed.

Lemma plain_char_spec (x : N) :
  plain_char x = true ->
  x <> 60%N /\ x <> 38%N /\ x <> 92%N /\ x <> 65279%N /\ x <> CR.
Proof.
  unfold plain_char. intros H. apply negb_true_iff in H.
  repeat (apply orb_false_iff in H; destruct H as [H ?]).
  repeat match goal with
         | K : (_ =? _)%N = false |- _ => apply N.eqb_neq in K
         end.
  tauto.
Qed.

Lemma plain_absent (c : N) (s : jsstring) :
  plain s -> plain_char c = false -> ~ In c s.
Proof.
  intros H Hc K. unfold plain in H. rewrite Forall_forall in H.
  apply H in K. congruence.
Qed.

Lemma plain_no_lt (ci : bool) (s : jsstring) :
  plain s -> Forall (fun x => char_eq ci 60 x = false) s.
Proof.
  intros H. eapply Forall_impl; [|exact H].
  intros x Hx. apply char_eq_lt. now apply plain_char_spec in Hx.
Qed.

Lemma not_in_char_eq (c : N) (s : jsstring) :
  ~ In c s -> Forall (fun x => char_eq false c x = false) s.
Proof.
  intros H. apply Forall_forall. intros x Hx. unfold char_eq.
  apply N.eqb_neq. intros <-. contradiction.
Qed.

Lemma fold_left_id (A B : Type) (f : A -> B -> A) (l : list B) (a : A) :
  Forall (fun b => f a b = a) l -> fold_left f l a = a.
Proof.
  induction 1 as [|b l Hb _ IH]; [reflexivity|]. cbn [fold_left].
  now rewrite Hb.
Qed.

Lemma htmlTags_lead : Forall (fun p => lead p = Some 60%N) htmlTags.
Proof. repeat constructor. Qed.

Lemma htmlEntities_lead :
  Forall (fun row => lead (lit (fst row)) = Some 38%N) htmlEntities.
Proof. repeat constructor. Qed.

(** The steps of [cleanAndFormatText] before the line breaks leave a text
    without markup as it is. *)
Lemma cleanSteps_plain (table : list (jsstring * jsstring))
      (text : jsstring) :
  plain text -> already_correct table text ->
  cleanSteps table text = (breakLines text, str "Default").
Proof.
  intros P A. unfold cleanSteps.
  rewrite (replace_all_lead_absent false (RAtom (CChar 65279)) [] 65279%N
             text eq_refl)
    by (apply not_in_char_eq, (plain_absent _ _ P); reflexivity).
  rewrite (fixEncodingArtifacts_absent table text A).
  assert (C : ~ In CR text) by (apply (plain_absent _ _ P); reflexivity).
  rewrite (replace_all_absent_char CR [LF] [LF] _ C).
  rewrite (replace_all_absent_char CR [] [LF] _ C).
  rewrite (test_lead_absent true italicPattern 60%N text eq_refl
             (plain_no_lt true text P)).
  rewrite (fold_left_id _ _ _ htmlTags text).
  2:{ eapply Forall_impl; [|exact htmlTags_lead]. intros p L.
      exact (replace_all_lead_absent true p [] 60%N text L
               (plain_no_lt true text P)). }
  rewrite (replace_all_lead_absent true brPattern assBreak 60%N text eq_refl
             (plain_no_lt true text P)).
  rewrite (fold_left_id _ _ _ htmlEntities text).
  2:{ eapply Forall_impl; [|exact htmlEntities_lead]. intros row L.
      apply (replace_all_lead_absent false _ _ 38%N text L).
      apply not_in_char_eq, (plain_absent _ _ P). reflexivity. }
  reflexivity.
Qed.

Lemma plain_line_text (l : jsstring) : plain_line l -> text_line l.
Proof.
  intros (P & S1 & S2 & L). repeat split; auto.
  apply (plain_absent _ _ P). reflexivity.
Qed.

Lemma LF_match (s : jsstring) :
  match_here false (RAtom (CChar LF)) ([LF] ++ s) = Some (s, []).
Proof. reflexivity. Qed.

Lemma replace_all_LF_join (lines : list jsstring) :
  Forall (fun l => ~ In LF l) lines ->
  replace_all false (RAtom (CChar LF)) assBreak (join [LF] lines)
  = join assBreak lines.
Proof.
  induction 1 as [|x l Hx Hl IH]; [reflexivity|].
  destruct l as [|y l].
  - cbn [join].
    apply (replace_all_lead_absent false (RAtom (CChar LF)) assBreak LF x
             eq_refl).
    now apply not_in_char_eq.
  - rewrite !join_cons by discriminate.
    rewrite (replace_all_app false (RAtom (CChar LF)) assBreak LF x [LF]
               (join [LF] (y :: l)) [] eq_refl).
    + now rewrite IH.
    + now apply not_in_char_eq.
    + discriminate.
    + apply LF_match.
Qed.

Lemma join_nonempty (sep : jsstring) (l : list jsstring) :
  l <> [] -> Forall starts_solid l -> join sep l <> [].
Proof.
  intros Hne H. destruct l as [|x l]; [contradiction|].
  inversion H; subst. apply starts_solid_nonempty.
  now apply starts_solid_join.
Qed.

(** The line-break steps on lines of plain text. *)
Lemma breakLines_plain (lines : list jsstring) :
  lines <> [] -> Forall plain_line lines ->
  breakLines (join [LF] lines) = join assBreak lines.
Proof.
  intros Hne H. unfold breakLines.
  assert (T : Forall text_line lines).
  { eapply Forall_impl; [|exact H]. apply plain_line_text. }
  rewrite replace_all_LF_join.
  2:{ eapply Forall_impl; [|exact H]. intros l (_ & _ & _ & L). exact L. }
  change assBreak with (92%N :: [78%N]).
  rewrite split_str_join; [|exact Hne|].
  2:{ eapply Forall_impl; [|exact H]. intros l (P & _).
      apply (plain_absent _ _ P). reflexivity. }
  rewrite (map_trim_rows lines T), (filter_nonempty_rows lines T).
  apply trim_solid.
  - destruct lines as [|x l]; [contradiction|]. apply starts_solid_join.
    inversion H as [|? ? (_ & S1 & _) _]; subst. exact S1.
  - apply ends_solid_join; [exact Hne|].
    eapply Forall_impl; [|exact H]. intros l (_ & _ & S2 & _). exact S2.
Qed.

Lemma plain_join (lines : list jsstring) :
  Forall plain_line lines -> plain (join [LF] lines).
Proof.
  induction 1 as [|x l (Px & _) Hl IH]; [constructor|].
  destruct l as [|y l]; [exact Px|].
  rewrite join_cons by discriminate. apply Forall_app. split; [exact Px|].
  apply Forall_app. split; [repeat constructor | exact IH].
Qed.

(** X17: a cue text made of lines of plain text (no [<], [&], backslash,
    byte order mark or carriage return, no white space at the ends of a
    line, no key of the encoding table) is kept as it is, its lines joined
    by the ASS line break, with style Default. *)
Theorem cleanAndFormatText_plain (table : list (jsstring * jsstring))
        (lines : list jsstring) :
  lines <> [] -> Forall plain_line lines ->
  already_correct table (join [LF] lines) ->
  cleanAndFormatText table (join [LF] lines)
  = (join assBreak lines, str "Default").
Proof.
  intros Hne H A. unfold cleanAndFormatText.
  assert (S : Forall starts_solid lines).
  { eapply Forall_impl; [|exact H]. intros l (_ & S1 & _). exact S1. }
  pose proof (join_nonempty [LF] lines Hne S) as N1.
  pose proof (join_nonempty assBreak lines Hne S) as N2.
  destruct (join [LF] lines) as [|c t] eqn:E; [contradiction|].
  cbn [is_empty]. rewrite <- E in *.
  rewrite (cleanSteps_plain table _ (plain_join lines H) A).
  rewrite (breakLines_plain lines Hne H).
  destruct (join assBreak lines); [contradiction | reflexivity].
Qed.

Lemma cleanAndFormatText_plain_witness :
  cleanAndFormatText encodingFixes_source (str "Hello," ++ [LF] ++ str "you")
  = (str "Hello,\Nyou", str "Default").
Proof.
  apply (cleanAndFormatText_plain encodingFixes_source
           [str "Hello,"; str "you"]).
  - discriminate.
  - constructor; [|constructor; [|constructor]];
      (split; [repeat constructor|]); text_line_tac.
  - apply already_correctb_sound. vm_compute. reflexivity.
Defined.

(** ** Tags *)

Lemma exec_lead_absent (ci : bool) (r : regex) (c : N) (s : jsstring) :
  lead r = Some c -> Forall (fun x => char_eq ci c x = false) s ->
  exec ci r s = None.
Proof.
  intros L H. induction H as [|x s Hx _ IH].
  - cbn [exec]. now rewrite (lead_match_here ci r c [] L I).
  - rewrite exec_eq. now rewrite (lead_match_here ci r c (x :: s) L Hx).
Qed.

Lemma exec_app_skip (ci : bool) (r : regex) (c : N) (a s : jsstring) :
  lead r = Some c -> Forall (fun x => char_eq ci c x = false) a ->
  exec ci r (a ++ s) = exec ci r s.
Proof.
  intros L H. induction H as [|x a Hx _ IH]; [reflexivity|].
  cbn [app]. rewrite exec_eq.
  now rewrite (lead_match_here ci r c (x :: a ++ s) L Hx).
Qed.

Lemma tags_plain (t : jsstring) :
  plain t -> forall tags, Forall (fun p => lead p = Some 60%N) tags ->
  fold_left (fun t p => replace_all true p [] t) tags t = t.
Proof.
  intros P tags H. apply fold_left_id.
  eapply Forall_impl; [|exact H]. intros p L.
  exact (replace_all_lead_absent true p [] 60%N t L (plain_no_lt true t P)).
Qed.

Lemma entities_plain (t : jsstring) :
  plain t ->
  fold_left (fun t row => replace_all false (lit (fst row)) (snd row) t)
    htmlEntities t = t.
Proof.
  intros P. apply fold_left_id.
  eapply Forall_impl; [|exact htmlEntities_lead]. intros row L.
  apply (replace_all_lead_absent false _ _ 38%N t L).
  apply not_in_char_eq, (plain_absent _ _ P). reflexivity.
Qed.

Lemma br_plain (t : jsstring) :
  plain t -> replace_all true brPattern assBreak t = t.
Proof.
  intros P.
  exact (replace_all_lead_absent true brPattern assBreak 60%N t eq_refl
           (plain_no_lt true t P)).
Qed.

Lemma canon_gt (x : N) : canon x = 62%N -> x = 62%N.
Proof.
  unfold canon. destruct ((97 <=? x) && (x <=? 122))%N eqn:E; [|auto].
  apply andb_true_iff in E. destruct E as [E1 E2].
  apply N.leb_le in E1, E2. lia.
Qed.

Lemma none_of_gt (x : N) :
  x <> 62%N -> cls_match true (CNoneOf [62%N]) x = true.
Proof.
  intros H. unfold cls_match, existsb, char_eq. rewrite orb_false_r.
  apply negb_true_iff, N.eqb_neq. change (canon 62) with 62%N.
  intros E. symmetry in E. now apply canon_gt in E.
Qed.

(** The pattern of the bold tags matches every tag whose name starts with
    [b]. *)
Lemma b_tag_match (slash : jsstring) (letter : N) (inner rest : jsstring) :
  slash = [] \/ slash = [47%N] -> letter = 98%N \/ letter = 66%N ->
  ~ In 62%N inner ->
  match_here true (tagPattern "b") (b_tag slash letter inner ++ rest)
  = Some (rest, []).
Proof.
  intros Hs Hl Hi. apply match_here_first.
  unfold tagPattern, b_tag, rchar, ropt, rstar. cbn [rseq].
  eapply F_seq; [apply F_atom; reflexivity|].
  eapply F_seq.
  { apply F_rep.
    - destruct Hs as [-> | ->]; repeat constructor.
    - lia.
    - destruct Hs as [-> | ->]; simpl; lia.
    - destruct Hs as [-> | ->]; [right | left; reflexivity].
      cbn [app]. destruct Hl as [-> | ->]; reflexivity. }
  eapply F_seq.
  { change (str "b") with [98%N]. cbn [lit].
    rewrite <- (app_nil_r [letter]). eapply F_seq; [|apply F_eps].
    apply F_atom. destruct Hl as [-> | ->]; reflexivity. }
  eapply F_seq.
  { apply F_rep.
    - apply Forall_forall. intros x Hx. apply none_of_gt. intros ->.
      contradiction.
    - lia.
    - exact I.
    - right. reflexivity. }
  apply F_atom. reflexivity.
Qed.

Lemma b_tag_not_italic (slash : jsstring) (letter : N)
      (rest : jsstring) :
  slash = [] \/ slash = [47%N] -> letter = 98%N \/ letter = 66%N ->
  match_here true italicPattern ([60%N] ++ slash ++ [letter] ++ rest) = None.
Proof.
  intros [-> | ->] [-> | ->]; reflexivity.
Qed.

Lemma plain_app (a b : jsstring) : plain a -> plain b -> plain (a ++ b).
Proof. intros Ha Hb. apply Forall_app. now split. Qed.


(** *** The steps one after the other *)

Lemma tags_cons (p : regex) (l : list regex) (t : jsstring) :
  fold_left (fun t p => replace_all true p [] t) (p :: l) t
  = fold_left (fun t p => replace_all true p [] t) l
      (replace_all true p [] t).
Proof. reflexivity. Qed.

Lemma entities_cons (k v : jsstring) (l : list (jsstring * jsstring))
      (t : jsstring) :
  fold_left (fun t row => replace_all false (lit (fst row)) (snd row) t)
    ((k, v) :: l) t
  = fold_left (fun t row => replace_all false (lit (fst row)) (snd row) t)
      l (replace_all false (lit k) v t).
Proof. reflexivity. Qed.

Lemma htmlTags_eq : htmlTags = tagPattern "b" :: tl htmlTags.
Proof. reflexivity. Qed.

Lemma htmlEntities_eq :
  htmlEntities = (str "&amp;", [38%N]) :: tl htmlEntities.
Proof. reflexivity. Qed.

Lemma rest_tags_lead : Forall (fun p => lead p = Some 60%N) (tl htmlTags).
Proof. repeat constructor. Qed.

(** The steps of [cleanAndFormatText] on a text that its first four steps
    leave alone: no byte order mark, no carriage return, no key of the
    encoding table. *)
Lemma cleanSteps_late (table : list (jsstring * jsstring))
      (text : jsstring) :
  ~ In 65279%N text -> ~ In CR text -> already_correct table text ->
  cleanSteps table text
  = (breakLines
       (fold_left
          (fun t row => replace_all false (lit (fst row)) (snd row) t)
          htmlEntities
          (replace_all true brPattern assBreak
             (fold_left (fun t p => replace_all true p [] t) htmlTags
                (if test true italicPattern text
                 then replace_all true italicTag [] text
                 else text)))),
     if test true italicPattern text then str "Italic" else str "Default").
Proof.
  intros B C A. unfold cleanSteps.
  rewrite (replace_all_lead_absent false (RAtom (CChar 65279)) [] 65279%N
             text eq_refl (not_in_char_eq _ _ B)).
  rewrite (fixEncodingArtifacts_absent table text A).
  rewrite (replace_all_absent_char CR [LF] [LF] _ C).
  rewrite (replace_all_absent_char CR [] [LF] _ C).
  destruct (test true italicPattern text); reflexivity.
Qed.

Lemma cleanSteps_default (table : list (jsstring * jsstring))
      (text : jsstring) :
  ~ In 65279%N text -> ~ In CR text -> already_correct table text ->
  test true italicPattern text = false ->
  cleanSteps table text
  = (breakLines
       (fold_left
          (fun t row => replace_all false (lit (fst row)) (snd row) t)
          htmlEntities
          (replace_all true brPattern assBreak
             (fold_left (fun t p => replace_all true p [] t) htmlTags
                text))),
     str "Default").
Proof.
  intros B C A T. rewrite (cleanSteps_late table text B C A), T.
  reflexivity.
Qed.

Lemma cleanSteps_italic (table : list (jsstring * jsstring))
      (text : jsstring) :
  ~ In 65279%N text -> ~ In CR text -> already_correct table text ->
  test true italicPattern text = true ->
  cleanSteps table text
  = (breakLines
       (fold_left
          (fun t row => replace_all false (lit (fst row)) (snd row) t)
          htmlEntities
          (replace_all true brPattern assBreak
             (fold_left (fun t p => replace_all true p [] t) htmlTags
                (replace_all true italicTag [] text)))),
     str "Italic").
Proof.
  intros B C A T. rewrite (cleanSteps_late table text B C A), T.
  reflexivity.
Qed.

(** The line-break steps on one line. *)
Lemma breakLines_line (l : jsstring) :
  text_line l -> ~ In 92%N l -> breakLines l = l.
Proof.
  intros T B. unfold breakLines.
  destruct T as (S1 & S2 & L & C).
  rewrite (replace_all_lead_absent false (RAtom (CChar LF)) assBreak LF l
             eq_refl (not_in_char_eq _ _ L)).
  change assBreak with (92%N :: [78%N]).
  unfold split_str. rewrite (split_str_f_absent 92 [78%N] _ l B).
  cbn [map filter]. rewrite (trim_solid l S1 S2).
  destruct l as [|c l]; [contradiction|]. cbn [is_empty negb join].
  apply (trim_solid (c :: l) S1 S2).
Qed.

(** The result of [cleanAndFormatText] when its steps give one line. *)
Lemma cleanAndFormatText_line (table : list (jsstring * jsstring))
      (text l st : jsstring) :
  text <> [] -> text_line l -> ~ In 92%N l ->
  cleanSteps table text = (breakLines l, st) ->
  cleanAndFormatText table text = (l, st).
Proof.
  intros Hne T B E. unfold cleanAndFormatText.
  destruct text as [|c t]; [contradiction|].
  change (is_empty (c :: t)) with false. cbv iota.
  rewrite E, (breakLines_line l T B).
  destruct T as (S1 & _). destruct l; [contradiction | reflexivity].
Qed.

(** The steps of [cleanAndFormatText] on a text that is plain once its tag
    is taken out. *)
Lemma b_tag_italic (a b inner slash : jsstring) (letter : N) :
  plain a -> plain b -> plain inner ->
  slash = [] \/ slash = [47%N] -> letter = 98%N \/ letter = 66%N ->
  test true italicPattern (a ++ b_tag slash letter inner ++ b) = false.
Proof.
  intros Pa Pb Pi Hs Hl. unfold test.
  rewrite (exec_app_skip true italicPattern 60%N a _ eq_refl
             (plain_no_lt true a Pa)).
  unfold b_tag. rewrite <- !app_assoc. rewrite exec_eq.
  rewrite (b_tag_not_italic slash letter _ Hs Hl). cbn [app].
  rewrite (exec_lead_absent true italicPattern 60%N _ eq_refl);
    [reflexivity|].
  apply Forall_app. split.
  { destruct Hs as [-> | ->]; repeat constructor. }
  constructor.
  { destruct Hl as [-> | ->]; reflexivity. }
  apply Forall_app. split; [apply (plain_no_lt true inner Pi)|].
  constructor; [reflexivity|].
  apply (plain_no_lt true b Pb).
Qed.

Lemma b_tag_chars (a b inner slash : jsstring) (letter : N) (c : N) :
  plain a -> plain b -> plain inner ->
  slash = [] \/ slash = [47%N] -> letter = 98%N \/ letter = 66%N ->
  plain_char c = false -> c <> 60%N ->
  ~ In c (a ++ b_tag slash letter inner ++ b).
Proof.
  intros Pa Pb Pi Hs Hl Hc N1. unfold b_tag. rewrite !in_app_iff.
  pose proof (plain_absent c a Pa Hc). pose proof (plain_absent c b Pb Hc).
  pose proof (plain_absent c inner Pi Hc).
  assert (c <> 47%N) by (intros ->; discriminate).
  assert (c <> 98%N) by (intros ->; discriminate).
  assert (c <> 66%N) by (intros ->; discriminate).
  assert (c <> 62%N) by (intros ->; discriminate).
  destruct Hs as [-> | ->]; destruct Hl as [-> | ->]; simpl;
    intuition congruence.
Qed.

Lemma b_tag_steps (table : list (jsstring * jsstring))
      (a b inner slash : jsstring) (letter : N) :
  plain a -> plain b -> plain inner -> ~ In 62%N inner ->
  slash = [] \/ slash = [47%N] -> letter = 98%N \/ letter = 66%N ->
  already_correct table (a ++ b_tag slash letter inner ++ b) ->
  cleanSteps table (a ++ b_tag slash letter inner ++ b)
  = (breakLines (a ++ b), str "Default").
Proof.
  intros Pa Pb Pi Hi Hs Hl A.
  rewrite (cleanSteps_default table _
             (b_tag_chars a b inner slash letter 65279%N Pa Pb Pi Hs Hl
                eq_refl ltac:(discriminate))
             (b_tag_chars a b inner slash letter CR Pa Pb Pi Hs Hl
                eq_refl ltac:(discriminate))
             A (b_tag_italic a b inner slash letter Pa Pb Pi Hs Hl)).
  rewrite htmlTags_eq, tags_cons.
  rewrite (replace_all_app true (tagPattern "b") [] 60%N a
             (b_tag slash letter inner) b [] eq_refl
             (plain_no_lt true a Pa)
             ltac:(unfold b_tag; discriminate)
             (b_tag_match slash letter inner b Hs Hl Hi)).
  rewrite app_nil_l.
  rewrite (replace_all_lead_absent true (tagPattern "b") [] 60%N b eq_refl
             (plain_no_lt true b Pb)).
  pose proof (plain_app a b Pa Pb) as Pab.
  rewrite (tags_plain (a ++ b) Pab (tl htmlTags) rest_tags_lead).
  rewrite (br_plain _ Pab), (entities_plain _ Pab).
  reflexivity.
Qed.

(** X18: a tag whose name starts with [b] or [B] is taken out of the text
    by the pattern of the bold tags, which is applied before the pattern of
    the line-break tag: so [<br>], [<br/>] and [<BR />] do not become line
    breaks, the text before and the text after are joined with nothing
    between them. *)
Theorem cleanAndFormatText_b_tag (table : list (jsstring * jsstring))
        (a b inner slash : jsstring) (letter : N) :
  plain a -> plain b -> plain inner -> ~ In 62%N inner ->
  slash = [] \/ slash = [47%N] -> letter = 98%N \/ letter = 66%N ->
  plain_line (a ++ b) ->
  already_correct table (a ++ b_tag slash letter inner ++ b) ->
  cleanAndFormatText table (a ++ b_tag slash letter inner ++ b)
  = (a ++ b, str "Default").
Proof.
  intros Pa Pb Pi Hi Hs Hl Hab A.
  apply cleanAndFormatText_line.
  - unfold b_tag. destruct a; discriminate.
  - now apply plain_line_text.
  - destruct Hab as (P & _). apply (plain_absent _ _ P). reflexivity.
  - now apply b_tag_steps.
Qed.

Lemma cleanAndFormatText_b_tag_witness :
  cleanAndFormatText encodingFixes_source (str "Hello<br>World")
  = (str "HelloWorld", str "Default").
Proof.
  apply (cleanAndFormatText_b_tag encodingFixes_source (str "Hello")
           (str "World") (str "r") [] 98%N).
  - repeat constructor.
  - repeat constructor.
  - repeat constructor.
  - simpl. intuition discriminate.
  - now left.
  - now left.
  - split; [repeat constructor | text_line_tac].
  - apply already_correctb_sound. vm_compute. reflexivity.
Defined.

(** ** Italic *)

Section MatcherComplete.
Variable ci : bool.

(** A repetition finds a match when some number of characters lets the rest
    of the pattern match. *)
Lemma rep_complete (A : Type) (k : cls) (w : jsstring) :
  forall (lo : nat) (hi : option nat) (s : jsstring)
         (cont : jsstring -> option A),
    Forall (fun c => cls_match ci k c = true) w ->
    lo <= length w -> within hi (length w) ->
    cont s <> None ->
    rep ci k lo hi (w ++ s) cont <> None.
Proof.
  induction w as [|c w IH]; intros lo hi s cont Hw Hlo Hhi Hk.
  - simpl in Hlo. assert (lo = 0) by lia. subst lo. cbn [app].
    destruct s as [|d s]; destruct hi as [[|h]|]; cbn [rep]; auto;
      destruct (cls_match ci k d); auto;
      match goal with
      | |- match ?x with Some _ => _ | None => _ end <> None =>
          destruct x; [discriminate | exact Hk]
      end.
  - inversion Hw as [|? ? Hc Hw']; subst. cbn [app].
    destruct hi as [[|h]|]; simpl in Hhi; [lia| |].
    + cbn [rep option_map pred]. rewrite Hc.
      pose proof (IH (pred lo) (Some h) s cont Hw') as K.
      destruct (rep ci k (pred lo) (Some h) (w ++ s) cont);
        [discriminate|].
      exfalso. apply K; auto; simpl in *; lia.
    + cbn [rep option_map pred]. rewrite Hc.
      pose proof (IH (pred lo) None s cont Hw') as K.
      destruct (rep ci k (pred lo) None (w ++ s) cont); [discriminate|].
      exfalso. apply K; auto; simpl in *; lia.
Qed.

Lemma mtch_complete (r : regex) (w : jsstring) (cs cs' : caps) :
  matches ci r w cs cs' ->
  forall (A : Type) (s : jsstring) (cont : jsstring -> caps -> option A),
    cont s cs' <> None -> mtch ci r (w ++ s) cs cont <> None.
Proof.
  induction 1 as [cs|k c cs Hc|k lo hi w cs Hw Hlo Hhi
                  |r1 r2 w1 w2 cs cs1 cs2 _ IH1 _ IH2
                  |i r w cs cs1 _ IH]; intros A s cont Hk; cbn [mtch].
  - exact Hk.
  - cbn [app]. now rewrite Hc.
  - now apply rep_complete.
  - rewrite <- app_assoc. apply IH1. now apply IH2.
  - apply IH. now rewrite firstn_length_diff.
Qed.

(** [test] answers true when the pattern matches somewhere. *)
Lemma test_complete (r : regex) (pre w s : jsstring) (cs : caps) :
  matches ci r w [] cs -> test ci r (pre ++ w ++ s) = true.
Proof.
  intros M. unfold test.
  assert (E : exec ci r (pre ++ w ++ s) <> None).
  { induction pre as [|c pre IH]; rewrite exec_eq.
    - cbn [app].
      pose proof (mtch_complete r w [] cs M _ s
                    (fun s' cs' => Some (s', cs'))) as K.
      fold (match_here ci r (w ++ s)) in K.
      destruct (match_here ci r (w ++ s)) as [[rest cs']|];
        [discriminate|].
      exfalso. apply K; [discriminate | reflexivity].
    - destruct (match_here ci r ((c :: pre) ++ w ++ s)) as [[rest cs']|];
        [discriminate | exact IH]. }
  destruct (exec ci r (pre ++ w ++ s)); [reflexivity | contradiction].
Qed.

End MatcherComplete.

Lemma matches_lit_self (ci : bool) (p : jsstring) (cs : caps) :
  matches ci (lit p) p cs cs.
Proof.
  induction p as [|c p IH]; [constructor|].
  change (c :: p) with ([c] ++ p). cbn [lit]. econstructor; [|exact IH].
  constructor. unfold cls_match, char_eq. destruct ci; apply N.eqb_refl.
Qed.

Lemma italic_open_match (rest : jsstring) :
  match_here true italicTag (str "<i>" ++ rest) = Some (rest, []).
Proof. reflexivity. Qed.

Lemma italic_close_match (rest : jsstring) :
  match_here true italicTag (str "</i>" ++ rest) = Some (rest, []).
Proof. reflexivity. Qed.

Lemma italic_pair_test (a m b : jsstring) :
  Forall (fun c => is_line_terminator c = false) m ->
  test true italicPattern (a ++ str "<i>" ++ m ++ str "</i>" ++ b) = true.
Proof.
  intros Lm.
  replace (a ++ str "<i>" ++ m ++ str "</i>" ++ b)
    with (a ++ (str "<i>" ++ m ++ str "</i>") ++ b)
    by (now rewrite <- !app_assoc).
  apply (test_complete true italicPattern a _ b []).
  unfold italicPattern. cbn [rseq].
  apply M_seq with (cs1 := []); [apply matches_lit_self|].
  apply M_seq with (cs1 := []); [|apply matches_lit_self].
  apply M_rep; [|lia | exact I].
  eapply Forall_impl; [|exact Lm]. intros c Hc.
  unfold cls_match. now rewrite Hc.
Qed.

Lemma italic_pair_chars (a m b : jsstring) (c : N) :
  plain a -> plain m -> plain b -> plain_char c = false ->
  ~ In c (str "<i>") -> ~ In c (str "</i>") ->
  ~ In c (a ++ str "<i>" ++ m ++ str "</i>" ++ b).
Proof.
  intros Pa Pm Pb Hc N1 N2. rewrite !in_app_iff.
  pose proof (plain_absent c a Pa Hc). pose proof (plain_absent c b Pb Hc).
  pose proof (plain_absent c m Pm Hc). tauto.
Qed.

Lemma italic_pair_steps (table : list (jsstring * jsstring))
      (a m b : jsstring) :
  plain a -> plain m -> plain b ->
  Forall (fun c => is_line_terminator c = false) m ->
  already_correct table (a ++ str "<i>" ++ m ++ str "</i>" ++ b) ->
  cleanSteps table (a ++ str "<i>" ++ m ++ str "</i>" ++ b)
  = (breakLines (a ++ m ++ b), str "Italic").
Proof.
  intros Pa Pm Pb Lm A.
  assert (N1 : ~ In 65279%N (a ++ str "<i>" ++ m ++ str "</i>" ++ b)).
  { apply italic_pair_chars; auto; simpl; intuition discriminate. }
  assert (N2 : ~ In CR (a ++ str "<i>" ++ m ++ str "</i>" ++ b)).
  { apply italic_pair_chars; auto; simpl; intuition discriminate. }
  rewrite (cleanSteps_italic table _ N1 N2 A (italic_pair_test a m b Lm)).
  rewrite (replace_all_app true italicTag [] 60%N a (str "<i>")
             (m ++ str "</i>" ++ b) [] eq_refl (plain_no_lt true a Pa)
             ltac:(discriminate) (italic_open_match _)).
  rewrite (replace_all_app true italicTag [] 60%N m (str "</i>") b []
             eq_refl (plain_no_lt true m Pm)
             ltac:(discriminate) (italic_close_match _)).
  rewrite (replace_all_lead_absent true italicTag [] 60%N b eq_refl
             (plain_no_lt true b Pb)).
  rewrite !app_nil_l.
  pose proof (plain_app a (m ++ b) Pa (plain_app m b Pm Pb)) as Pab.
  rewrite (tags_plain _ Pab htmlTags htmlTags_lead).
  rewrite (br_plain _ Pab), (entities_plain _ Pab).
  reflexivity.
Qed.

(** X19: a line of plain text in which [<i>] and, further on, [</i>]
    stand around a part of the line makes the whole cue italic: the style
    is Italic, and both tags are taken out of the text. *)
Theorem cleanAndFormatText_italic_part (table : list (jsstring * jsstring))
        (a m b : jsstring) :
  plain a -> plain m -> plain b ->
  Forall (fun c => is_line_terminator c = false) m ->
  plain_line (a ++ m ++ b) ->
  already_correct table (a ++ str "<i>" ++ m ++ str "</i>" ++ b) ->
  cleanAndFormatText table (a ++ str "<i>" ++ m ++ str "</i>" ++ b)
  = (a ++ m ++ b, str "Italic").
Proof.
  intros Pa Pm Pb Lm Hl A.
  apply cleanAndFormatText_line.
  - destruct a; discriminate.
  - now apply plain_line_text.
  - destruct Hl as (P & _). apply (plain_absent _ _ P). reflexivity.
  - now apply italic_pair_steps.
Qed.

Lemma cleanAndFormatText_italic_part_witness :
  cleanAndFormatText encodingFixes_source (str "so <i>very</i> late")
  = (str "so very late", str "Italic").
Proof.
  apply (cleanAndFormatText_italic_part encodingFixes_source (str "so ")
           (str "very") (str " late")).
  - repeat constructor.
  - repeat constructor.
  - repeat constructor.
  - repeat constructor.
  - split; [repeat constructor | text_line_tac].
  - apply already_correctb_sound. vm_compute. reflexivity.
Defined.

(** ** Entities *)

Lemma string_eqb_refl (a : jsstring) : string_eqb a a = true.
Proof.
  induction a as [|x a IH]; [reflexivity|]. cbn [string_eqb].
  now rewrite N.eqb_refl, IH.
Qed.

Lemma starts_with_prefix (p q b : jsstring) :
  starts_with p (q ++ b) = true ->
  starts_with p q = true \/ starts_with q p = true.
Proof.
  revert q. induction p as [|x p IH]; intros q H; [now left|].
  destruct q as [|y q]; [now right|].
  cbn [app starts_with] in *. apply andb_true_iff in H. destruct H as [E H].
  rewrite E. cbn [andb]. apply N.eqb_eq in E. subst y.
  rewrite N.eqb_refl. cbn [andb]. now apply IH.
Qed.

Lemma lit_match (k b : jsstring) :
  match_here false (lit k) (k ++ b) = Some (b, []).
Proof.
  unfold match_here. now rewrite mtch_lit, starts_with_self, skipn_self.
Qed.

(** Nothing is replaced in a text that holds the first character of the
    pattern at one place only, where the pattern does not match. *)
Lemma replace_all_one_spot (ci : bool) (r : regex) (repl : jsstring) (c : N)
      (a : jsstring) (x : N) (s : jsstring) :
  lead r = Some c -> Forall (fun y => char_eq ci c y = false) a ->
  match_here ci r (x :: s) = None ->
  Forall (fun y => char_eq ci c y = false) s ->
  replace_all ci r repl (a ++ x :: s) = a ++ x :: s.
Proof.
  intros L Ha M Hs. unfold replace_all.
  rewrite (replace_all_f_fuel ci r repl (S (length (a ++ x :: s)))
             (length a + S (S (length s)))).
  - rewrite (replace_all_f_app_skip ci r repl c a L Ha).
    rewrite (replace_all_f_skip ci r repl _ x s M).
    now rewrite (replace_all_f_lead_absent ci r repl c _ s L Hs).
  - lia.
  - rewrite length_app. simpl. lia.
Qed.

Lemma no_amp (s : jsstring) :
  ~ In 38%N s -> Forall (fun y => char_eq false 38 y = false) s.
Proof. apply not_in_char_eq. Qed.

(** The loop over the rows of a table of entities, on a text that holds one
    entity and no other [&]. *)
Lemma entities_fold (rows : list (jsstring * jsstring))
      (a k v b : jsstring) :
  ~ In 38%N a -> ~ In 38%N k -> ~ In 38%N v -> ~ In 38%N b ->
  Forall (fun row => lead (lit (fst row)) = Some 38%N
                     /\ rows_apart (38%N :: k, v) row = true) rows ->
  fold_left (fun t row => replace_all false (lit (fst row)) (snd row) t)
    rows (a ++ (38%N :: k) ++ b)
  = if existsb (fun row => string_eqb (38%N :: k) (fst row)) rows
    then a ++ v ++ b
    else a ++ (38%N :: k) ++ b.
Proof.
  intros Na Nk Nv Nb H.
  assert (Nt : ~ In 38%N (a ++ v ++ b)) by (rewrite !in_app_iff; tauto).
  induction H as [|[k2 v2] rows (L & Ap) Hrows IH]; [reflexivity|].
  cbn [fold_left existsb fst snd] in *.
  unfold rows_apart in Ap. cbn [fst snd] in Ap.
  apply orb_true_iff in Ap. destruct Ap as [Ap | Ap].
  - apply andb_true_iff in Ap. destruct Ap as [E1 E2].
    rewrite E1. cbn [orb].
    apply string_eqb_eq in E1, E2. subst k2 v2.
    rewrite (replace_all_app false (lit (38%N :: k)) v 38%N a (38%N :: k) b
               [] L (no_amp a Na)); [|discriminate | apply lit_match].
    rewrite (replace_all_lead_absent false (lit (38%N :: k)) v 38%N b L
               (no_amp b Nb)).
    apply fold_left_id. eapply Forall_impl; [|exact Hrows].
    intros row (Lr & _).
    exact (replace_all_lead_absent false (lit (fst row)) (snd row) 38%N _ Lr
             (no_amp _ Nt)).
  - apply andb_true_iff in Ap. destruct Ap as [P1 P2].
    apply negb_true_iff in P1, P2.
    replace (string_eqb (38%N :: k) k2) with false.
    2:{ symmetry. destruct (string_eqb (38%N :: k) k2) eqn:E; [|reflexivity].
        apply string_eqb_eq in E. subst k2.
        rewrite <- (app_nil_r (38%N :: k)) in P1 at 2.
        now rewrite starts_with_self in P1. }
    cbn [orb]. cbn [app].
    rewrite (replace_all_one_spot false (lit k2) v2 38%N a 38%N (k ++ b) L
               (no_amp a Na)).
    + exact IH.
    + unfold match_here. rewrite mtch_lit.
      destruct (starts_with k2 (38%N :: k ++ b)) eqn:E; [|reflexivity].
      change (38%N :: k ++ b) with ((38%N :: k) ++ b) in E.
      apply starts_with_prefix in E. destruct E as [E | E]; congruence.
    + apply no_amp. rewrite in_app_iff. tauto.
Qed.

Lemma entity_rows_ok : forallb entity_row_ok (tl htmlEntities) = true.
Proof. vm_compute. reflexivity. Qed.

(** What [entity_row_ok] says of a row. *)
Lemma entity_row_spec (k v : jsstring) :
  In (38%N :: k, v) (tl htmlEntities) ->
  plain k /\ ~ In 38%N v /\ ~ In 92%N v /\ ~ In LF v
  /\ Forall (fun row => lead (lit (fst row)) = Some 38%N
                        /\ rows_apart (38%N :: k, v) row = true)
            htmlEntities.
Proof.
  intros H. pose proof entity_rows_ok as C. rewrite forallb_forall in C.
  specialize (C _ H). unfold entity_row_ok in C. cbn [fst snd] in C.
  rewrite !andb_true_iff in C. destruct C as [[[_ C1] C2] C3].
  rewrite forallb_forall in C1, C2, C3.
  assert (V : forall x, In x v -> x <> 38%N /\ x <> 92%N /\ x <> LF).
  { intros x Hx. specialize (C2 x Hx). rewrite !andb_true_iff in C2.
    destruct C2 as [[A1 A2] A3]. apply negb_true_iff in A1, A2, A3.
    apply N.eqb_neq in A1, A2, A3. tauto. }
  repeat split.
  - apply Forall_forall. exact C1.
  - intros K. now apply V in K.
  - intros K. now apply V in K.
  - intros K. now apply V in K.
  - pose proof htmlEntities_lead as HL. rewrite Forall_forall in HL.
    apply Forall_forall. intros row Hr. split; [now apply HL | now apply C3].
Qed.

(** The steps of [cleanAndFormatText] up to the entities, on a text without
    [<], byte order mark and carriage return. *)
Lemma cleanSteps_entities (table : list (jsstring * jsstring))
      (text : jsstring) :
  ~ In 60%N text -> ~ In 65279%N text -> ~ In CR text ->
  already_correct table text ->
  cleanSteps table text
  = (breakLines
       (fold_left
          (fun t row => replace_all false (lit (fst row)) (snd row) t)
          htmlEntities text),
     str "Default").
Proof.
  intros N1 N2 C A. unfold cleanSteps.
  assert (Lt : Forall (fun x => char_eq true 60 x = false) text).
  { apply Forall_forall. intros x Hx. apply char_eq_lt. intros ->.
    contradiction. }
  rewrite (replace_all_lead_absent false (RAtom (CChar 65279)) [] 65279%N
             text eq_refl (not_in_char_eq _ _ N2)).
  rewrite (fixEncodingArtifacts_absent table text A).
  rewrite (replace_all_absent_char CR [LF] [LF] _ C).
  rewrite (replace_all_absent_char CR [] [LF] _ C).
  rewrite (test_lead_absent true italicPattern 60%N text eq_refl Lt).
  rewrite (fold_left_id _ _ _ htmlTags text).
  2:{ eapply Forall_impl; [|exact htmlTags_lead]. intros p L.
      exact (replace_all_lead_absent true p [] 60%N text L Lt). }
  rewrite (replace_all_lead_absent true brPattern assBreak 60%N text eq_refl
             Lt).
  reflexivity.
Qed.

(** X20: an entity of the table other than [&amp;], standing in a line of
    plain text, is replaced by its character; and so is the same entity
    written with [&amp;] in place of its [&], which is decoded twice:
    [&amp;lt;] gives [<], not [&lt;]. *)
Theorem cleanAndFormatText_entity (table : list (jsstring * jsstring))
        (a b k v : jsstring) :
  In (38%N :: k, v) (tl htmlEntities) ->
  plain a -> plain b -> text_line (a ++ v ++ b) ->
  already_correct table (a ++ (38%N :: k) ++ b) ->
  already_correct table (a ++ str "&amp;" ++ k ++ b) ->
  cleanAndFormatText table (a ++ (38%N :: k) ++ b)
  = (a ++ v ++ b, str "Default")
  /\ cleanAndFormatText table (a ++ str "&amp;" ++ k ++ b)
     = (a ++ v ++ b, str "Default").
Proof.
  intros Hrow Pa Pb Tl A1 A2.
  destruct (entity_row_spec k v Hrow) as (Pk & V1 & V2 & V3 & Rows).
  assert (Ab : forall c, plain_char c = false ->
                         ~ In c a /\ ~ In c b /\ ~ In c k).
  { intros c Hc. repeat split; now apply plain_absent. }
  destruct (Ab 38%N eq_refl) as (Na & Nb & Nk).
  destruct (Ab 92%N eq_refl) as (Ba & Bb & _).
  assert (Bl : ~ In 92%N (a ++ v ++ b)) by (rewrite !in_app_iff; tauto).
  assert (F1 : fold_left
                 (fun t row => replace_all false (lit (fst row)) (snd row) t)
                 htmlEntities (a ++ (38%N :: k) ++ b)
               = a ++ v ++ b).
  { rewrite (entities_fold htmlEntities a k v b Na Nk V1 Nb Rows).
    replace (existsb (fun row => string_eqb (38%N :: k) (fst row))
               htmlEntities) with true; [reflexivity|].
    symmetry. apply existsb_exists. exists (38%N :: k, v). split.
    - now right.
    - apply string_eqb_refl. }
  assert (F2 : fold_left
                 (fun t row => replace_all false (lit (fst row)) (snd row) t)
                 htmlEntities (a ++ str "&amp;" ++ k ++ b)
               = a ++ v ++ b).
  { rewrite htmlEntities_eq, entities_cons.
    rewrite (replace_all_app false (lit (str "&amp;")) [38%N] 38%N a
               (str "&amp;") (k ++ b) [] eq_refl (no_amp a Na));
      [|discriminate | apply lit_match].
    rewrite (replace_all_lead_absent false (lit (str "&amp;")) [38%N] 38%N
               (k ++ b) eq_refl)
      by (apply no_amp; rewrite in_app_iff; tauto).
    replace (a ++ [38%N] ++ k ++ b) with (a ++ (38%N :: k) ++ b)
      by reflexivity.
    rewrite (entities_fold (tl htmlEntities) a k v b Na Nk V1 Nb
               (Forall_inv_tail (a := (str "&amp;", [38%N]))
                  (l := tl htmlEntities) Rows)).
    replace (existsb (fun row => string_eqb (38%N :: k) (fst row))
               (tl htmlEntities)) with true; [reflexivity|].
    symmetry. apply existsb_exists. exists (38%N :: k, v). split.
    - exact Hrow.
    - apply string_eqb_refl. }
  assert (Pt : forall t, (forall c, In c t -> In c a \/ In c b \/ In c k
                                    \/ In c (str "&amp;")) ->
                         ~ In 60%N t /\ ~ In 65279%N t /\ ~ In CR t).
  { intros t Ht.
    destruct (Ab 60%N eq_refl) as (X1 & X2 & X3).
    destruct (Ab 65279%N eq_refl) as (Y1 & Y2 & Y3).
    destruct (Ab CR eq_refl) as (Z1 & Z2 & Z3).
    repeat split; intros K; apply Ht in K; simpl in K;
      intuition discriminate. }
  assert (Done : forall t, t <> [] ->
            cleanSteps table t = (breakLines (a ++ v ++ b), str "Default") ->
            cleanAndFormatText table t = (a ++ v ++ b, str "Default")).
  { intros t Hne St. now apply cleanAndFormatText_line. }
  split; apply Done.
  - destruct a; discriminate.
  - destruct (Pt (a ++ (38%N :: k) ++ b)) as (X & Y & Z).
    { intros c. rewrite !in_app_iff. simpl. tauto. }
    now rewrite (cleanSteps_entities table _ X Y Z A1), F1.
  - destruct a; discriminate.
  - destruct (Pt (a ++ str "&amp;" ++ k ++ b)) as (X & Y & Z).
    { intros c. rewrite !in_app_iff. simpl. tauto. }
    now rewrite (cleanSteps_entities table _ X Y Z A2), F2.
Qed.

Lemma cleanAndFormatText_entity_witness :
  cleanAndFormatText encodingFixes_source (str "a &lt; b")
  = (str "a < b", str "Default")
  /\ cleanAndFormatText encodingFixes_source (str "a &amp;lt; b")
     = (str "a < b", str "Default").
Proof.
  apply (cleanAndFormatText_entity encodingFixes_source (str "a ")
           (str " b") (str "lt;") (str "<")).
  - now left.
  - repeat constructor.
  - repeat constructor.
  - text_line_tac.
  - apply already_correctb_sound. vm_compute. reflexivity.
  - apply already_correctb_sound. vm_compute. reflexivity.
Defined.
